(** * jsjpeg: a baseline JPEG decoder in JavaScript

    A shallow embedding of the entropy-coded data path of the decoder
    (bit reader, the two Huffman decoders, coefficient decoding,
    dequantisation, reordering, the three IDCTs and the level shift),
    followed by the properties of the specification that are stated about
    them.

    JavaScript numbers that hold integers are modelled by [Z]; the 32-bit
    operators ([<<], [>>], [|], [&]) wrap through [toInt32]. A value that is
    [undefined] or [NaN] (an array hole, a lookup out of range, arithmetic
    on either) is [None] in a [cell]. An exception thrown by the DataView
    accessors (a read out of range) is [None] in the result of a reader
    operation. *)

From Stdlib Require Import ZArith Lia Bool Floats.
From Stdlib Require Strings.Byte.
From stdpp Require Import base option list.

Open Scope Z_scope.

(** ** JavaScript integers *)

Module JS.

  (** ToInt32 of an integer-valued number. *)
Definition toInt32 (x : Z) : Z := (x + 2 ^ 31) mod 2 ^ 32 - 2 ^ 31.

  (** [a << k], [a >> k], [a | b], [a & b]. *)
Definition shl (a k : Z) : Z := toInt32 (Z.shiftl (toInt32 a) (k mod 32)).
Definition sar (a k : Z) : Z := Z.shiftr (toInt32 a) (k mod 32).
Definition or (a b : Z) : Z := toInt32 (Z.lor (toInt32 a) (toInt32 b)).
Definition and (a b : Z) : Z := toInt32 (Z.land (toInt32 a) (toInt32 b)).

  (** An array element, or any value used as a number: [None] stands for
      [undefined] and for [NaN]. *)
Abbreviation cell := (option Z).

  (** ToInt32 of a cell: [undefined] and [NaN] convert to 0. *)
Definition int32_of (c : cell) : Z := toInt32 (default 0 c).

  (** The bitwise operators applied to cells. *)
Definition cshl (a : cell) (k : Z) : Z := shl (int32_of a) k.
Definition csar (a : cell) (k : Z) : Z := sar (int32_of a) k.

  (** Arithmetic on cells: anything that is not a number gives [NaN]. *)
Definition cadd (a b : cell) : cell := x ← a; y ← b; Some (x + y).
Definition cmul (a b : cell) : cell := x ← a; y ← b; Some (x * y).

  (** [a[i]] for an index that may be negative or past the end. *)
Definition get {A} (a : list (option A)) (i : Z) : option A :=
    if i <? 0 then None else mjoin (a !! Z.to_nat i).

  (** [a[i] = v] on an array: inside the array the element is replaced;
      past the end the array grows and the positions in between are holes;
      a negative [i] names a property that is not an element. *)
Definition set {A} (a : list (option A)) (i : Z) (v : option A)
    : list (option A) :=
    if i <? 0 then a
    else
      let n := Z.to_nat i in
      if decide (n < length a)%nat then <[n:=v]> a
      else a ++ replicate (n - length a) None ++ [v].

  (** [a - b] on cells. *)
Definition csub (a b : cell) : cell := x ← a; y ← b; Some (x - y).

  (** [a.fill(v)]. *)
Definition fill {A} (a : list (option A)) (v : A) : list (option A) :=
    replicate (length a) (Some v).

End JS.

Abbreviation cell := JS.cell.

(** ** reader.js: DataViewReader *)

(** The fields of a reader. [view] is the byte buffer of the DataView;
    [buffer] and [buffSize] exist in the revision that has [peek]. *)
Record DataViewReader := mkReader {
  view : list Byte.byte;
  index : Z;
  byte : Z;
  cnt : Z;
  buffer : Z;
  buffSize : Z
}.

(** The part of [img] that the reader touches: the DC predictors, which are
    [img.scan.dcpred] (the same array object as [scan.dcpred] of the scan
    being decoded), and [img.frame.frameY]. *)
Record Img := mkImg {
  dcpred : list cell;
  frameY : Z
}.

Definition set_index (r : DataViewReader) (i : Z) : DataViewReader :=
  mkReader (view r) i (byte r) (cnt r) (buffer r) (buffSize r).
Definition set_byte (r : DataViewReader) (b : Z) : DataViewReader :=
  mkReader (view r) (index r) b (cnt r) (buffer r) (buffSize r).
Definition set_cnt (r : DataViewReader) (c : Z) : DataViewReader :=
  mkReader (view r) (index r) (byte r) c (buffer r) (buffSize r).
Definition set_buffer (r : DataViewReader) (b : Z) : DataViewReader :=
  mkReader (view r) (index r) (byte r) (cnt r) b (buffSize r).
Definition set_buffSize (r : DataViewReader) (n : Z) : DataViewReader :=
  mkReader (view r) (index r) (byte r) (cnt r) (buffer r) n.

Definition set_dcpred (img : Img) (d : list cell) : Img := mkImg d (frameY img).
Definition set_frameY (img : Img) (y : Z) : Img := mkImg (dcpred img) y.

(** [new DataViewReader(view)], that is [reset()]. *)
Definition newReader (v : list Byte.byte) : DataViewReader :=
  mkReader v (-1) 0 0 0 0.

(** [view.getUint8(i)]: a RangeError outside the buffer. *)
Definition getUint8 (v : list Byte.byte) (i : Z) : option Z :=
  if i <? 0 then None
  else b ← v !! Z.to_nat i; Some (Z.of_N (Byte.to_N b)).

(** [view.getUint16(i)], big-endian. *)
Definition getUint16 (v : list Byte.byte) (i : Z) : option Z :=
  hi ← getUint8 v i; lo ← getUint8 v (i + 1); Some (hi * 256 + lo).

Definition nextByte (r : DataViewReader) : option (Z * DataViewReader) :=
  let r := set_index r (index r + 1) in
  b ← getUint8 (view r) (index r); Some (b, r).

Definition nextWord (r : DataViewReader) : option (Z * DataViewReader) :=
  let r := set_index r (index r + 1) in
  w ← getUint16 (view r) (index r); Some (w, set_index r (index r + 1)).

Definition hasMoreBytes (r : DataViewReader) : bool :=
  index r <? Z.of_nat (length (view r)) - 1.


(** jsjpeg.js: [parseDNL(reader, img)]. *)
Definition parseDNL (r : DataViewReader) (img : Img)
  : option (DataViewReader * Img) :=
  '(_, r) ← nextWord r;
  '(y, r) ← nextWord r;
  Some (r, set_frameY img y).

(** The first part of [nextBit]: when no bit is left, the next byte is
    taken, and the byte after it is looked at when that one is 0xFF. *)
Definition nextBit_load (r : DataViewReader) (img : Img)
  : option (DataViewReader * Img) :=
  if cnt r =? 0 then
    '(b, r) ← nextByte r;
    let r := set_cnt (set_byte r b) 8 in
    if byte r =? 255 then
      '(byte2, r) ← nextByte r;
      if negb (byte2 =? 0) then
        if byte2 =? 220 then parseDNL r img
        else if (208 <=? byte2) && (byte2 <=? 215) then
          let r := set_cnt r 1 in
          let img := set_dcpred img (JS.fill (dcpred img) 0) in
          '(b, r) ← nextByte r;
          Some (set_byte r b, img)
        else Some (r, img)
      else Some (r, img)
    else Some (r, img)
  else Some (r, img).

(** [reader.nextBit(img)], the NEXTBIT procedure. *)
Definition nextBit (r : DataViewReader) (img : Img)
  : option (Z * DataViewReader * Img) :=
  '(r, img) ← nextBit_load r img;
  let bit := JS.sar (byte r) 7 in
  let r := set_cnt r (cnt r - 1) in
  let r := set_byte r (JS.shl (byte r) 1) in
  let r := set_byte r (JS.and (byte r) 255) in
  Some (bit, r, img).

(** [reader.peek(img, numBits)]. The loop runs while [buffSize < numBits]
    and adds eight bits (sixteen at a restart marker) each time round, so
    [numBits - buffSize] rounds suffice; [peek_loop] is given that many. *)
Fixpoint peek_loop (fuel : nat) (numBits : Z) (r : DataViewReader) (img : Img)
  : option (DataViewReader * Img) :=
  if buffSize r <? numBits then
    match fuel with
    | O => None
    | S fuel =>
        if negb (hasMoreBytes r) then
          let r := set_buffer r (JS.or (JS.shl (buffer r) 8) 255) in
          let r := set_buffSize r (buffSize r + 8) in
          peek_loop fuel numBits r img
        else
          '(b, r) ← nextByte r;
          let r := set_buffer r (JS.or (JS.shl (buffer r) 8) b) in
          let r := set_buffSize r (buffSize r + 8) in
          '(r, img) ←
            (if b =? 255 then
               '(byte2, r) ← nextByte r;
               if negb (byte2 =? 0) then
                 if byte2 =? 220 then parseDNL r img
                 else if (208 <=? byte2) && (byte2 <=? 215) then
                   let r := set_buffer r (JS.or (JS.shl (buffer r) 8) b) in
                   let r := set_buffSize r (buffSize r + 8) in
                   Some (set_index r (index r - 2), img)
                 else Some (r, img)
               else Some (r, img)
             else Some (r, img));
          peek_loop fuel numBits r img
    end
  else Some (r, img).

Definition peek (r : DataViewReader) (img : Img) (numBits : Z)
  : option (Z * DataViewReader * Img) :=
  '(r, img) ← peek_loop (Z.to_nat (numBits - buffSize r)) numBits r img;
  let ret :=
    JS.and (JS.sar (buffer r) (buffSize r - numBits))
           (JS.shl 1 numBits - 1) in
  Some (ret, r, img).

(** The bits of a byte, most significant first. *)
Definition bits8 (b : Z) : list Z :=
  map (fun i => Z.b2z (Z.testbit b (Z.of_nat i))) (rev (seq 0 8)).

(** [n] successive calls of [nextBit]. *)
Fixpoint nextBits (n : nat) (r : DataViewReader) (img : Img)
  : option (list Z * DataViewReader * Img) :=
  match n with
  | O => Some ([], r, img)
  | S n =>
      match nextBit r img with
      | Some (b, r, img) =>
          match nextBits n r img with
          | Some (bs, r, img) => Some (b :: bs, r, img)
          | None => None
          end
      | None => None
      end
  end.

(** ** The bit source of the Huffman decoders

    [HuffArray] reads its bits with [reader.nextBit(img)]. [HuffTree] calls
    a function [nextBit(reader, img)]; the decoders are written over the
    interface of a bit source, of which the reader with its [img] is the
    instance. *)

Class BitSource (Src : Type) := next_bit : Src -> option (Z * Src).

#[export] Instance reader_source : BitSource (DataViewReader * Img)%type :=
  fun s => '(b, r, img) ← nextBit s.1 s.2; Some (b, (r, img)).

(** jsjpeg.js *)
Definition NUM_HUFFMAN_LENGTHS : Z := 16.

(** The code lengths [1 .. NUM_HUFFMAN_LENGTHS] that the loops run over. *)
Definition lengths : list Z := map Z.of_nat (seq 1 (Z.to_nat NUM_HUFFMAN_LENGTHS)).

(** ** hufftree.js: HuffTree *)

(** A reference to a node: [Undefined] is the value of a [left] or [right]
    that has not been assigned. *)
Inductive HuffTree :=
| Undefined
| HuffNode (level : Z) (data : cell) (left right : HuffTree).

(** [new HuffTree(level)] *)
Definition newHuffTree (lvl : Z) : HuffTree :=
  HuffNode lvl None Undefined Undefined.

Definition level (t : HuffTree) : Z :=
  match t with HuffNode lvl _ _ _ => lvl | Undefined => 0 end.
Definition data (t : HuffTree) : cell :=
  match t with HuffNode _ d _ _ => d | Undefined => None end.

(** [insertCode(codeLength, value)]. The method recurses into a child one
    level down, onto a node it has just created when there was none, so it
    is written with the number of nested calls it may make; [None] is a
    recursion that did not end within them, or a call on [undefined]. *)
Fixpoint insertCode_rec (fuel : nat) (t : HuffTree) (codeLength value : Z)
  : option (bool * HuffTree) :=
  match fuel, t with
  | O, _ | _, Undefined => None
  | S fuel, HuffNode lvl d l r =>
      if bool_decide (d ≠ None) then Some (false, t)
      else if codeLength =? lvl then Some (true, HuffNode lvl (Some value) l r)
      else
        match l with
        | Undefined =>
            let l := newHuffTree (lvl + 1) in
            let r := newHuffTree (lvl + 1) in
            match insertCode_rec fuel l codeLength value with
            | Some (ok, l) => Some (ok, HuffNode lvl d l r)
            | None => None
            end
        | _ =>
            match insertCode_rec fuel l codeLength value with
            | Some (true, l) => Some (true, HuffNode lvl d l r)
            | Some (false, l) =>
                match insertCode_rec fuel r codeLength value with
                | Some (ok, r) => Some (ok, HuffNode lvl d l r)
                | None => None
                end
            | None => None
            end
        end
  end.

Definition tree_insertCode (t : HuffTree) (codeLength value : Z)
  : option (bool * HuffTree) :=
  insertCode_rec (S (Z.to_nat (codeLength - level t))) t codeLength value.

(** [descendNode(bit)] *)
Definition descendNode (t : HuffTree) (bit : Z) : HuffTree :=
  match t with
  | HuffNode _ _ l r => if bit =? 0 then l else if bit =? 1 then r else Undefined
  | Undefined => Undefined
  end.

Section Decoders.
Context {Src : Type} `{BitSource Src}.

  (** The body of the loop of [decodeHuffman] once [descendNode] has
      returned [node]: [undefined] ends the loop with an error, a node with
      [data] returns it, any other node is walked on from ([walk]). *)
Definition arrive (node : HuffTree) (walk : Src -> option (cell * Src)) (s : Src)
    : option (cell * Src) :=
    match node with
    | Undefined => Some (None, s)
    | HuffNode _ d _ _ => if bool_decide (d ≠ None) then Some (d, s) else walk s
    end.

  (** [HuffTree.decodeHuffman(reader, img)]: the result is [undefined]
      ([None] in the cell) when the walk leaves the tree. *)
Fixpoint tree_decodeHuffman (node : HuffTree) (s : Src) : option (cell * Src) :=
    match next_bit s with
    | None => None
    | Some (bit, s) =>
        match node with
        | HuffNode _ _ l r =>
            if bit =? 0 then arrive l (tree_decodeHuffman l) s
            else if bit =? 1 then arrive r (tree_decodeHuffman r) s
            else Some (None, s)
        | Undefined => Some (None, s)
        end
    end.

End Decoders.

(** ** huffarray.js: HuffArray *)

Record HuffArray := mkHuffArray {
  huffval : list Z;
  huffsize : list Z;
  huffcode : list Z;
  bits : list cell
}.

(** [new HuffArray()] *)
Definition newHuffArray : HuffArray := mkHuffArray [] [] [] [].

(** The number of rounds of [for (j = 1; j <= bits[i]; j++)]: none when
    [bits[i]] is [undefined]. *)
Definition count (bits : list cell) (i : Z) : nat :=
  Z.to_nat (default 0 (JS.get bits i)).

(** Figure C.1: the code sizes, ended by 0. *)
Definition gen_huffsize (bits : list cell) : list Z :=
  flat_map (fun i => replicate (count bits i) i) lengths ++ [0].

(** Figure C.2, inner loop: [while (huffsize[k] === si) huffcode[k++] = code++],
    over the part of [huffsize] from [k] on. *)
Fixpoint gen_codes_inner (hs : list Z) (si code : Z) (acc : list Z)
  : list Z * Z * list Z :=
  match hs with
  | s :: hs' =>
      if s =? si then gen_codes_inner hs' si (code + 1) (acc ++ [code])
      else (hs, code, acc)
  | [] => (hs, code, acc)
  end.

(** Figure C.2, outer loop: [while (huffsize[k] != 0)]. Past the end of
    [huffsize] the test reads [undefined] and stays true. *)
Fixpoint gen_codes_outer (fuel : nat) (hs : list Z) (si code : Z)
  (acc : list Z) : option (list Z) :=
  match fuel with
  | O => None
  | S fuel =>
      if bool_decide (hs !! 0%nat = Some 0) then Some acc
      else
        let '(hs, code, acc) := gen_codes_inner hs si code acc in
        gen_codes_outer fuel hs (si + 1) (JS.shl code 1) acc
  end.

(** The outer loop raises [si] by one each round and [huffsize] holds
    lengths up to 16 in ascending order. *)
Definition gen_huffcode (hs : list Z) : option (list Z) :=
  gen_codes_outer (S (Z.to_nat NUM_HUFFMAN_LENGTHS)) hs (default 0 (hs !! 0%nat)) 0 [].

(** [initDecoder(bits)] on a new decoder. *)
Definition array_initDecoder (a : HuffArray) (bits : list cell)
  : option HuffArray :=
  let hs := gen_huffsize bits in
  hc ← gen_huffcode hs;
  Some (mkHuffArray (huffval a) hs hc bits).

Definition array_insertCode (a : HuffArray) (codeLength value : Z)
  : bool * HuffArray :=
  (true, mkHuffArray (huffval a ++ [value]) (huffsize a) (huffcode a) (bits a)).

(** The tables of [decodeHuffman]: [mincode], [maxcode], [valptr], indexed
    by code length, and the running [j]. *)
Record DecodeTables := mkTables {
  mincode : list cell;
  maxcode : list cell;
  valptr : list cell;
  tj : cell
}.

Definition tables_step (a : HuffArray) (t : DecodeTables) (i : Z)
  : DecodeTables :=
  if bool_decide (JS.get (bits a) i = Some 0) then
    mkTables (mincode t) (JS.set (maxcode t) i (Some (-1))) (valptr t) (tj t)
  else
    let hc j := j ← j; if j <? 0 then None else huffcode a !! Z.to_nat j in
    let vp := JS.set (valptr t) i (tj t) in
    let mn := JS.set (mincode t) i (hc (tj t)) in
    let j := JS.cadd (tj t) (JS.csub (JS.get (bits a) i) (Some 1)) in
    let mx := JS.set (maxcode t) i (hc j) in
    mkTables mn mx vp (JS.cadd j (Some 1)).

Definition gen_tables (a : HuffArray) : DecodeTables :=
  fold_left (tables_step a) lengths (mkTables [] [] [] (Some 0)).

Section ArrayDecoder.
Context {Src : Type} `{BitSource Src}.

  (** [while (code > maxcode[i]) { i++; code = (code << 1) + nextBit }],
      over the part of [maxcode] from [i] on. The test is false on
      [undefined], which is what is read past the last length. *)
Fixpoint array_loop (mc : list cell) (i code : Z) (s : Src)
    : option (Z * Z * Src) :=
    match mc with
    | Some m :: mc =>
        if code >? m then
          match next_bit s with
          | Some (tmp, s) => array_loop mc (i + 1) (JS.shl code 1 + tmp) s
          | None => None
          end
        else Some (i, code, s)
    | _ => Some (i, code, s)
    end.

  (** [HuffArray.decodeHuffman(reader, img)] *)
Definition array_decodeHuffman (a : HuffArray) (s : Src) : option (cell * Src) :=
    let t := gen_tables a in
    '(code, s) ← next_bit s;
    '(i, code, s) ← array_loop (drop 1 (maxcode t)) 1 code s;
    let j := JS.get (valptr t) i in
    let j := JS.cadd j (JS.csub (Some code) (JS.get (mincode t) i)) in
    let value := j ← j; if j <? 0 then None else huffval a !! Z.to_nat j in
    Some (value, s).

End ArrayDecoder.

(** ** The decoder chosen in [parseHuffmanTable] *)

Inductive HuffDecoder :=
| TreeDecoder (t : HuffTree)
| ArrayDecoder (a : HuffArray).

Definition initDecoder (d : HuffDecoder) (bits : list cell)
  : option HuffDecoder :=
  match d with
  | TreeDecoder t => Some (TreeDecoder t)
  | ArrayDecoder a => ArrayDecoder <$> array_initDecoder a bits
  end.

Definition insertCode (d : HuffDecoder) (codeLength value : Z)
  : option (bool * HuffDecoder) :=
  match d with
  | TreeDecoder t =>
      '(ok, t) ← tree_insertCode t codeLength value; Some (ok, TreeDecoder t)
  | ArrayDecoder a =>
      let '(ok, a) := array_insertCode a codeLength value in
      Some (ok, ArrayDecoder a)
  end.

Definition decodeHuffman {Src} `{BitSource Src} (d : HuffDecoder) (s : Src)
  : option (cell * Src) :=
  match d with
  | TreeDecoder t => tree_decodeHuffman t s
  | ArrayDecoder a => array_decodeHuffman a s
  end.

(** [parseHuffmanTable]: the decoder is initialised with [bits] and is given
    the values one by one, [bits[i]] of them at each length [i]; the values
    are the bytes that follow [bits] in the segment. *)
Fixpoint insertCodes (d : HuffDecoder) (i : Z) (n : nat) (vals : list Z)
  : option (HuffDecoder * list Z) :=
  match n with
  | O => Some (d, vals)
  | S n =>
      match vals with
      | [] => None
      | v :: vals =>
          match insertCode d i v with
          | Some (_, d) => insertCodes d i n vals
          | None => None
          end
      end
  end.

Fixpoint insertLengths (d : HuffDecoder) (ls : list Z) (bits : list cell)
  (vals : list Z) : option (HuffDecoder * list Z) :=
  match ls with
  | [] => Some (d, vals)
  | i :: ls =>
      match insertCodes d i (count bits i) vals with
      | Some (d, vals) => insertLengths d ls bits vals
      | None => None
      end
  end.

Definition loadTable (d : HuffDecoder) (bits : list cell) (vals : list Z)
  : option HuffDecoder :=
  d ← initDecoder d bits;
  '(d, _) ← insertLengths d lengths bits vals;
  Some d.

(** ** jsjpeg.js: coefficient decoding *)

Definition ZIGZAG : list Z :=
  [ 0;  1;  5;  6; 14; 15; 27; 28;
    2;  4;  7; 13; 16; 26; 29; 42;
    3;  8; 12; 17; 25; 30; 41; 43;
    9; 11; 18; 24; 31; 40; 44; 53;
   10; 19; 23; 32; 39; 45; 52; 54;
   20; 22; 33; 38; 46; 51; 55; 60;
   21; 34; 37; 47; 50; 56; 59; 61;
   35; 36; 48; 49; 57; 58; 62; 63].

Definition DATA_UNIT_SIZE : Z := 8.

Definition getHighNibble (b : cell) : Z := JS.sar (default 0 b) 4.
Definition getLowNibble (b : cell) : Z := JS.and (default 0 b) 15.

(** Figure F.12. [t] is the symbol that [decodeHuffman] returned; for
    [undefined] the power is [NaN] and the comparison is false. For [t >= 1]
    the power [2 ** (t - 1)] is an integer; for a negative [t] it lies
    strictly between 0 and 1. *)
Definition extend (v : Z) (t : cell) : Z :=
  match t with
  | None => v
  | Some t =>
      if t =? 0 then 0
      else
        let below := if t <? 1 then v <=? 0 else v <? 2 ^ (t - 1) in
        if below then v + (JS.shl (-1) t + 1) else v
  end.

Section Receive.
Context {Src : Type} `{BitSource Src}.

Fixpoint receive_loop (n : nat) (v : Z) (s : Src) : option (Z * Src) :=
    match n with
    | O => Some (v, s)
    | S n =>
        match next_bit s with
        | Some (b, s) => receive_loop n (JS.shl v 1 + b) s
        | None => None
        end
    end.

  (** F.2.2.4: [for (i = 0; i < ssss; i++)] runs [ssss] times, and not at
      all when [ssss] is [undefined]. *)
Definition receive (s : Src) (ssss : cell) : option (Z * Src) :=
    receive_loop (Z.to_nat (default 0 ssss)) 0 s.

End Receive.

(** The reader together with [img]; [img.scan.dcpred] is [scan.dcpred]. *)
Abbreviation Source := (DataViewReader * Img)%type.

Definition decodeDCCoeff (s : Source) (id : Z) (dcTable : HuffDecoder)
  : option (cell * Source) :=
  '(t, s) ← decodeHuffman dcTable s;
  '(diff, s) ← receive s t;
  let diff := extend diff t in
  let pred := JS.get (dcpred s.2) id in
  Some (JS.cadd pred (Some diff), s).

(** How one round of the loop of [decodeACCoeffs] ends: with [k] at some
    value, to which the loop then adds one, or by [break]. *)
Inductive Flow :=
| Next (k : Z)
| Break.

(** The body of [for (let k = 1; k < 64; k++)]. *)
Definition ac_body (acTable : HuffDecoder) (k : Z) (s : Source)
  (zigzagCoeff : list cell) : option (Flow * Source * list cell) :=
  '(rs, s) ← decodeHuffman acTable s;
  let ssss := getLowNibble rs in
  let rrrr := getHighNibble rs in
  if ssss =? 0 then
    if rrrr =? 15 then Some (Next (k + 15), s, zigzagCoeff)
    else if rrrr =? 0 then Some (Break, s, zigzagCoeff)
    else Some (Next k, s, zigzagCoeff)
  else
    let k := k + rrrr in
    '(amp, s) ← receive s (Some ssss);
    let sign := extend amp (Some ssss) in
    Some (Next k, s, JS.set zigzagCoeff k (Some sign)).

(** The loop raises [k] by at least one each round as long as the run
    lengths are not negative, so 63 rounds reach 64 from 1. *)
Fixpoint ac_loop (fuel : nat) (acTable : HuffDecoder) (k : Z) (s : Source)
  (zigzagCoeff : list cell) : option (Source * list cell) :=
  if k <? 64 then
    match fuel with
    | O => None
    | S fuel =>
        match ac_body acTable k s zigzagCoeff with
        | Some (Next k, s, zigzagCoeff) =>
            ac_loop fuel acTable (k + 1) s zigzagCoeff
        | Some (Break, s, zigzagCoeff) => Some (s, zigzagCoeff)
        | None => None
        end
    end
  else Some (s, zigzagCoeff).

Definition decodeACCoeffs (s : Source) (zigzagCoeff : list cell)
  (acTable : HuffDecoder) : option (Source * list cell) :=
  ac_loop 63 acTable 1 s zigzagCoeff.

(** [dequantize(zigzagCoeff, quantTable)] works in place; this is the
    content of [zigzagCoeff] after the call ([Store.dequantize] below is
    the loop on the two array objects). *)
Definition dequantize (zigzagCoeff quantTable : list cell) : list cell :=
  imap (fun i c => JS.cmul c (JS.get quantTable (Z.of_nat i))) zigzagCoeff.

(** [reorder(coeff)]: the new array it returns. *)
Definition reorder (coeff : list cell) : list cell :=
  map (fun i => z ← ZIGZAG !! i; JS.get coeff z) (seq 0 (length coeff)).

(** [levelShift(block)]: the content of [block] after the call. *)
Definition levelShift (block : list cell) : list cell :=
  map (fun c => JS.cadd c (Some 128)) block.

(** ** idct.js: the three inverse transforms *)

(** Numbers that are not integers are IEEE doubles. *)
Module Num.

Definition of_Z (z : Z) : float :=
    SF2Prim (binary_normalize prec emax z 0 false).

Definition of_cell (c : cell) : float :=
    match c with
    | Some z => of_Z z
    | None => nan
    end.

  (** [Math.round]: the integer nearest to [x], the larger one in a tie;
      [NaN] and the infinities are not integers. For [x = n * 2^e] with
      [e < 0] the result is the floor of [(2 n + 2^-e) / 2^(1-e)]. *)
Definition round (x : float) : cell :=
    match Prim2SF x with
    | S754_zero _ => Some 0
    | S754_finite s m e =>
        let n := cond_Zopp s (Z.pos m) in
        if 0 <=? e then Some (n * 2 ^ e)
        else Some ((2 * n + 2 ^ (- e)) / 2 ^ (1 - e))
    | _ => None
    end.

  (** [Math.PI] and [Math.SQRT2] *)
Definition PI : float := 0x1.921fb54442d18p+1.
Definition SQRT2 : float := PrimFloat.sqrt 2.

  (** A number that is neither [NaN] nor infinite. *)
Definition finite (x : float) : bool :=
    match Prim2SF x with
    | S754_zero _ | S754_finite _ _ _ => true
    | _ => false
    end.

End Num.

(** The indices of a row or column of a data unit. *)
Definition idx8 : list Z := map Z.of_nat (seq 0 (Z.to_nat DATA_UNIT_SIZE)).

(** [for] over a list with a state. *)
Definition for_each {A St} (l : list A) (body : St -> A -> St) (st : St) : St :=
  fold_left body l st.

Section IDCT.
  (** [Math.cos], which ECMAScript leaves to the implementation. *)
Variable Math_cos : float -> float.

Definition INV_SQRT2 : float := 1 / Num.SQRT2.

Definition C (val : Z) : float := if val =? 0 then INV_SQRT2 else 1.

  (** [(((2*x)+1) * u * Math.PI) / 16]; the integer part is exact. *)
Definition angle (x u : Z) : float :=
    (Num.of_Z ((2 * x + 1) * u) * Num.PI / 16)%float.

  (** The sum over [v] and [u] for the sample at [(x, y)]; [cosx u] and
      [cosy v] are the two cosine factors. *)
Definition idct_sum (coeffs : list cell) (cosx cosy : Z -> float) : float :=
    for_each idx8 (fun sum v =>
      for_each idx8 (fun sum u =>
        (sum + C u * C v * Num.of_cell (JS.get coeffs (v * DATA_UNIT_SIZE + u))
               * cosx u * cosy v)%float) sum) 0%float.

  (** The two loops over [y] and [x] that fill [ret]. *)
Definition idct_fill (coeffs : list cell) (cosine : Z -> Z -> float)
    : list cell :=
    for_each idx8 (fun ret y =>
      for_each idx8 (fun ret x =>
        JS.set ret (y * DATA_UNIT_SIZE + x)
          (Num.round (idct_sum coeffs (cosine x) (cosine y) / 4)%float)) ret)
      (replicate (length coeffs) None).

  (** [idct(coeffs)], the naive transform *)
Definition idct (coeffs : list cell) : list cell :=
    idct_fill coeffs (fun x u => Math_cos (angle x u)).

  (** [initIDCTCache()]: [idctCache[i][j] = Math.cos(...)] *)
Definition initIDCTCache : list (list float) :=
    map (fun i => map (fun j => Math_cos (angle i j)) idx8) idx8.

Definition cache_get (cache : list (list float)) (i j : Z) : float :=
    default nan (row ← cache !! Z.to_nat i; row !! Z.to_nat j).

  (** [idctCached(coeffs)]; [idctCache] is a global, [None] until the first
      call. *)
Definition idctCached (idctCache : option (list (list float)))
    (coeffs : list cell) : list cell * option (list (list float)) :=
    let cache := default initIDCTCache idctCache in
    (idct_fill coeffs (cache_get cache), Some cache).

End IDCT.

Definition W1 : Z := 2841.
Definition W2 : Z := 2676.
Definition W3 : Z := 2408.
Definition W5 : Z := 1609.
Definition W6 : Z := 1108.
Definition W7 : Z := 565.

Definition clampIdct (val : Z) : Z :=
  if val >? 127 then 127 else if val <? -128 then -128 else val.

Declare Scope cell_scope.
Delimit Scope cell_scope with C.
Notation "a + b" := (JS.cadd a b) : cell_scope.
Notation "a - b" := (JS.csub a b) : cell_scope.
Notation "a * b" := (JS.cmul a b) : cell_scope.
Notation "# z" := (Some (z : Z)) (at level 9, format "# z") : cell_scope.

(** [idctrow(blk, idx)]. The sums and products are those of the source;
    they are exact in double precision as long as they stay below 2^53,
    which they do for coefficients of up to 32 bits. *)
Definition idctrow (blk : list cell) (idx : Z) : list cell :=
  let x1 := JS.cshl (JS.get blk (4 + idx)) 11 in
  let x2 := JS.get blk (6 + idx) in
  let x3 := JS.get blk (2 + idx) in
  let x4 := JS.get blk (1 + idx) in
  let x5 := JS.get blk (7 + idx) in
  let x6 := JS.get blk (5 + idx) in
  let x7 := JS.get blk (3 + idx) in
  if JS.or (JS.or (JS.or (JS.or (JS.or (JS.or x1 (JS.int32_of x2))
       (JS.int32_of x3)) (JS.int32_of x4)) (JS.int32_of x5))
       (JS.int32_of x6)) (JS.int32_of x7) =? 0
  then
    let tmp := JS.cshl (JS.get blk (0 + idx)) 3 in
    for_each (map (fun i => idx + i) idx8) (fun blk i => JS.set blk i (Some tmp)) blk
  else
    (let x0 := #(JS.cshl (JS.get blk (0 + idx)) 11 + 128) in
     let x1 := #x1 in
     (* first stage *)
     let x8 := #W7 * (x4 + x5) in
     let x4 := x8 + #(W1 - W7) * x4 in
     let x5 := x8 - #(W1 + W7) * x5 in
     let x8 := #W3 * (x6 + x7) in
     let x6 := x8 - #(W3 - W5) * x6 in
     let x7 := x8 - #(W3 + W5) * x7 in
     (* second stage *)
     let x8 := x0 + x1 in
     let x0 := x0 - x1 in
     let x1 := #W6 * (x3 + x2) in
     let x2 := x1 - #(W2 + W6) * x2 in
     let x3 := x1 + #(W2 - W6) * x3 in
     let x1 := x4 + x6 in
     let x4 := x4 - x6 in
     let x6 := x5 + x7 in
     let x5 := x5 - x7 in
     (* third stage *)
     let x7 := x8 + x3 in
     let x8 := x8 - x3 in
     let x3 := x0 + x2 in
     let x0 := x0 - x2 in
     let x2 := #(JS.csar (#181 * (x4 + x5) + #128) 8) in
     let x4 := #(JS.csar (#181 * (x4 - x5) + #128) 8) in
     (* fourth stage *)
     let blk := JS.set blk (0 + idx) #(JS.csar (x7 + x1) 8) in
     let blk := JS.set blk (1 + idx) #(JS.csar (x3 + x2) 8) in
     let blk := JS.set blk (2 + idx) #(JS.csar (x0 + x4) 8) in
     let blk := JS.set blk (3 + idx) #(JS.csar (x8 + x6) 8) in
     let blk := JS.set blk (4 + idx) #(JS.csar (x8 - x6) 8) in
     let blk := JS.set blk (5 + idx) #(JS.csar (x0 - x4) 8) in
     let blk := JS.set blk (6 + idx) #(JS.csar (x3 - x2) 8) in
     JS.set blk (7 + idx) #(JS.csar (x7 - x1) 8))%C.

(** [idctcol(blk, idx)] *)
Definition idctcol (blk : list cell) (idx : Z) : list cell :=
  let x1 := JS.cshl (JS.get blk (idx + 8 * 4)) 8 in
  let x2 := JS.get blk (idx + 8 * 6) in
  let x3 := JS.get blk (idx + 8 * 2) in
  let x4 := JS.get blk (idx + 8 * 1) in
  let x5 := JS.get blk (idx + 8 * 7) in
  let x6 := JS.get blk (idx + 8 * 5) in
  let x7 := JS.get blk (idx + 8 * 3) in
  if JS.or (JS.or (JS.or (JS.or (JS.or (JS.or x1 (JS.int32_of x2))
       (JS.int32_of x3)) (JS.int32_of x4)) (JS.int32_of x5))
       (JS.int32_of x6)) (JS.int32_of x7) =? 0
  then
    let tmp := clampIdct (JS.csar (JS.get blk (idx + 8 * 0) + #32)%C 6) in
    for_each idx8 (fun blk i => JS.set blk (idx + 8 * i) (Some tmp)) blk
  else
    (let x0 := #(JS.cshl (JS.get blk (idx + 8 * 0)) 8 + 8192) in
     let x1 := #x1 in
     (* first stage *)
     let x8 := #W7 * (x4 + x5) + #4 in
     let x4 := #(JS.csar (x8 + #(W1 - W7) * x4) 3) in
     let x5 := #(JS.csar (x8 - #(W1 + W7) * x5) 3) in
     let x8 := #W3 * (x6 + x7) + #4 in
     let x6 := #(JS.csar (x8 - #(W3 - W5) * x6) 3) in
     let x7 := #(JS.csar (x8 - #(W3 + W5) * x7) 3) in
     (* second stage *)
     let x8 := x0 + x1 in
     let x0 := x0 - x1 in
     let x1 := #W6 * (x3 + x2) + #4 in
     let x2 := #(JS.csar (x1 - #(W2 + W6) * x2) 3) in
     let x3 := #(JS.csar (x1 + #(W2 - W6) * x3) 3) in
     let x1 := x4 + x6 in
     let x4 := x4 - x6 in
     let x6 := x5 + x7 in
     let x5 := x5 - x7 in
     (* third stage *)
     let x7 := x8 + x3 in
     let x8 := x8 - x3 in
     let x3 := x0 + x2 in
     let x0 := x0 - x2 in
     let x2 := #(JS.csar (#181 * (x4 + x5) + #128) 8) in
     let x4 := #(JS.csar (#181 * (x4 - x5) + #128) 8) in
     (* fourth stage *)
     let blk := JS.set blk (idx + 8 * 0) #(clampIdct (JS.csar (x7 + x1) 14)) in
     let blk := JS.set blk (idx + 8 * 1) #(clampIdct (JS.csar (x3 + x2) 14)) in
     let blk := JS.set blk (idx + 8 * 2) #(clampIdct (JS.csar (x0 + x4) 14)) in
     let blk := JS.set blk (idx + 8 * 3) #(clampIdct (JS.csar (x8 + x6) 14)) in
     let blk := JS.set blk (idx + 8 * 4) #(clampIdct (JS.csar (x8 - x6) 14)) in
     let blk := JS.set blk (idx + 8 * 5) #(clampIdct (JS.csar (x0 - x4) 14)) in
     let blk := JS.set blk (idx + 8 * 6) #(clampIdct (JS.csar (x3 - x2) 14)) in
     JS.set blk (idx + 8 * 7) #(clampIdct (JS.csar (x7 - x1) 14)))%C.

(** [idctChenWang(coeffs)]: in place, the rows then the columns. *)
Definition idctChenWang (coeffs : list cell) : list cell :=
  let coeffs := for_each (map (fun r => 8 * r) idx8) idctrow coeffs in
  for_each idx8 idctcol coeffs.

(** The three values of the radio buttons [idctType] of index.html, and the
    function [idctFn] that [decodeScan] chooses for the value checked:
    [switch (idctType)] has the cases "calculated", for [idct], and
    "cached", for [idctCached], and its [default] takes [idct] again. So the
    value "chenwang" gives the naive transform: [idctChenWang] is called by
    the tests only. In the revision of jsjpeg.js without the [switch],
    [decodeDataUnit] calls [idct] itself, which is the case [calculated]. *)
Inductive IdctType := calculated | cached | chenwang.

Definition idctFn (Math_cos : float -> float) (ty : IdctType)
  (idctCache : option (list (list float))) (coeffs : list cell)
  : list cell * option (list (list float)) :=
  match ty with
  | calculated => (idct Math_cos coeffs, idctCache)
  | cached => idctCached Math_cos idctCache coeffs
  | chenwang => (idct Math_cos coeffs, idctCache)
  end.

(** ** jsjpeg.js: a data unit, an MCU, a scan *)


Section Pipeline.
Variable Math_cos : float -> float.
  (** The transform chosen for the scan. *)
Variable idctType : IdctType.

  (** [decodeDataUnit(reader, img, scan, id, dcTable, acTable, quantTable)]:
      the block, and the reader, [img] and [idctCache] after the call. *)
Definition decodeDataUnit (s : Source) (cache : option (list (list float)))
    (id : Z) (dcTable acTable : HuffDecoder) (quantTable : list cell)
    : option (list cell * Source * option (list (list float))) :=
    let zigzagCoeff := replicate 64 (Some 0) in
    '(dc, s) ← decodeDCCoeff s id dcTable;
    let zigzagCoeff := JS.set zigzagCoeff 0 dc in
    let s := (s.1, set_dcpred s.2 (JS.set (dcpred s.2) id (JS.get zigzagCoeff 0))) in
    '(s, zigzagCoeff) ← decodeACCoeffs s zigzagCoeff acTable;
    let zigzagCoeff := dequantize zigzagCoeff quantTable in
    let reordered := reorder zigzagCoeff in
    let '(block, cache) := idctFn Math_cos idctType cache reordered in
    let block := levelShift block in
    Some (block, s, cache).

End Pipeline.

(** A component of the frame and a component selector of the scan header. *)
Record Component := mkComponent {
  componentID : Z;
  hSampleFactor : Z;
  vSampleFactor : Z;
  quantTableID : Z
}.

Record Selector := mkSelector {
  Cs : Z;
  Td : Z;
  Ta : Z
}.

(** The tables and the frame that [img] holds during a scan. *)
Record Image := mkImage {
  huffmanTablesDC : list (option HuffDecoder);
  huffmanTablesAC : list (option HuffDecoder);
  quantTables : list (option (list cell));
  restartInterval : Z;
  frameComponents : list Component;
  hMCUs : Z;
  vMCUS : Z
}.


(** [0, 1, ..., n - 1] *)
Definition upto (n : Z) : list Z := map Z.of_nat (seq 0 (Z.to_nat n)).

Section Scan.
Variable Math_cos : float -> float.
Variable idctType : IdctType.
Variable image : Image.
  (** [scan.components] *)
Variable selectors : list Selector.






End Scan.

(** ** The arrays as objects

    [dequantize] and [levelShift] write into the array they are given and
    [reorder] fills a new one. Here the arrays live in a store and a
    function is given the places of its arguments. *)
Module Store.

Abbreviation store := (list (list cell)).

  (** [a[i]] and [a[i] = v] for the array at [a]. *)
Definition read (h : store) (a : nat) (i : Z) : cell :=
    JS.get (default [] (h !! a)) i.
Definition write (h : store) (a : nat) (i : Z) (v : cell) : store :=
    <[a := JS.set (default [] (h !! a)) i v]> h.
Definition length_of (h : store) (a : nat) : nat :=
    length (default [] (h !! a)).

  (** [for (let i = 0; i < zigzagCoeff.length; i++)
         zigzagCoeff[i] = zigzagCoeff[i] * quantTable[i]] *)
Definition dequantize (h : store) (zigzagCoeff quantTable : nat) : store :=
    for_each (upto (Z.of_nat (length_of h zigzagCoeff))) (fun h i =>
      write h zigzagCoeff i
        (JS.cmul (read h zigzagCoeff i) (read h quantTable i))) h.

  (** [reorder(coeff)]: the store with the new array, and its place. *)
Definition reorder (h : store) (coeff : nat) : store * nat :=
    let reordered := length h in
    let h := h ++ [replicate (length_of h coeff) None] in
    (for_each (upto (Z.of_nat (length_of h coeff))) (fun h i =>
       write h reordered i
         (z ← ZIGZAG !! Z.to_nat i; read h coeff z)) h,
     reordered).

  (** [for (let i = 0; i < block.length; i++) block[i] += 128] *)
Definition levelShift (h : store) (block : nat) : store :=
    for_each (upto (Z.of_nat (length_of h block))) (fun h i =>
      write h block i (JS.cadd (read h block i) (Some 128))) h.

End Store.

(** ** Data for the examples *)

(** A cosine for the examples: the values of the cosine at the angles
    [n * PI / 16], [n = 0 .. 105], which are the angles that the transforms
    ask for, and 1 elsewhere. *)
Definition cos_table : list float :=
  [ 0x1.0000000000000p+0; 0x1.f6297cff75cb0p-1; 0x1.d906bcf328d46p-1; 0x1.a9b66290ea1a3p-1;
    0x1.6a09e667f3bcdp-1; 0x1.1c73b39ae68c9p-1; 0x1.87de2a6aea964p-2; 0x1.8f8b83c69a60dp-3;
    0x1.1a62633145c07p-54; -0x1.8f8b83c69a608p-3; -0x1.87de2a6aea962p-2; -0x1.1c73b39ae68c6p-1;
    -0x1.6a09e667f3bccp-1; -0x1.a9b66290ea1a4p-1; -0x1.d906bcf328d46p-1; -0x1.f6297cff75cb0p-1;
    -0x1.0000000000000p+0; -0x1.f6297cff75cb0p-1; -0x1.d906bcf328d47p-1; -0x1.a9b66290ea1a5p-1;
    -0x1.6a09e667f3bcep-1; -0x1.1c73b39ae68c8p-1; -0x1.87de2a6aea96dp-2; -0x1.8f8b83c69a619p-3;
    -0x1.a79394c9e8a0ap-53; 0x1.8f8b83c69a60cp-3; 0x1.87de2a6aea967p-2; 0x1.1c73b39ae68c5p-1;
    0x1.6a09e667f3bcbp-1; 0x1.a9b66290ea1a3p-1; 0x1.d906bcf328d44p-1; 0x1.f6297cff75cafp-1;
    0x1.0000000000000p+0; 0x1.f6297cff75cb0p-1; 0x1.d906bcf328d46p-1; 0x1.a9b66290ea1a5p-1;
    0x1.6a09e667f3bcep-1; 0x1.1c73b39ae68c9p-1; 0x1.87de2a6aea96fp-2; 0x1.8f8b83c69a61dp-3;
    0x1.60fafbfd97309p-52; -0x1.8f8b83c69a5e8p-3; -0x1.87de2a6aea965p-2; -0x1.1c73b39ae68c4p-1;
    -0x1.6a09e667f3bc5p-1; -0x1.a9b66290ea1a2p-1; -0x1.d906bcf328d43p-1; -0x1.f6297cff75cb1p-1;
    -0x1.0000000000000p+0; -0x1.f6297cff75cb2p-1; -0x1.d906bcf328d46p-1; -0x1.a9b66290ea1a6p-1;
    -0x1.6a09e667f3bc9p-1; -0x1.1c73b39ae68cap-1; -0x1.87de2a6aea971p-2; -0x1.8f8b83c69a602p-3;
    -0x1.ee2c2d963a10cp-52; 0x1.8f8b83c69a5e4p-3; 0x1.87de2a6aea963p-2; 0x1.1c73b39ae68c3p-1;
    0x1.6a09e667f3bc4p-1; 0x1.a9b66290ea1a2p-1; 0x1.d906bcf328d43p-1; 0x1.f6297cff75cb0p-1;
    0x1.0000000000000p+0; 0x1.f6297cff75cb2p-1; 0x1.d906bcf328d46p-1; 0x1.a9b66290ea1a7p-1;
    0x1.6a09e667f3bcap-1; 0x1.1c73b39ae68cbp-1; 0x1.87de2a6aea973p-2; 0x1.8f8b83c69a606p-3;
    0x1.3daeaf976e788p-51; -0x1.8f8b83c69a5dfp-3; -0x1.87de2a6aea961p-2; -0x1.1c73b39ae68c2p-1;
    -0x1.6a09e667f3bc3p-1; -0x1.a9b66290ea1a1p-1; -0x1.d906bcf328d43p-1; -0x1.f6297cff75cb0p-1;
    -0x1.0000000000000p+0; -0x1.f6297cff75cb2p-1; -0x1.d906bcf328d4dp-1; -0x1.a9b66290ea19ep-1;
    -0x1.6a09e667f3bcbp-1; -0x1.1c73b39ae68ccp-1; -0x1.87de2a6aea975p-2; -0x1.8f8b83c69a649p-3;
    -0x1.6111d218effa2p-49; 0x1.8f8b83c69a61ap-3; 0x1.87de2a6aea95fp-2; 0x1.1c73b39ae68c2p-1;
    0x1.6a09e667f3bc2p-1; 0x1.a9b66290ea198p-1; 0x1.d906bcf328d48p-1; 0x1.f6297cff75cb0p-1;
    0x1.0000000000000p+0; 0x1.f6297cff75cb3p-1; 0x1.d906bcf328d4dp-1; 0x1.a9b66290ea19fp-1;
    0x1.6a09e667f3bccp-1; 0x1.1c73b39ae68cdp-1; 0x1.87de2a6aea977p-2; 0x1.8f8b83c69a64ep-3;
    -0x1.1a900f67f753ap-50; -0x1.8f8b83c69a616p-3 ]%float.

Definition cos_grid (x : float) : float :=
  match Num.round (x * 16 / Num.PI)%float with
  | Some n => if n <? 0 then 1%float else default 1%float (cos_table !! Z.to_nat n)
  | None => 1%float
  end.

Definition mkByte (n : Z) : Byte.byte :=
  default Byte.x00 (Byte.of_N (Z.to_N n)).

Definition img0 : Img := mkImg [] 0.

(** ** Definitions for the statements *)

(** A reader whose [byte] is one: every reader is, from [reset()] on. *)
Definition byte_ok (r : DataViewReader) : Prop := 0 <= byte r < 256.

(** The bits that a byte register gives, and what it holds afterwards:
    [n] times the last part of [nextBit]. *)
Fixpoint reg_bits (n : nat) (b : Z) : list Z :=
  match n with
  | O => []
  | Datatypes.S n => JS.sar b 7 :: reg_bits n (JS.and (JS.shl b 1) 255)
  end.

Fixpoint reg_rest (n : nat) (b : Z) : Z :=
  match n with
  | O => b
  | Datatypes.S n => reg_rest n (JS.and (JS.shl b 1) 255)
  end.

(** The [m] low bits of [x] are 1 (of the 32 that an integer of the reader
    has). *)
Definition ones_below (m x : Z) : Prop :=
  forall j, 0 <= j < m -> j < 32 -> Z.testbit x j = true.

(** The arrays of [testDequantize]. *)
Definition test_quantTable : list cell := map Some
  [ 16;  11;  10;  16;  24;  40;  51;  61;
    12;  12;  14;  19;  26;  58;  60;  55;
    14;  13;  16;  24;  40;  57;  69;  56;
    14;  17;  22;  29;  51;  87;  80;  62;
    18;  22;  37;  56;  68; 109; 103;  77;
    24;  35;  55;  64;  81; 104; 113;  92;
    49;  64;  78;  87; 103; 121; 120; 101;
    72;  92;  95;  98; 112; 100; 103;  99].

Definition test_coeffs : list cell := map Some
  [ -26; -3; -6;  2;  2; -1;  0;  0;
      0; -2; -4;  1;  1;  0;  0;  0;
     -3;  1;  5; -1; -1;  0;  0;  0;
     -3;  1;  2; -1;  0;  0;  0;  0;
      1;  0;  0;  0;  0;  0;  0;  0;
      0;  0;  0;  0;  0;  0;  0;  0;
      0;  0;  0;  0;  0;  0;  0;  0;
      0;  0;  0;  0;  0;  0;  0;  0].

Definition test_dequantized : list cell := map Some
  [ -416; -33; -60;  32;  48; -40;   0;   0;
       0; -24; -56;  19;  26;   0;   0;   0;
     -42;  13;  80; -24; -40;   0;   0;   0;
     -42;  17;  44; -29;   0;   0;   0;   0;
      18;   0;   0;   0;   0;   0;   0;   0;
       0;   0;   0;   0;   0;   0;   0;   0;
       0;   0;   0;   0;   0;   0;   0;   0;
       0;   0;   0;   0;   0;   0;   0;   0].

(** The body of the loop of [decodeACCoeffs] as the specification words it:
    ZRL, EOB, and any other symbol advances [k] by RRRR and then stores
    EXTEND(RECEIVE(SSSS), SSSS) at [k]. *)
Definition ac_body_as_specified (acTable : HuffDecoder) (k : Z) (s : Source)
  (zigzagCoeff : list cell) : option (Flow * Source * list cell) :=
  '(rs, s) ← decodeHuffman acTable s;
  let ssss := getLowNibble rs in
  let rrrr := getHighNibble rs in
  if (ssss =? 0) && (rrrr =? 15) then Some (Next (k + 15), s, zigzagCoeff)
  else if (ssss =? 0) && (rrrr =? 0) then Some (Break, s, zigzagCoeff)
  else
    let k := k + rrrr in
    '(amp, s) ← receive s (Some ssss);
    let sign := extend amp (Some ssss) in
    Some (Next k, s, JS.set zigzagCoeff k (Some sign)).

(** The decoder that [parseHuffmanTable] builds from [bits] and the values,
    for the array decoder and for the tree. *)
Definition array_table (bits : list Z) (vals : list Z) : HuffDecoder :=
  default (ArrayDecoder newHuffArray)
    (loadTable (ArrayDecoder newHuffArray) (None :: map Some bits) vals).

Definition tree_table (bits : list Z) (vals : list Z) : HuffDecoder :=
  default (TreeDecoder (newHuffTree 0))
    (loadTable (TreeDecoder (newHuffTree 0)) (None :: map Some bits) vals).

(** An AC table with two codes of one bit: 0 for the symbol 0x50 (a run of
    five with no magnitude) and 1 for the symbol 0x01. *)
Definition ac_table_run5 : HuffDecoder :=
  array_table [2; 0; 0; 0; 0; 0; 0; 0; 0; 0; 0; 0; 0; 0; 0; 0] [80; 1].

(** The bits 0, 1, 1 and then zeros. *)
Definition run5_data : list Byte.byte := map mkByte [96; 0; 0; 0; 0; 0; 0; 0].

(** A position of the coefficient array is as it was, or holds a number
    that is not 0. *)
Definition kept_or_nonzero (zz zz' : list cell) : Prop :=
  forall i, JS.get zz' i = JS.get zz i
            \/ exists z, JS.get zz' i = Some z /\ z <> 0.

(** A position of a block holds a sample of the [-128 .. 127] that
    [clampIdct] leaves, or of the [0 .. 255] of a byte. *)
Definition centered (b : list cell) (i : Z) : Prop :=
  exists v, JS.get b i = Some v /\ -128 <= v <= 127.

Definition is_byte (b : list cell) (i : Z) : Prop :=
  exists v, JS.get b i = Some v /\ 0 <= v <= 255.

(** [b'] is [b] but for positions that hold a centered sample. *)
Definition same_or_centered (b b' : list cell) : Prop :=
  forall i, JS.get b' i = JS.get b i \/ centered b' i.

(** A sequence of assignments [blk[k] = clampIdct(x)]. *)
Definition set_clamped (b : list cell) (l : list (Z * Z)) : list cell :=
  fold_left (fun b kx => JS.set b kx.1 (Some (clampIdct kx.2))) l b.

(** A DC table whose one code, 0, is the length 11, and an AC table whose
    one code, 0, is EOB; the bits 0, eleven 1s, 0: a DC difference of 2047
    and an empty run of AC coefficients. *)
Definition dc_table_11 : HuffDecoder :=
  array_table [1; 0; 0; 0; 0; 0; 0; 0; 0; 0; 0; 0; 0; 0; 0; 0] [11].

Definition ac_table_eob : HuffDecoder :=
  array_table [1; 0; 0; 0; 0; 0; 0; 0; 0; 0; 0; 0; 0; 0; 0; 0] [0].

Definition big_dc_data : list Byte.byte := map mkByte [127; 240].

(** A DC table whose one code, 0, is the length 1, and an AC table with the
    codes 0 for the symbol 0x01 and 10 for EOB, both as trees; the bits
    01 01 01 01, then a restart marker, then 1 and 0. *)
Definition dc_table_1 : HuffDecoder :=
  tree_table [1; 0; 0; 0; 0; 0; 0; 0; 0; 0; 0; 0; 0; 0; 0; 0] [1].

Definition ac_table_one_eob : HuffDecoder :=
  tree_table [1; 1; 0; 0; 0; 0; 0; 0; 0; 0; 0; 0; 0; 0; 0; 0] [1; 0].


(** [img] with the predictor of component 1 at 0. *)
Definition img1 : Img := mkImg [None; Some 0] 0.

(** What the transforms need of [Math.cos]: the cosine of 0 is 1, and the
    cosine of a number is a number. *)
Definition cos_admissible (cos : float -> float) : Prop :=
  cos 0%float = 1%float
  /\ forall x, Num.finite x = true -> Num.finite (cos x) = true.

(** A zero of either sign. *)
Definition fzero (z : float) : Prop := exists b, Prim2SF z = S754_zero b.

(** A number that is not a zero. *)
Definition fnonzero (s : float) : Prop :=
  exists sg m e, Prim2SF s = S754_finite sg m e.

(** A block with the coefficient [c] at 0 and zeros elsewhere, and the sum
    of the naive transform for it at every sample. *)
Definition dc_only (c : Z) : list cell := Some c :: replicate 63 (Some 0).

Definition dc_sum (c : Z) : float :=
  (0 + INV_SQRT2 * INV_SQRT2 * Num.of_Z c * 1 * 1)%float.





(** A frame of one component, with the identifier 1, and the scan of it. *)
Definition frame1 : Image :=
  mkImage [Some dc_table_1] [Some ac_table_one_eob] [Some test_quantTable]
    0 [mkComponent 1 1 1 0] 1 1.





(** ** Huffman tables and their codewords *)

(** The Kraft sum of the counts [bits[1 .. 16]], the sum of
    [bits[i] * 2^(16 - i)], by Horner's rule. *)
Definition kraft (counts : list Z) : Z :=
  fold_left (fun m c => 2 * m + c) counts 0.

(** A table specification: sixteen counts, with no more codes than the
    lengths have room for, and a value for every code. *)
Definition valid_table (counts vals : list Z) : Prop :=
  length counts = 16%nat
  /\ Forall (fun c => 0 <= c) counts
  /\ kraft counts <= 2 ^ 16
  /\ length vals = Z.to_nat (foldr Z.add 0 counts).

(** Annex C: the codes of a table in the order of its values, each with its
    length. The codes of a length are consecutive; the first code of the
    next length is the one past the last, with a 0 appended. *)
Fixpoint canonical (counts : list Z) (a : nat) (code : Z) : list (nat * Z) :=
  match counts with
  | [] => []
  | c :: counts =>
      map (fun j => (a, code + Z.of_nat j)) (seq 0 (Z.to_nat c))
      ++ canonical counts (S a) (2 * (code + c))
  end.

(** The [n] bits of the code [c], the most significant first. *)
Fixpoint code_bits (n : nat) (c : Z) : list Z :=
  match n with
  | O => []
  | S n => Z.b2z (Z.testbit c (Z.of_nat n)) :: code_bits n c
  end.

Definition codewords (counts : list Z) : list (list Z) :=
  map (fun lc => code_bits lc.1 lc.2) (canonical counts 1 0).

(** The codewords of the values at the places [ks], one after another. *)
Definition encode (counts : list Z) (ks : list nat) : list Z :=
  concat (map (fun k => default [] (codewords counts !! k)) ks).

Section Streams.
Context {Src : Type} `{BitSource Src}.

  (** The source [s] gives the bits [bs] and is then [s']. *)
Fixpoint feeds (s : Src) (bs : list Z) (s' : Src) : Prop :=
    match bs with
    | [] => s = s'
    | b :: bs => exists s1, next_bit s = Some (b, s1) /\ feeds s1 bs s'
    end.

  (** [n] calls of [decodeHuffman], one after another. *)
Fixpoint decode_all (d : HuffDecoder) (n : nat) (s : Src)
    : option (list cell * Src) :=
    match n with
    | O => Some ([], s)
    | S n =>
        match decodeHuffman d s with
        | Some (v, s) =>
            match decode_all d n s with
            | Some (vs, s) => Some (v :: vs, s)
            | None => None
            end
        | None => None
        end
    end.

  (** [n] bits of the source, one after another. *)
Fixpoint read_bits (s : Src) (n : nat) : option (list Z * Src) :=
    match n with
    | O => Some ([], s)
    | S n =>
        match next_bit s with
        | Some (b, s) =>
            match read_bits s n with
            | Some (bs, s) => Some (b :: bs, s)
            | None => None
            end
        | None => None
        end
    end.

End Streams.

(** The table of [testHuffmanDecoder], its values, and the bytes the test
    decodes them from. *)
Definition test_counts : list Z := [0; 0; 7; 1; 1; 1; 1; 1; 0; 0; 0; 0; 0; 0; 0; 0].

Definition test_values : list Z := [4; 5; 3; 2; 6; 1; 0; 7; 8; 9; 10; 11].

Definition test_codes : list Byte.byte :=
  map mkByte [5; 57; 119; 123; 239; 223; 223].

(** *** The tree while the codes are inserted

    [Canon lvl n m t]: [t] is a node of the level [lvl]; of the [2^n]
    places [n] levels below it the first [m] are taken, each by a leaf at
    or above it, and no node is below the other places. *)
Inductive Canon : Z -> nat -> Z -> HuffTree -> Prop :=
| Canon_fresh lvl n :
    Canon lvl n 0 (HuffNode lvl None Undefined Undefined)
| Canon_leaf lvl n v :
    Canon lvl n (2 ^ Z.of_nat n) (HuffNode lvl (Some v) Undefined Undefined)
| Canon_node lvl n ml mr l r :
    Canon (lvl + 1) n ml l -> Canon (lvl + 1) n mr r ->
    0 < ml -> (0 < mr -> ml = 2 ^ Z.of_nat n) ->
    Canon lvl (S n) (ml + mr) (HuffNode lvl None l r).

(** The walk from [t] along the bits [p] goes through nodes without a value
    and ends on a node with the value [v]. *)
Fixpoint At (p : list Z) (t : HuffTree) (v : Z) : Prop :=
  match p with
  | [] => data t = Some v
  | b :: p => data t = None /\ At p (descendNode t b) v
  end.

(** The codes of every length fit into the bits of the length. *)
Fixpoint fits (counts : list Z) (a : nat) (code : Z) : Prop :=
  match counts with
  | [] => True
  | c :: counts =>
      0 <= c /\ code + c <= 2 ^ Z.of_nat a
      /\ fits counts (S a) (2 * (code + c))
  end.

(** [maxcode] from the length of the first count on. *)
Fixpoint maxcodes (counts : list Z) (code : Z) : list cell :=
  match counts with
  | [] => []
  | c :: counts =>
      Some (if c =? 0 then -1 else code + c - 1)
      :: maxcodes counts (2 * (code + c))
  end.

(** The counts that [bits] holds for the lengths [ls]. *)
Definition counts_of (bits : list cell) (ls : list Z) : list Z :=
  map (fun i => default 0 (JS.get bits i)) ls.

(** The lengths [a, a + 1, ...], [n] of them. *)
Definition lengths_from (a n : nat) : list Z := map Z.of_nat (seq a n).

(** * More of the code

    The methods and functions that the statements above did not need. *)

(** ** reader.js: the other methods of the reader *)

(** [currentIndex()] and [skip(length)] *)
Definition currentIndex (r : DataViewReader) : Z := index r.

Definition skip (r : DataViewReader) (length : Z) : DataViewReader :=
  set_index r (index r + length).

(** [consumeBits(numBits)]. When [numBits] is more than [buffSize] it calls
    [this.peek(numBits)], which hands [numBits] over as [img] and leaves
    the second parameter [undefined]: the loop of [peek] is then not
    entered ([buffSize < undefined] is false) and nothing is changed. *)
Definition consumeBits (r : DataViewReader) (numBits : Z) : DataViewReader :=
  set_buffSize r (buffSize r - numBits).

(** ** hufftable.js: HuffTable, the decoder with a lookup table *)

Module Table.

Definition TABLE_LENGTH : Z := 16.
Definition TABLE_ENTRIES : Z := JS.shl 1 TABLE_LENGTH.

  (** The fields that [initDecoder] sets: [bits], the [table] of values and
      code lengths (interleaved), the [counts] of the codes placed so far
      at each length, and [index], the next free place of the table. *)
Record HuffTable := mkHuffTable {
    bits : list cell;
    table : list cell;
    counts : list cell;
    index : Z
  }.

  (** [initDecoder(bits)] *)
Definition initDecoder (bits : list cell) : HuffTable :=
    mkHuffTable bits
      (replicate (Z.to_nat (TABLE_ENTRIES * 2)) None)
      (replicate (length bits) (Some 0))
      0.

  (** [tmp >= bits[codeLength]], false when either side is [undefined]. *)
Definition cge (a b : cell) : bool :=
    match a, b with
    | Some x, Some y => x >=? y
    | _, _ => false
    end.

  (** The loop of [insertCode]: [numValues] times the value and the code
      length go into the next two places. *)
Fixpoint fill (n : nat) (tbl : list cell) (idx value codeLength : Z)
    : list cell * Z :=
    match n with
    | O => (tbl, idx)
    | S n =>
        let tbl := JS.set tbl idx (Some value) in
        let tbl := JS.set tbl (idx + 1) (Some codeLength) in
        fill n tbl (idx + 2) value codeLength
    end.

  (** [insertCode(codeLength, value)] *)
Definition insertCode (t : HuffTable) (codeLength value : Z)
    : bool * HuffTable :=
    if codeLength >? TABLE_LENGTH then (false, t)
    else
      let tmp := JS.get (counts t) codeLength in
      if cge tmp (JS.get (bits t) codeLength) then (false, t)
      else
        let counts' := JS.set (counts t) codeLength (JS.cadd tmp (Some 1)) in
        let numValues := JS.shl 1 (TABLE_LENGTH - codeLength) in
        let '(tbl, idx) :=
          fill (Z.to_nat numValues) (table t) (index t) value codeLength in
        (true, mkHuffTable (bits t) tbl counts' idx).

  (** The reader after [consumeBits(shift)]: when [shift] is [undefined]
      (the table has nothing at the place looked up) [buffSize] becomes
      [NaN]; the other fields are those of [r]. *)
Inductive Consumed :=
  | Known (r : DataViewReader)
  | NaNSize (r : DataViewReader).

  (** [decodeHuffman(reader, img)] *)
Definition decodeHuffman (t : HuffTable) (r : DataViewReader) (img : Img)
    : option (cell * Consumed * Img) :=
    '(x, r, img) ← peek r img TABLE_LENGTH;
    let index := x * 2 in
    let val := JS.get (table t) index in
    let shift := JS.get (table t) (index + 1) in
    let r := match shift with
             | Some k => Known (consumeBits r k)
             | None => NaNSize r
             end in
    Some (val, r, img).

  (** The loops of [parseHuffmanTable] over the lengths and the values,
      which drive a decoder through [initDecoder] and [insertCode], with
      a [HuffTable] as the decoder. ([parseHuffmanTable] makes a [HuffTree]
      or a [HuffArray]; [HuffTable] has the same methods and is filled in
      the same way: [bits[i]] values for every length [i], the shorter
      codes first.) *)
Fixpoint insertCodes (t : HuffTable) (i : Z) (n : nat) (vals : list Z)
    : option (HuffTable * list Z) :=
    match n with
    | O => Some (t, vals)
    | S n =>
        match vals with
        | [] => None
        | v :: vals => insertCodes (insertCode t i v).2 i n vals
        end
    end.

Fixpoint insertLengths (t : HuffTable) (ls : list Z) (bits : list cell)
    (vals : list Z) : option (HuffTable * list Z) :=
    match ls with
    | [] => Some (t, vals)
    | i :: ls =>
        match insertCodes t i (count bits i) vals with
        | Some (t, vals) => insertLengths t ls bits vals
        | None => None
        end
    end.

Definition loadTable (bits : list cell) (vals : list Z) : option HuffTable :=
    '(t, _) ← insertLengths (initDecoder bits) lengths bits vals;
    Some t.

End Table.

(** ** Definitions for the statements *)

(** Annex F.1.2.1: the category [t] of a difference [d] is the number of bits
    of its magnitude, and after the code of the category an encoder writes
    the [t] low bits of [d] when [d] is positive, of [d - 1] when it is
    negative. *)
Definition in_category (d : Z) (t : nat) : Prop :=
  match t with
  | O => d = 0
  | S n => 2 ^ Z.of_nat n <= Z.abs d < 2 ^ Z.of_nat t
  end.

Definition diff_bits (t : nat) (d : Z) : list Z :=
  code_bits t (if 0 <? d then d else d - 1).

(** Annex F.1.2.2: the AC coefficients of a block, in zig-zag order, as an
    encoder writes them. A coefficient that is not 0 gives the symbol
    [16 * run + size], after one ZRL (0xF0) for every sixteen zeros of the
    run before it, and then its [size] bits; zeros at the end of the
    block give one EOB (0x00). The list is of the symbols, each with the
    bits that follow its code; [run] counts the zeros met so far. *)
Definition csize (z : Z) : nat := Z.to_nat (Z.log2 (Z.abs z) + 1).

Fixpoint ac_symbols (zs : list Z) (run : nat) : list (Z * list Z) :=
  match zs with
  | [] => match run with O => [] | S _ => [(0, [])] end
  | z :: zs =>
      if z =? 0 then ac_symbols zs (S run)
      else
        replicate (run / 16) (240, [])
        ++ (16 * Z.of_nat (run mod 16) + Z.of_nat (csize z),
            diff_bits (csize z) z)
           :: ac_symbols zs 0
  end.

(** The bits of the symbols, with [code rs] the codeword of the symbol
    [rs]. *)
Definition ac_bits (code : Z -> list Z) (syms : list (Z * list Z)) : list Z :=
  concat (map (fun sb => code sb.1 ++ sb.2) syms).

(** The codeword of a symbol in a table that has it at the place
    [ix rs]. *)
Definition code_at (counts : list Z) (ix : Z -> nat) (rs : Z) : list Z :=
  default [] (codewords counts !! ix rs).

(** The coefficients [zs] stored from the position [p] on, the zeros left
    as they are. *)
Fixpoint ac_placed (zz : list cell) (p : Z) (zs : list Z) : list cell :=
  match zs with
  | [] => zz
  | z :: zs =>
      ac_placed (if z =? 0 then zz else JS.set zz p (Some z)) (p + 1) zs
  end.

(** A symbol whose code the decoder decodes, wherever it stands in the
    data. *)
Definition decoded (acTable : HuffDecoder) (code : Z -> list Z)
  (sb : Z * list Z) : Prop :=
  forall s s1 : Source,
    feeds s (code sb.1) s1 -> decodeHuffman acTable s = Some (Some sb.1, s1).

(** ** jsjpeg.js: the table segments *)

(** The value of the radio button [huffmanType] of index.html, and the
    decoder that [parseHuffmanTable] makes for it. *)
Inductive HuffmanType := type_tree | type_array.

Definition newDecoder (decoderType : HuffmanType) : HuffDecoder :=
  match decoderType with
  | type_tree => TreeDecoder (newHuffTree 0)
  | type_array => ArrayDecoder newHuffArray
  end.

(** [img.huffmanTables]: the decoders for DC and those for AC, by
    destination. *)
Definition HuffmanTables : Type :=
  (list (option HuffDecoder) * list (option HuffDecoder))%type.

(** [for (let i = 1; i <= NUM_HUFFMAN_LENGTHS; i++) bits[i] = reader.nextByte()] *)
Fixpoint read_counts (ls : list Z) (bits : list cell) (r : DataViewReader)
  : option (list cell * DataViewReader) :=
  match ls with
  | [] => Some (bits, r)
  | i :: ls =>
      '(b, r) ← nextByte r;
      read_counts ls (JS.set bits i (Some b)) r
  end.

(** [for (let j = 0; j < bits[i]; j++)]: a value is read and inserted. *)
Fixpoint read_codes (d : HuffDecoder) (i : Z) (n : nat) (numCodes : Z)
  (r : DataViewReader) : option (HuffDecoder * Z * DataViewReader) :=
  match n with
  | O => Some (d, numCodes, r)
  | S n =>
      '(code, r) ← nextByte r;
      '(_, d) ← insertCode d i code;
      read_codes d i n (numCodes + 1) r
  end.

Fixpoint read_lengths (d : HuffDecoder) (ls : list Z) (bits : list cell)
  (numCodes : Z) (r : DataViewReader)
  : option (HuffDecoder * Z * DataViewReader) :=
  match ls with
  | [] => Some (d, numCodes, r)
  | i :: ls =>
      '(d, numCodes, r) ← read_codes d i (count bits i) numCodes r;
      read_lengths d ls bits numCodes r
  end.

(** [img.huffmanTables[tableClass][destID] = huffDecoder]: there are the
    classes 0 and 1; for another one [img.huffmanTables[tableClass]] is
    [undefined] and the assignment throws. *)
Definition set_table (tables : HuffmanTables) (tableClass destID : Z)
  (d : HuffDecoder) : option HuffmanTables :=
  if tableClass =? 0 then Some (JS.set tables.1 destID (Some d), tables.2)
  else if tableClass =? 1 then Some (tables.1, JS.set tables.2 destID (Some d))
  else None.

(** One round of [while (length > 0)] in [parseHuffmanTable]: the reader
    and the tables after it, and [tableLength]. *)
Definition parse_huffman_table (decoderType : HuffmanType)
  (r : DataViewReader) (tables : HuffmanTables)
  : option (DataViewReader * HuffmanTables * Z) :=
  '(tmp, r) ← nextByte r;
  let tableClass := getHighNibble (Some tmp) in
  let destID := getLowNibble (Some tmp) in
  '(bits, r) ← read_counts lengths [] r;
  huffDecoder ← initDecoder (newDecoder decoderType) bits;
  '(huffDecoder, numCodes, r) ← read_lengths huffDecoder lengths bits 0 r;
  let tableLength := NUM_HUFFMAN_LENGTHS + numCodes + 1 in
  tables ← set_table tables tableClass destID huffDecoder;
  Some (r, tables, tableLength).

(** Every round takes at least 17 from [length], so [length] rounds are
    all the loop can make. *)
Fixpoint parse_huffman_tables (fuel : nat) (decoderType : HuffmanType)
  (length : Z) (r : DataViewReader) (tables : HuffmanTables)
  : option (DataViewReader * HuffmanTables) :=
  if length >? 0 then
    match fuel with
    | O => None
    | S fuel =>
        '(r, tables, tableLength) ← parse_huffman_table decoderType r tables;
        parse_huffman_tables fuel decoderType (length - tableLength) r tables
    end
  else Some (r, tables).

(** [parseHuffmanTable(marker, reader, img)]; [img.huffmanTables] is
    [undefined] before the first segment. *)
Definition parseHuffmanTable (decoderType : HuffmanType) (r : DataViewReader)
  (huffmanTables : option HuffmanTables)
  : option (DataViewReader * HuffmanTables) :=
  '(length, r) ← nextWord r;
  let tables := default ([], []) huffmanTables in
  parse_huffman_tables (Z.to_nat length) decoderType (length - 2) r tables.

(** *** Definitions for the statements *)

Definition byte_value (b : Byte.byte) : Z := Z.of_N (Byte.to_N b).

(** The bytes after the place of the reader begin with [bs]. *)
Definition next_are (r : DataViewReader) (bs : list Byte.byte) : Prop :=
  -1 <= index r
  /\ exists suf, drop (Z.to_nat (index r + 1)) (view r) = bs ++ suf.

(** A table of a DHT segment: the byte of its class and destination, the
    sixteen counts, and the values, as many as the counts add up to. *)
Definition TableBytes : Type :=
  (Byte.byte * list Byte.byte * list Byte.byte)%type.

Definition table_bytes (tb : TableBytes) : list Byte.byte :=
  tb.1.1 :: tb.1.2 ++ tb.2.

Definition table_ok (tb : TableBytes) : Prop :=
  length tb.1.2 = 16%nat
  /\ length tb.2 = sum_list (map (fun b => Z.to_nat (byte_value b)) tb.1.2).

(** The decoder of a table, loaded from its counts and values, put where
    the first byte says. *)
Definition store_table (decoderType : HuffmanType) (tables : HuffmanTables)
  (tb : TableBytes) : option HuffmanTables :=
  d ← loadTable (newDecoder decoderType)
        (None :: map (fun b => Some (byte_value b)) tb.1.2)
        (map byte_value tb.2);
  set_table tables (byte_value tb.1.1 / 16) (byte_value tb.1.1 mod 16) d.

Fixpoint store_tables (decoderType : HuffmanType) (tables : HuffmanTables)
  (tbs : list TableBytes) : option HuffmanTables :=
  match tbs with
  | [] => Some tables
  | tb :: tbs =>
      tables ← store_table decoderType tables tb;
      store_tables decoderType tables tbs
  end.

(** [parseQuantizationTable]: [new Array(QUANT_TABLE_SIZE)] is filled from
    the reader, with bytes when the precision is 0 and with words
    otherwise. [idxs] are the indices that are left. *)
Definition QUANT_TABLE_SIZE : Z := 64.

Fixpoint read_entries (idxs : list Z) (precision : Z) (table : list cell)
  (r : DataViewReader) : option (list cell * DataViewReader) :=
  match idxs with
  | [] => Some (table, r)
  | i :: idxs =>
      '(v, r) ← (if precision =? 0 then nextByte r else nextWord r);
      read_entries idxs precision (JS.set table i (Some v)) r
  end.

(** One round of [while (length > 0)]: the reader and [quantTables] after
    it, and [tableLength]. *)
Definition parse_quant_table (r : DataViewReader)
  (quantTables : list (option (list cell)))
  : option (DataViewReader * list (option (list cell)) * Z) :=
  '(tmp, r) ← nextByte r;
  let precision := getHighNibble (Some tmp) in
  let destID := getLowNibble (Some tmp) in
  let tableLength := QUANT_TABLE_SIZE * (if precision =? 0 then 1 else 2) in
  let table := replicate (Z.to_nat QUANT_TABLE_SIZE) None in
  '(table, r) ← read_entries (upto QUANT_TABLE_SIZE) precision table r;
  Some (r, JS.set quantTables destID (Some table), tableLength).

(** Every round takes at least 65 from [length]. *)
Fixpoint parse_quant_tables (fuel : nat) (length : Z) (r : DataViewReader)
  (quantTables : list (option (list cell)))
  : option (DataViewReader * list (option (list cell))) :=
  if length >? 0 then
    match fuel with
    | O => None
    | S fuel =>
        '(r, quantTables, tableLength) ← parse_quant_table r quantTables;
        parse_quant_tables fuel (length - tableLength - 1) r quantTables
    end
  else Some (r, quantTables).

(** [parseQuantizationTable(marker, reader, img)], with the global
    [quantTables]; the result is also [img.quantTables]. *)
Definition parseQuantizationTable (r : DataViewReader)
  (quantTables : list (option (list cell)))
  : option (DataViewReader * list (option (list cell))) :=
  '(length, r) ← nextWord r;
  parse_quant_tables (Z.to_nat length) (length - 2) r quantTables.

(** *** Definitions for the statements *)

(** Bytes taken two by two as numbers of 16 bits, the high byte first. *)
Fixpoint words (bs : list Byte.byte) : list Z :=
  match bs with
  | hi :: lo :: bs => (byte_value hi * 256 + byte_value lo) :: words bs
  | _ => []
  end.

(** A table of a DQT segment: the byte of its precision and destination and
    the bytes of its 64 entries, one each when the precision is 0 and two
    each otherwise. *)
Definition QuantBytes : Type := (Byte.byte * list Byte.byte)%type.

Definition quant_bytes (qb : QuantBytes) : list Byte.byte := qb.1 :: qb.2.

Definition quant_ok (qb : QuantBytes) : Prop :=
  length qb.2 = if byte_value qb.1 / 16 =? 0 then 64%nat else 128%nat.

Definition quant_entries (qb : QuantBytes) : list cell :=
  map Some (if byte_value qb.1 / 16 =? 0 then map byte_value qb.2
            else words qb.2).

Definition store_quant (quantTables : list (option (list cell)))
  (qb : QuantBytes) : list (option (list cell)) :=
  JS.set quantTables (byte_value qb.1 mod 16) (Some (quant_entries qb)).

(** ** Definitions for the statement on the order of the data units *)




(** ** jsjpeg.js: the colour conversion *)

(** What [Math.round] returns: an integer, or what it was given when that
    was an infinity or [NaN]. *)
Inductive Rounded :=
| Int (z : Z)
| PosInf
| NegInf
| NaN.

#[export] Instance Rounded_eq_dec : EqDecision Rounded.
Proof. solve_decision. Defined.






(** ** jsjpeg.js: a block goes into the image of its component *)

(** The copy loop of [decodeMCU]: the data unit [(x, y)] of the MCU
    [(hMCU, vMCU)] of a component with [h] by [v] data units in an MCU and
    lines of [hSize] samples is written into [imgBuff]. ([hSize] is a
    number without a fraction, the result of [Math.ceil].) *)
Definition copy_block (imgBuff : list cell) (hSize vMCU hMCU v h y x : Z)
  (block : list cell) : list cell :=
  let mcuY := vMCU * v * DATA_UNIT_SIZE * hSize in
  let mcuX := mcuY + (hMCU * h * DATA_UNIT_SIZE) in
  let topX := x * DATA_UNIT_SIZE in
  let topY := y * DATA_UNIT_SIZE * hSize in
  for_each idx8 (fun imgBuff yy =>
    let blockLineStart := mcuX + topY + topX + (yy * hSize) in
    for_each idx8 (fun imgBuff xx =>
      let idx := blockLineStart + xx in
      JS.set imgBuff idx (JS.get block (yy * DATA_UNIT_SIZE + xx))) imgBuff)
    imgBuff.

(** ** jsjpeg.js: the header of a scan *)

(** What [parseStartOfSequence] returns. *)
Record Scan := mkScan {
  scan_numComponents : Z;
  scan_components : list Selector;
  ss : Z;
  se : Z;
  ah : Z;
  al : Z
}.

(** [for (let i = 0; i < numComponents; i++)]: [components[i]] is the
    selector read in round [i]. *)
Fixpoint read_selectors (n : nat) (components : list Selector)
  (r : DataViewReader) : option (list Selector * DataViewReader) :=
  match n with
  | O => Some (components, r)
  | S n =>
      '(c0, r) ← nextByte r;
      '(tmp, r) ← nextByte r;
      let component :=
        mkSelector c0 (getHighNibble (Some tmp)) (getLowNibble (Some tmp)) in
      read_selectors n (components ++ [component]) r
  end.

(** [parseStartOfSequence(marker, reader, img)]; the length that it reads
    first is only logged. *)
Definition parseStartOfSequence (r : DataViewReader)
  : option (Scan * DataViewReader) :=
  '(length, r) ← nextWord r;
  '(numComponents, r) ← nextByte r;
  '(components, r) ← read_selectors (Z.to_nat numComponents) [] r;
  '(ss, r) ← nextByte r;
  '(se, r) ← nextByte r;
  '(tmp, r) ← nextByte r;
  let ah := getHighNibble (Some tmp) in
  let al := getLowNibble (Some tmp) in
  Some (mkScan numComponents components ss se ah al, r).

(** *** Definitions for the statement *)

(** A component of a scan header: its selector, and the byte of its two
    tables. *)
Definition selector_bytes (sb : Byte.byte * Byte.byte) : list Byte.byte :=
  [sb.1; sb.2].

Definition selector_of (sb : Byte.byte * Byte.byte) : Selector :=
  mkSelector (byte_value sb.1) (byte_value sb.2 / 16) (byte_value sb.2 mod 16).

(** ** jsjpeg.js: the application segments *)

(** [n] bytes are read one by one (their characters are only logged). *)
Fixpoint read_chars (n : nat) (str : list Z) (r : DataViewReader)
  : option (list Z * DataViewReader) :=
  match n with
  | O => Some (str, r)
  | S n => '(b, r) ← nextByte r; read_chars n (str ++ [b]) r
  end.

(** The characters of ["JFIF\0"]. *)
Definition JFIF : list Z := [74; 70; 73; 70; 0].

(** [parseAppSegment(marker, reader)]; [isAPP0] is [marker === "APP0"]. The
    number it returns is the index of the last byte of the segment. *)
Definition parseAppSegment (isAPP0 : bool) (r : DataViewReader)
  : option (Z * DataViewReader) :=
  '(length, r) ← nextWord r;
  let tmp := currentIndex r in
  r ← (if isAPP0 then
         if length >=? 16 then
           '(str, r) ← read_chars 5 [] r;
           if bool_decide (str = JFIF) then
             '(major, r) ← nextByte r;
             '(minor, r) ← nextByte r;
             '(units, r) ← nextByte r;
             '(xdens, r) ← nextWord r;
             '(ydens, r) ← nextWord r;
             '(xthumb, r) ← nextByte r;
             '(ythumb, r) ← nextByte r;
             let thumbsize := xthumb * ythumb * 3 in
             Some (skip r thumbsize)
           else Some r
         else Some r
       else
         '(_, r) ← read_chars (Z.to_nat (length - 2)) [] r; Some r);
  Some (tmp + length - 2, r).

(** An APP0 segment of 16 bytes that is not a JFIF header (it begins with
    JFXX and a 0), and the byte that follows it. *)
Definition jfxx_body : list Byte.byte :=
  map mkByte [74; 70; 88; 88; 0; 16; 1; 2; 3; 4; 5; 6; 7; 8].

Definition jfxx_reader : DataViewReader :=
  newReader (mkByte 0 :: mkByte 16 :: jfxx_body ++ [mkByte 255]).

(** * Properties *)

(** ** The repository's own test vectors *)

Example nextBits_ex :
  nextBits 16 (newReader (map mkByte [255; 0; 171])) img0
  = Some (bits8 255 ++ bits8 171,
          mkReader (map mkByte [255; 0; 171]) 2 0 0 0 0, img0).
Proof. vm_compute. reflexivity. Qed.

Example peek_ex :
  peek (newReader (map mkByte [255; 0; 171])) img0 16
  = Some (255 * 256 + 171,
          mkReader (map mkByte [255; 0; 171]) 2 0 0 65451 16, img0).
Proof. vm_compute. reflexivity. Qed.

(** ** 32-bit arithmetic *)

Lemma toInt32_id x : - 2 ^ 31 <= x < 2 ^ 31 -> JS.toInt32 x = x.
Proof.
  intros Hx. unfold JS.toInt32. rewrite Z.mod_small; lia.
Qed.

Lemma toInt32_range x : - 2 ^ 31 <= JS.toInt32 x < 2 ^ 31.
Proof.
  unfold JS.toInt32.
  pose proof (Z.mod_pos_bound (x + 2 ^ 31) (2 ^ 32) ltac:(lia)). lia.
Qed.

Lemma toInt32_idem x : JS.toInt32 (JS.toInt32 x) = JS.toInt32 x.
Proof. apply toInt32_id, toInt32_range. Qed.

(** The low 32 bits of a number are those of its ToInt32. *)
Lemma toInt32_testbit x j :
  0 <= j < 32 -> Z.testbit (JS.toInt32 x) j = Z.testbit x j.
Proof.
  intros Hj. unfold JS.toInt32.
  rewrite (Z.mod_eq (x + 2 ^ 31) (2 ^ 32)) by lia.
  replace (x + 2 ^ 31 - 2 ^ 32 * ((x + 2 ^ 31) / 2 ^ 32) - 2 ^ 31)
    with (x + (- ((x + 2 ^ 31) / 2 ^ 32)) * 2 ^ 32) by lia.
  rewrite <- (Z.mod_pow2_bits_low _ 32 j) by lia.
  rewrite Z.mod_add by lia.
  apply Z.mod_pow2_bits_low. lia.
Qed.

Lemma shl_small a k :
  0 <= k < 32 -> - 2 ^ 31 <= a * 2 ^ k < 2 ^ 31 -> JS.shl a k = a * 2 ^ k.
Proof.
  intros Hk Ha. unfold JS.shl.
  assert (- 2 ^ 31 <= a < 2 ^ 31).
  { pose proof (Z.pow_pos_nonneg 2 k ltac:(lia) ltac:(lia)).
    change (2 ^ 31) with 2147483648 in *.
    set (p := 2 ^ k) in *. clearbody p.
    destruct (Z_le_gt_dec 0 a).
    - assert (a <= a * p) by nia. lia.
    - assert (a * p <= a) by nia. lia. }
  rewrite (toInt32_id a) by lia.
  rewrite Z.mod_small by lia.
  rewrite Z.shiftl_mul_pow2 by lia.
  apply toInt32_id; lia.
Qed.

(** [-1 << t] *)
Lemma shl_minus_one t : 0 <= t < 32 -> JS.shl (-1) t = - 2 ^ t.
Proof.
  intros Ht. rewrite shl_small; [lia | lia |].
  pose proof (Z.pow_le_mono_r 2 t 31 ltac:(lia) ltac:(lia)).
  pose proof (Z.pow_pos_nonneg 2 t ltac:(lia) ltac:(lia)). lia.
Qed.

(** [x & 15] is a nibble, and [x >> 4] of a byte is one. *)
Lemma and15_range x : 0 <= JS.and x 15 <= 15.
Proof.
  unfold JS.and. rewrite (toInt32_id 15) by lia.
  assert (Z.land (JS.toInt32 x) 15 = JS.toInt32 x mod 2 ^ 4) as ->
    by (change 15 with (Z.ones 4); apply Z.land_ones; lia).
  pose proof (Z.mod_pos_bound (JS.toInt32 x) (2 ^ 4) ltac:(lia)).
  rewrite toInt32_id; lia.
Qed.

Lemma sar_byte b k : 0 <= b < 256 -> 0 <= k < 32 -> JS.sar b k = b / 2 ^ k.
Proof.
  intros Hb Hk. unfold JS.sar. rewrite toInt32_id by lia.
  rewrite Z.mod_small by lia. apply Z.shiftr_div_pow2. lia.
Qed.

(** ** EXTEND *)

Lemma extend_pos v t :
  1 <= t < 32 ->
  extend v (Some t) = if v <? 2 ^ (t - 1) then v - 2 ^ t + 1 else v.
Proof.
  intros Ht. unfold extend.
  destruct (Z.eqb_spec t 0); [lia |].
  destruct (Z.ltb_spec t 1); [lia |].
  rewrite shl_minus_one by lia.
  destruct (v <? 2 ^ (t - 1)); lia.
Qed.

(** C4: for a length [t] from 0 to 11 and [t] raw bits [v], [extend] gives
    0 when [t] is 0, [v + (-1 << t) + 1] when [v] is below [2^(t-1)], and
    [v] otherwise; [-1 << t] is [-2^t]; and the four values of the table of
    Annex F quoted by the specification. *)
Theorem extend_table (v t : Z) :
  0 <= t <= 11 -> 0 <= v < 2 ^ t ->
  extend v (Some t)
  = (if t =? 0 then 0
     else if v <? 2 ^ (t - 1) then v + JS.shl (-1) t + 1 else v)
  /\ JS.shl (-1) t = - 2 ^ t
  /\ extend 0 (Some 1) = -1
  /\ extend 1 (Some 1) = 1
  /\ extend 5 (Some 5) = -26
  /\ extend 2047 (Some 11) = 2047.
Proof.
  intros Ht Hv. split; [| split; [apply shl_minus_one; lia | by vm_compute]].
  destruct (Z.eqb_spec t 0) as [-> | Hne]; [reflexivity |].
  rewrite extend_pos by lia. rewrite shl_minus_one by lia.
  destruct (v <? 2 ^ (t - 1)); lia.
Qed.

Lemma extend_table_witness :
  extend 5 (Some 5)
  = (if 5 =? 0 then 0
     else if 5 <? 2 ^ (5 - 1) then 5 + JS.shl (-1) 5 + 1 else 5)
  /\ JS.shl (-1) 5 = - 2 ^ 5
  /\ extend 0 (Some 1) = -1
  /\ extend 1 (Some 1) = 1
  /\ extend 5 (Some 5) = -26
  /\ extend 2047 (Some 11) = 2047.
Proof. apply (extend_table 5 5); lia. Defined.

(** The magnitude of an extended value of [t >= 1] bits has exactly [t]
    bits. *)
Lemma extend_magnitude v t :
  1 <= t <= 16 -> 0 <= v < 2 ^ t ->
  extend v (Some t) <> 0
  /\ 2 ^ (t - 1) <= Z.abs (extend v (Some t)) <= 2 ^ t - 1.
Proof.
  intros Ht Hv. rewrite extend_pos by lia.
  assert (2 ^ t = 2 * 2 ^ (t - 1)) as Hpow.
  { rewrite <- Z.pow_succ_r by lia. f_equal. lia. }
  pose proof (Z.pow_pos_nonneg 2 (t - 1) ltac:(lia) ltac:(lia)).
  destruct (Z.ltb_spec v (2 ^ (t - 1))); lia.
Qed.

(** ** The bit reader *)

Lemma getUint8_range v i b : getUint8 v i = Some b -> 0 <= b < 256.
Proof.
  unfold getUint8. destruct (i <? 0); [done |].
  destruct (v !! Z.to_nat i) as [x |]; [| done].
  intros [= <-]. pose proof (Byte.to_N_bounded x). lia.
Qed.

Lemma nextByte_spec r b r' :
  nextByte r = Some (b, r') ->
  getUint8 (view r) (index r + 1) = Some b /\ r' = set_index r (index r + 1).
Proof.
  unfold nextByte. cbn.
  destruct (getUint8 (view r) (index r + 1)); [| done].
  by intros [= <- <-].
Qed.

Lemma and255_range x : 0 <= JS.and x 255 < 256.
Proof.
  unfold JS.and. rewrite (toInt32_id 255) by lia.
  assert (Z.land (JS.toInt32 x) 255 = JS.toInt32 x mod 2 ^ 8) as ->
    by (change 255 with (Z.ones 8); apply Z.land_ones; lia).
  pose proof (Z.mod_pos_bound (JS.toInt32 x) (2 ^ 8) ltac:(lia)).
  rewrite toInt32_id; lia.
Qed.

Lemma nextBit_load_byte_ok r img r' img' :
  byte_ok r -> nextBit_load r img = Some (r', img') -> byte_ok r'.
Proof.
  unfold nextBit_load, byte_ok. intros Hok.
  destruct (cnt r =? 0); [| by intros [= <- <-]].
  destruct (nextByte r) as [[b r1] |] eqn:Hb; [| done]. cbn.
  apply nextByte_spec in Hb as [Hb ->]. apply getUint8_range in Hb.
  destruct (b =? 255); [| by intros [= <- <-]].
  match goal with |- context [nextByte ?x] => destruct (nextByte x) as [[b2 r2] |] eqn:Hb2 end;
    [| done]. cbn.
  apply nextByte_spec in Hb2 as [Hb2 ->].
  destruct (b2 =? 0); cbn; [by intros [= <- <-] |].
  destruct (b2 =? 220).
  - unfold parseDNL, nextWord. cbn.
    repeat (match goal with |- context [getUint16 ?v ?i] => destruct (getUint16 v i) end;
            cbn; [| done]).
    by intros [= <- <-].
  - destruct ((208 <=? b2) && (b2 <=? 215)); [| by intros [= <- <-]].
    match goal with |- context [nextByte ?x] => destruct (nextByte x) as [[b3 r3] |] eqn:Hb3 end;
      [| done]. cbn.
    apply nextByte_spec in Hb3 as [Hb3 ->]. apply getUint8_range in Hb3.
    by intros [= <- <-].
Qed.

(** A bit is 0 or 1. *)
Lemma nextBit_bit r img b r' img' :
  byte_ok r -> nextBit r img = Some (b, r', img') ->
  (b = 0 \/ b = 1) /\ byte_ok r'.
Proof.
  intros Hok. unfold nextBit.
  destruct (nextBit_load r img) as [[r1 img1] |] eqn:Hload; [| done]. cbn.
  apply nextBit_load_byte_ok in Hload; [| done]. unfold byte_ok in Hload.
  intros [= <- <- <-]. split.
  - rewrite sar_byte by lia. change (2 ^ 7) with 128.
    assert (byte r1 / 128 < 2) by (apply Z.div_lt_upper_bound; lia).
    assert (0 <= byte r1 / 128) by (apply Z.div_pos; lia). lia.
  - unfold byte_ok. cbn. apply and255_range.
Qed.

Lemma reg_bits_S n b :
  reg_bits (Datatypes.S n) b = JS.sar b 7 :: reg_bits n (JS.and (JS.shl b 1) 255).
Proof. reflexivity. Qed.

Lemma reg_rest_S n b :
  reg_rest (Datatypes.S n) b = reg_rest n (JS.and (JS.shl b 1) 255).
Proof. reflexivity. Qed.


Lemma nextBit_buffered r img :
  cnt r <> 0 ->
  nextBit r img
  = Some (JS.sar (byte r) 7,
          mkReader (view r) (index r) (JS.and (JS.shl (byte r) 1) 255)
            (cnt r - 1) (buffer r) (buffSize r), img).
Proof.
  intros Hc. unfold nextBit, nextBit_load.
  destruct (Z.eqb_spec (cnt r) 0); [done | reflexivity].
Qed.

Lemma nextBits_buffered n : forall v i b c bf bs img,
  0 <= c ->
  nextBits n (mkReader v i b (Z.of_nat n + c) bf bs) img
  = Some (reg_bits n b, mkReader v i (reg_rest n b) c bf bs, img).
Proof.
  induction n as [| n IH]; intros v i b c bf bs img Hc.
  - reflexivity.
  - rewrite reg_bits_S, reg_rest_S. cbn [nextBits].
    rewrite nextBit_buffered by (cbn [cnt]; lia).
    cbn [view index byte cnt buffer buffSize].
    replace (Z.of_nat (Datatypes.S n) + c - 1) with (Z.of_nat n + c) by lia.
    by rewrite IH.
Qed.

(** The bits after the first part of [nextBit] has put a byte in the
    register. *)
Lemma nextBits_loaded r img v i b bf bs img' :
  nextBit_load r img = Some (mkReader v i b 8 bf bs, img') ->
  nextBits 8 r img
  = Some (reg_bits 8 b, mkReader v i (reg_rest 8 b) 0 bf bs, img').
Proof.
  intros Hload.
  change (nextBits 8 r img) with
    (match nextBit r img with
     | Some (b, r, img) =>
         match nextBits 7 r img with
         | Some (bs, r, img) => Some (b :: bs, r, img)
         | None => None
         end
     | None => None
     end).
  unfold nextBit. rewrite Hload.
  cbn [mbind option_bind]. unfold set_byte, set_cnt.
  cbn [byte cnt view index buffer buffSize].
  change (8 - 1) with (Z.of_nat 7 + 0).
  rewrite nextBits_buffered by lia.
  by rewrite (reg_bits_S 7 b), (reg_rest_S 7 b).
Qed.




Lemma getUint8_lookup (v : list Byte.byte) n x :
  v !! n = Some x -> getUint8 v (Z.of_nat n) = Some (Z.of_N (Byte.to_N x)).
Proof.
  intros Hx. unfold getUint8.
  destruct (Z.ltb_spec (Z.of_nat n) 0); [lia |].
  by rewrite Nat2Z.id, Hx.
Qed.


Lemma byte_not_ff (x : Byte.byte) :
  x <> Byte.xff -> (Z.of_N (Byte.to_N x) =? 255) = false.
Proof.
  intros Hne. destruct (Z.eqb_spec (Z.of_N (Byte.to_N x)) 255) as [He |]; [| done].
  exfalso. apply Hne. apply (inj Some). rewrite <- !Byte.of_to_N.
  f_equal. change (Byte.to_N Byte.xff) with 255%N. lia.
Qed.

(** The rounds of the loop of [peek]. *)
Lemma peek_loop_done fuel n r img :
  n <= buffSize r -> peek_loop fuel n r img = Some (r, img).
Proof.
  intros Hn. destruct fuel; cbn [peek_loop];
    by destruct (Z.ltb_spec (buffSize r) n); [lia |].
Qed.

Lemma peek_loop_pad fuel n r img :
  buffSize r < n -> hasMoreBytes r = false ->
  peek_loop (Datatypes.S fuel) n r img
  = peek_loop fuel n
      (mkReader (view r) (index r) (byte r) (cnt r)
         (JS.or (JS.shl (buffer r) 8) 255) (buffSize r + 8)) img.
Proof.
  intros Hn Hmore. cbn [peek_loop].
  destruct (Z.ltb_spec (buffSize r) n); [| lia]. by rewrite Hmore.
Qed.







(** ** Reading past the end of the buffer *)

Lemma or_testbit a b j :
  0 <= j < 32 -> Z.testbit (JS.or a b) j = Z.testbit a j || Z.testbit b j.
Proof.
  intros Hj. unfold JS.or.
  by rewrite toInt32_testbit, Z.lor_spec, !toInt32_testbit.
Qed.

Lemma and_testbit a b j :
  0 <= j < 32 -> Z.testbit (JS.and a b) j = Z.testbit a j && Z.testbit b j.
Proof.
  intros Hj. unfold JS.and.
  by rewrite toInt32_testbit, Z.land_spec, !toInt32_testbit.
Qed.

Lemma shl_testbit a k j :
  0 <= k < 32 -> k <= j < 32 -> Z.testbit (JS.shl a k) j = Z.testbit a (j - k).
Proof.
  intros Hk Hj. unfold JS.shl.
  rewrite toInt32_testbit by lia. rewrite Z.mod_small by lia.
  rewrite Z.shiftl_spec by lia. apply toInt32_testbit. lia.
Qed.

Lemma sar_testbit a k j :
  0 <= k < 32 -> 0 <= j -> j + k < 32 ->
  Z.testbit (JS.sar a k) j = Z.testbit a (j + k).
Proof.
  intros Hk Hj Hjk. unfold JS.sar. rewrite Z.mod_small by lia.
  rewrite Z.shiftr_spec by lia. apply toInt32_testbit. lia.
Qed.

Lemma ones_below_pad m b :
  0 <= m -> ones_below m b -> ones_below (m + 8) (JS.or (JS.shl b 8) 255).
Proof.
  intros Hm Hb j Hj Hj32. rewrite or_testbit by lia.
  destruct (Z.lt_ge_cases j 8).
  - change 255 with (Z.ones 8). rewrite (Z.ones_spec_low 8 j) by lia.
    apply orb_true_r.
  - rewrite shl_testbit by lia. rewrite Hb by lia. reflexivity.
Qed.

(** With no byte left the loop of [peek] pads the register with 1s. *)
Lemma peek_loop_exhausted n img : forall fuel r m,
  hasMoreBytes r = false -> 0 <= m -> ones_below m (buffer r) ->
  n - buffSize r <= Z.of_nat fuel ->
  exists buf bs,
    peek_loop fuel n r img
    = Some (mkReader (view r) (index r) (byte r) (cnt r) buf bs, img)
    /\ n <= bs
    /\ (buffSize r < n -> bs < n + 8)
    /\ buffSize r <= bs
    /\ ones_below (m + (bs - buffSize r)) buf.
Proof.
  induction fuel as [| fuel IH]; intros r m Hmore Hm Hones Hfuel.
  - exists (buffer r), (buffSize r). rewrite peek_loop_done by lia.
    destruct r; cbn in *. repeat split; try lia.
    by replace (m + (buffSize0 - buffSize0)) with m by lia.
  - destruct (Z.lt_ge_cases (buffSize r) n) as [Hlt | Hge].
    + rewrite peek_loop_pad by done.
      destruct (IH (mkReader (view r) (index r) (byte r) (cnt r)
                      (JS.or (JS.shl (buffer r) 8) 255) (buffSize r + 8))
                  (m + 8))
        as (buf & bs & Hloop & Hn & Hup & Hle & Hbits).
      * exact Hmore.
      * lia.
      * by apply ones_below_pad.
      * cbn [buffSize]. lia.
      * cbn [view index byte cnt buffer buffSize] in *.
        exists buf, bs. split; [exact Hloop |].
        repeat split; try lia.
        -- intros _. destruct (Z.lt_ge_cases (buffSize r + 8) n) as [H8 | H8];
             [lia |].
           rewrite peek_loop_done in Hloop by (cbn [buffSize]; lia).
           injection Hloop as _ Hbs. lia.
        -- by replace (m + (bs - buffSize r))
             with (m + 8 + (bs - (buffSize r + 8))) by lia.
    + exists (buffer r), (buffSize r). rewrite peek_loop_done by lia.
      destruct r; cbn in *. repeat split; try lia.
      by replace (m + (buffSize0 - buffSize0)) with m by lia.
Qed.

(** A reader over one byte, after its eight bits: [nextBit] has no ninth
    bit to give, it reads outside the buffer. *)
Lemma nextBit_past_the_end :
  nextBits 8 (newReader [mkByte 171]) img0
  = Some (bits8 171, mkReader [mkByte 171] 0 0 0 0 0, img0)
  /\ hasMoreBytes (mkReader [mkByte 171] 0 0 0 0 0) = false
  /\ nextBit (mkReader [mkByte 171] 0 0 0 0 0) img0 = None.
Proof. by vm_compute. Qed.

(** With no byte left and no bit left of the current byte, [nextBit] asks
    the DataView for a byte outside of it. *)
Lemma nextBit_exhausted r img :
  hasMoreBytes r = false -> cnt r = 0 -> nextBit r img = None.
Proof.
  intros Hmore Hc. unfold nextBit, nextBit_load, nextByte, getUint8.
  rewrite Hc. cbn [Z.eqb set_index index view].
  unfold hasMoreBytes in Hmore. apply Z.ltb_ge in Hmore.
  destruct (Z.ltb_spec (index r + 1) 0); [done |].
  by rewrite (lookup_ge_None_2 (view r) (Z.to_nat (index r + 1))) by lia.
Qed.

(** C8, amended: when no byte is left ([hasMoreBytes] is false), [peek] of
    [n] bits (up to 24) returns, and every bit of the result beyond the
    [buffSize] bits that the register still held is 1; [peek] neither moves
    the reader nor touches [img]. The padding is in [peek] only: [nextBit]
    still returns the bits left of its current byte, one at each call while
    [cnt] is not 0, and when [cnt] is 0 it throws. *)
Theorem peek_pads_with_ones (r : DataViewReader) (img : Img) (n : Z) :
  hasMoreBytes r = false -> 0 <= buffSize r < n -> n <= 24 ->
  (exists ret buf bs,
     peek r img n
     = Some (ret, mkReader (view r) (index r) (byte r) (cnt r) buf bs, img)
     /\ forall i, 0 <= i < n - buffSize r -> Z.testbit ret i = true)
  /\ (cnt r = 0 -> nextBit r img = None)
  /\ (cnt r <> 0 ->
      nextBit r img
      = Some (JS.sar (byte r) 7,
              mkReader (view r) (index r) (JS.and (JS.shl (byte r) 1) 255)
                (cnt r - 1) (buffer r) (buffSize r), img)).
Proof.
  intros Hmore Hbs Hn.
  split; [| split; [by apply nextBit_exhausted | by apply nextBit_buffered]].
  assert (ones_below 0 (buffer r)) as H0 by (intros j ?; lia).
  destruct (peek_loop_exhausted n img (Z.to_nat (n - buffSize r)) r 0
              Hmore ltac:(lia) H0 ltac:(lia))
    as (buf & bs & Hloop & Hge & Hup & Hle & Hbits).
  specialize (Hup ltac:(lia)).
  unfold peek. rewrite Hloop. cbn [mbind option_bind buffer buffSize].
  eexists _, buf, bs. split; [reflexivity |].
  intros i Hi.
  rewrite and_testbit by lia.
  rewrite sar_testbit by lia.
  rewrite Hbits by lia.
  rewrite shl_small by (change (2 ^ 31) with 2147483648;
    pose proof (Z.pow_le_mono_r 2 n 24 ltac:(lia) ltac:(lia));
    pose proof (Z.pow_pos_nonneg 2 n ltac:(lia) ltac:(lia));
    change (2 ^ 24) with 16777216 in *; lia).
  replace (1 * 2 ^ n - 1) with (Z.ones n)
    by (rewrite Z.ones_equiv; lia).
  by rewrite Z.ones_spec_low by lia.
Qed.

Lemma peek_pads_with_ones_witness :
  (exists ret buf bs,
     peek (mkReader [mkByte 171] 0 0 0 0 0) img0 16
     = Some (ret, mkReader [mkByte 171] 0 0 0 buf bs, img0)
     /\ forall i, 0 <= i < 16 - 0 -> Z.testbit ret i = true)
  /\ (0 = 0 -> nextBit (mkReader [mkByte 171] 0 0 0 0 0) img0 = None)
  /\ (0 <> 0 ->
      nextBit (mkReader [mkByte 171] 0 0 0 0 0) img0
      = Some (JS.sar 0 7,
              mkReader [mkByte 171] 0 (JS.and (JS.shl 0 1) 255)
                (0 - 1) 0 0, img0)).
Proof.
  apply (peek_pads_with_ones (mkReader [mkByte 171] 0 0 0 0 0) img0 16);
    [reflexivity | cbn; lia | lia].
Defined.

(** ** Arrays *)

Lemma get_lookup {A} (a : list (option A)) (n : nat) :
  JS.get a (Z.of_nat n) = mjoin (a !! n).
Proof.
  unfold JS.get. destruct (Z.ltb_spec (Z.of_nat n) 0); [lia |].
  by rewrite Nat2Z.id.
Qed.

Lemma set_inside {A} (a : list (option A)) (n : nat) v :
  (n < length a)%nat -> JS.set a (Z.of_nat n) v = <[n := v]> a.
Proof.
  intros Hn. unfold JS.set. destruct (Z.ltb_spec (Z.of_nat n) 0); [lia |].
  rewrite Nat2Z.id. by destruct (decide (n < length a)%nat).
Qed.

Lemma for_each_upto_S {St} (n : nat) (body : St -> Z -> St) (st : St) :
  for_each (map Z.of_nat (seq 0 (Datatypes.S n))) body st
  = body (for_each (map Z.of_nat (seq 0 n)) body st) (Z.of_nat n).
Proof.
  unfold for_each. rewrite seq_S, map_app, fold_left_app. reflexivity.
Qed.

(** ** Dequantize and reorder on the array objects *)

Lemma store_dequantize_steps (h : Store.store) (zz qt : nat) a :
  zz <> qt -> h !! zz = Some a ->
  forall k, (k <= length a)%nat ->
  for_each (map Z.of_nat (seq 0 k)) (fun h i =>
    Store.write h zz i
      (JS.cmul (Store.read h zz i) (Store.read h qt i))) h
  = <[zz := take k (dequantize a (default [] (h !! qt))) ++ drop k a]> h.
Proof.
  intros Hne Ha. induction k as [| k IH]; intros Hk.
  - cbn [seq map for_each fold_left]. rewrite take_0, drop_0.
    cbn [app]. by rewrite list_insert_id.
  - rewrite for_each_upto_S, IH by lia. clear IH.
    assert (zz < length h)%nat as Hzz by (by eapply lookup_lt_Some).
    destruct (lookup_lt_is_Some_2 a k ltac:(lia)) as [c Hc].
    remember (default [] (h !! qt)) as q eqn:Hq.
    assert (length (dequantize a q) = length a) as Hlen
      by (unfold dequantize; apply length_imap).
    assert (length (take k (dequantize a q)) = k) as Htk
      by (rewrite length_take; lia).
    unfold Store.write, Store.read.
    rewrite list_lookup_insert_eq by done.
    rewrite list_lookup_insert_ne by done. rewrite <- Hq.
    cbn [default from_option]. unfold id.
    rewrite list_insert_insert_eq. f_equal.
    rewrite !get_lookup.
    rewrite lookup_app_r by (rewrite Htk; lia). rewrite Htk, Nat.sub_diag.
    rewrite lookup_drop, Nat.add_0_r, Hc. cbn [mjoin option_join].
    rewrite set_inside
      by (rewrite length_app, Htk, length_drop; lia).
    rewrite insert_app_r_alt by (rewrite Htk; lia).
    rewrite Htk, Nat.sub_diag.
    rewrite (drop_S a c k Hc). cbn [insert list_insert].
    assert (dequantize a q !! k = Some (JS.cmul c (mjoin (q !! k)))) as Hd.
    { unfold dequantize. rewrite list_lookup_imap, Hc. cbn.
      by rewrite get_lookup. }
    rewrite (take_S_r _ _ _ Hd). by rewrite <- app_assoc.
Qed.

Lemma store_dequantize_spec (h : Store.store) (zz qt : nat) :
  zz <> qt ->
  Store.dequantize h zz qt
  = <[zz := dequantize (default [] (h !! zz)) (default [] (h !! qt))]> h.
Proof.
  intros Hne. unfold Store.dequantize, Store.length_of, upto.
  rewrite Nat2Z.id.
  destruct (h !! zz) as [a |] eqn:Ha; cbn [default from_option]; unfold id.
  - rewrite (store_dequantize_steps h zz qt a Hne Ha) by lia.
    rewrite drop_all, app_nil_r. f_equal.
    apply take_ge. unfold dequantize. by rewrite length_imap.
  - cbn. symmetry. apply list_insert_ge. by apply lookup_ge_None.
Qed.

Lemma store_reorder_steps (h : Store.store) (coeff : nat) a :
  h !! coeff = Some a ->
  forall k, (k <= length a)%nat ->
  for_each (map Z.of_nat (seq 0 k)) (fun h' i =>
    Store.write h' (length h) i
      (z ← ZIGZAG !! Z.to_nat i; Store.read h' coeff z))
    (h ++ [replicate (length a) None])
  = h ++ [take k (reorder a) ++ replicate (length a - k) None].
Proof.
  intros Ha. induction k as [| k IH]; intros Hk.
  - cbn. by rewrite Nat.sub_0_r.
  - rewrite for_each_upto_S, IH by lia. clear IH.
    assert (coeff < length h)%nat as Hc by (by eapply lookup_lt_Some).
    assert (length (reorder a) = length a) as Hlen
      by (unfold reorder; by rewrite length_map, length_seq).
    unfold Store.write, Store.read.
    rewrite (lookup_app_l _ _ coeff) by done. rewrite Ha.
    rewrite list_lookup_middle by done.
    cbn [default from_option]. unfold id.
    rewrite insert_app_r_alt by lia.
    replace (length h - length h)%nat with 0%nat by lia.
    cbn [insert list_insert]. f_equal. f_equal.
    rewrite set_inside
      by (rewrite length_app, length_take, length_replicate; lia).
    rewrite insert_app_r_alt by (rewrite length_take; lia).
    rewrite length_take, Hlen.
    replace (k - k `min` length a)%nat with 0%nat by lia.
    replace (length a - k)%nat with (Datatypes.S (length a - Datatypes.S k)) by lia.
    cbn [replicate insert list_insert].
    assert (reorder a !! k = Some (z ← ZIGZAG !! k; JS.get a z)) as Hr.
    { unfold reorder. rewrite list_lookup_fmap, lookup_seq_lt by lia.
      reflexivity. }
    rewrite (take_S_r _ _ _ Hr), Nat2Z.id. by rewrite <- app_assoc.
Qed.

Lemma store_reorder_spec (h : Store.store) (coeff : nat) a :
  h !! coeff = Some a ->
  Store.reorder h coeff = (h ++ [reorder a], length h).
Proof.
  intros Ha. unfold Store.reorder, Store.length_of, upto.
  assert (coeff < length h)%nat as Hc by (by eapply lookup_lt_Some).
  rewrite (lookup_app_l _ _ coeff) by done. rewrite Ha.
  cbn [default from_option]. unfold id.
  rewrite Nat2Z.id.
  rewrite (store_reorder_steps h coeff a Ha) by lia.
  rewrite Nat.sub_diag. cbn [replicate]. rewrite app_nil_r.
  rewrite take_ge; [done |].
  unfold reorder. by rewrite length_map, length_seq.
Qed.

(** [dequantize] of the arrays of [testDequantize]: the coefficient array
    given to it does not come back as it was. *)
Lemma dequantize_overwrites_coefficients :
  Store.dequantize [test_coeffs; test_quantTable] 0 1
  = [test_dequantized; test_quantTable]
  /\ test_dequantized <> test_coeffs.
Proof. split; [by vm_compute | by intros [=]]. Qed.

(** C9, amended: [reorder] fills a new array, which holds what its argument
    determines, and leaves every array there was, its argument among them,
    as it was. [dequantize] leaves the quantisation table, and every array
    but the coefficient array, as it was; the coefficient array it
    overwrites, element by element, with the products. *)
Theorem dequantize_reorder_effects (h : Store.store) (zz qt : nat)
  (a : list cell) :
  zz <> qt -> h !! zz = Some a ->
  (Store.reorder h zz = (h ++ [reorder a], length h)
   /\ forall x, (x < length h)%nat ->
        (Store.reorder h zz).1 !! x = h !! x)
  /\ (Store.dequantize h zz qt
      = <[zz := dequantize a (default [] (h !! qt))]> h
      /\ Store.dequantize h zz qt !! qt = h !! qt
      /\ forall x, x <> zz -> Store.dequantize h zz qt !! x = h !! x).
Proof.
  intros Hne Ha. split.
  - rewrite (store_reorder_spec h zz a Ha). split; [done |].
    intros x Hx. cbn [fst]. by apply lookup_app_l.
  - rewrite (store_dequantize_spec h zz qt Hne), Ha.
    cbn [default from_option]. unfold id.
    split; [done |]. split.
    + by apply list_lookup_insert_ne.
    + intros x Hx. by apply list_lookup_insert_ne.
Qed.

Lemma dequantize_reorder_effects_witness :
  (Store.reorder [test_coeffs; test_quantTable] 0
   = ([test_coeffs; test_quantTable] ++ [reorder test_coeffs], 2%nat)
   /\ forall x, (x < 2)%nat ->
        (Store.reorder [test_coeffs; test_quantTable] 0).1 !! x
        = [test_coeffs; test_quantTable] !! x)
  /\ (Store.dequantize [test_coeffs; test_quantTable] 0 1
      = <[0%nat := dequantize test_coeffs
                     (default [] ([test_coeffs; test_quantTable] !! 1%nat))]>
          [test_coeffs; test_quantTable]
      /\ Store.dequantize [test_coeffs; test_quantTable] 0 1 !! 1%nat
         = [test_coeffs; test_quantTable] !! 1%nat
      /\ forall x, x <> 0%nat ->
           Store.dequantize [test_coeffs; test_quantTable] 0 1 !! x
           = [test_coeffs; test_quantTable] !! x).
Proof.
  apply (dequantize_reorder_effects [test_coeffs; test_quantTable] 0 1
           test_coeffs); [lia | reflexivity].
Defined.

Lemma get_set {A} (a : list (option A)) (k i : Z) v :
  JS.get (JS.set a k v) i
  = if (i =? k) && (0 <=? k) then v else JS.get a i.
Proof.
  unfold JS.set, JS.get.
  destruct (Z.ltb_spec k 0) as [Hk | Hk].
  - destruct (Z.leb_spec 0 k); [lia |]. by rewrite andb_false_r.
  - destruct (Z.leb_spec 0 k); [| lia]. rewrite andb_true_r.
    destruct (Z.ltb_spec i 0) as [Hi | Hi].
    { by destruct (Z.eqb_spec i k); [lia |]. }
    destruct (Z.eqb_spec i k) as [-> | Hne].
    + destruct (decide (Z.to_nat k < length a)%nat).
      * by rewrite list_lookup_insert_eq.
      * rewrite lookup_app_r by lia. rewrite lookup_app_r
          by (rewrite length_replicate; lia).
        rewrite length_replicate.
        by replace (Z.to_nat k - length a - (Z.to_nat k - length a))%nat
          with 0%nat by lia.
    + assert (Z.to_nat k <> Z.to_nat i) by lia.
      destruct (decide (Z.to_nat k < length a)%nat).
      * by rewrite list_lookup_insert_ne.
      * destruct (decide (Z.to_nat i < length a)%nat).
        -- by rewrite lookup_app_l.
        -- rewrite lookup_app_r by lia.
           rewrite (lookup_ge_None_2 a) by lia.
           destruct (decide (Z.to_nat i < Z.to_nat k)%nat).
           ++ rewrite lookup_app_l by (rewrite length_replicate; lia).
              by rewrite lookup_replicate_2 by lia.
           ++ rewrite lookup_ge_None_2; [done |].
              rewrite length_app, length_replicate. cbn. lia.
Qed.

(** ** What holds along the bits that a decoder reads *)

Section AlongTheBits.
Context {Src : Type} `{BitSource Src}.
  (** A property of the source that reading a bit keeps. *)
Variable P : Src -> Prop.
Hypothesis P_next_bit :
    forall s b s', P s -> next_bit s = Some (b, s') -> P s'.

Lemma tree_decodeHuffman_keeps node : forall s v s',
    P s -> tree_decodeHuffman node s = Some (v, s') -> P s'.
  Proof.
    induction node as [| lvl d l IHl r IHr]; intros s v s' Hs; cbn.
    - destruct (next_bit s) as [[bit s1] |] eqn:Hb; [| done].
      intros [= <- <-]. eauto.
    - destruct (next_bit s) as [[bit s1] |] eqn:Hb; [| done].
      assert (P s1) by eauto.
      destruct (bit =? 0).
      { unfold arrive. destruct l as [| ll dl l1 l2]; [by intros [= <- <-] |].
        destruct (bool_decide (dl ≠ None)); [by intros [= <- <-] | eauto]. }
      destruct (bit =? 1); [| by intros [= <- <-]].
      unfold arrive. destruct r as [| lr dr r1 r2]; [by intros [= <- <-] |].
      destruct (bool_decide (dr ≠ None)); [by intros [= <- <-] | eauto].
  Qed.

Lemma array_loop_keeps mc : forall i code s i' code' s',
    P s -> array_loop mc i code s = Some (i', code', s') -> P s'.
  Proof.
    induction mc as [| m mc IH]; intros i code s i' code' s' Hs; cbn.
    - by intros [= <- <- <-].
    - destruct m as [m |]; [| by intros [= <- <- <-]].
      destruct (code >? m); [| by intros [= <- <- <-]].
      destruct (next_bit s) as [[tmp s1] |] eqn:Hb; [| done]. eauto.
  Qed.

Lemma array_decodeHuffman_keeps a s v s' :
    P s -> array_decodeHuffman a s = Some (v, s') -> P s'.
  Proof.
    intros Hs. unfold array_decodeHuffman.
    generalize (gen_tables a). intros t.
    destruct (next_bit s) as [[code s1] |] eqn:Hb; [| done].
    cbn [mbind option_bind].
    destruct (array_loop (drop 1 (maxcode t)) 1 code s1)
      as [[[i code'] s2] |] eqn:Hloop; [| done].
    assert (P s1) by eauto.
    cbn [mbind option_bind]. intros [= _ <-].
    by eapply array_loop_keeps; [| exact Hloop].
  Qed.

Lemma decodeHuffman_keeps d s v s' :
    P s -> decodeHuffman d s = Some (v, s') -> P s'.
  Proof.
    destruct d; cbn; eauto using tree_decodeHuffman_keeps,
      array_decodeHuffman_keeps.
  Qed.

Lemma receive_loop_keeps n : forall v s v' s',
    P s -> receive_loop n v s = Some (v', s') -> P s'.
  Proof.
    induction n as [| n IH]; intros v s v' s' Hs; cbn.
    - by intros [= <- <-].
    - destruct (next_bit s) as [[b s1] |] eqn:Hb; [| done]. eauto.
  Qed.

Lemma receive_keeps s ssss v s' :
    P s -> receive s ssss = Some (v, s') -> P s'.
  Proof. apply receive_loop_keeps. Qed.

  (** When the bits are 0 or 1, [n] of them make a number below [2^n]. *)
Hypothesis P_bit :
    forall s b s', P s -> next_bit s = Some (b, s') -> b = 0 \/ b = 1.

Lemma receive_loop_range n : forall m v s v' s',
    P s -> 0 <= m -> m + Z.of_nat n <= 16 -> 0 <= v < 2 ^ m ->
    receive_loop n v s = Some (v', s') -> 0 <= v' < 2 ^ (m + Z.of_nat n).
  Proof.
    induction n as [| n IH]; intros m v s v' s' Hs Hm Hmn Hv; cbn [receive_loop].
    - intros [= <- <-]. by rewrite Z.add_0_r.
    - destruct (next_bit s) as [[b s1] |] eqn:Hb; [| done].
      intros Hloop.
      replace (m + Z.of_nat (Datatypes.S n)) with ((m + 1) + Z.of_nat n) by lia.
      assert (2 ^ (m + 1) = 2 * 2 ^ m) as Hpow
        by (rewrite Z.pow_add_r by lia; lia).
      assert (2 ^ m <= 2 ^ 15) by (apply Z.pow_le_mono_r; lia).
      change (2 ^ 15) with 32768 in *.
      apply (IH (m + 1) (JS.shl v 1 + b) s1 v' s');
        [eauto | lia | lia | | exact Hloop].
      rewrite shl_small by (change (2 ^ 31) with 2147483648; lia).
      destruct (P_bit _ _ _ Hs Hb); lia.
  Qed.

Lemma receive_range s ssss v s' :
    P s -> 0 <= ssss <= 16 -> receive s (Some ssss) = Some (v, s') ->
    0 <= v < 2 ^ ssss.
  Proof.
    intros Hs Hssss Hr. unfold receive in Hr. cbn [default] in Hr.
    pose proof (receive_loop_range (Z.to_nat ssss) 0 0 s v s' Hs) as Hrange.
    rewrite Z2Nat.id in Hrange by lia. cbn [Z.add] in Hrange.
    apply Hrange; [lia | lia | | exact Hr]. change (2 ^ 0) with 1. lia.
  Qed.

End AlongTheBits.

(** ** The reader as the bit source *)

Lemma source_next_bit (s : Source) b s' :
  next_bit s = Some (b, s') ->
  nextBit s.1 s.2 = Some (b, s'.1, s'.2).
Proof.
  unfold next_bit, reader_source.
  destruct (nextBit s.1 s.2) as [[[b1 r1] img1] |]; [| done].
  by intros [= <- <-].
Qed.

Lemma source_byte_ok (s : Source) b s' :
  byte_ok s.1 -> next_bit s = Some (b, s') -> byte_ok s'.1.
Proof.
  intros Hok Hb. apply source_next_bit in Hb.
  by destruct (nextBit_bit _ _ _ _ _ Hok Hb).
Qed.

Lemma source_bit (s : Source) b s' :
  byte_ok s.1 -> next_bit s = Some (b, s') -> b = 0 \/ b = 1.
Proof.
  intros Hok Hb. apply source_next_bit in Hb.
  by destruct (nextBit_bit _ _ _ _ _ Hok Hb).
Qed.

(** ** The AC coefficients *)

Lemma getLowNibble_range rs : 0 <= getLowNibble rs <= 15.
Proof. apply and15_range. Qed.

Lemma kept_or_nonzero_refl zz : kept_or_nonzero zz zz.
Proof. by left. Qed.

Lemma kept_or_nonzero_trans zz1 zz2 zz3 :
  kept_or_nonzero zz1 zz2 -> kept_or_nonzero zz2 zz3 ->
  kept_or_nonzero zz1 zz3.
Proof.
  intros H12 H23 i. destruct (H23 i) as [-> | ?]; [apply H12 | by right].
Qed.

Lemma ac_body_kept_or_nonzero acTable k s zz flow s' zz' :
  byte_ok s.1 -> ac_body acTable k s zz = Some (flow, s', zz') ->
  byte_ok s'.1 /\ kept_or_nonzero zz zz'.
Proof.
  intros Hok. unfold ac_body.
  destruct (decodeHuffman acTable s) as [[rs s1] |] eqn:Hdec;
    cbn [mbind option_bind]; [| done].
  assert (byte_ok s1.1) as Hok1.
  { exact (decodeHuffman_keeps (fun s => byte_ok s.1) source_byte_ok
             acTable s rs s1 Hok Hdec). }
  pose proof (getLowNibble_range rs) as Hnib.
  destruct (Z.eqb_spec (getLowNibble rs) 0) as [Hz | Hnz].
  - destruct (getHighNibble rs =? 15); [| destruct (getHighNibble rs =? 0)];
      intros [= <- <- <-]; (split; [done | apply kept_or_nonzero_refl]).
  - destruct (receive s1 (Some (getLowNibble rs))) as [[amp s2] |] eqn:Hrec;
      cbn [mbind option_bind]; [| done].
    intros [= <- <- <-]. split.
    + exact (receive_keeps (fun s => byte_ok s.1) source_byte_ok
               s1 _ amp s2 Hok1 Hrec).
    + assert (0 <= amp < 2 ^ getLowNibble rs) as Hamp.
      { exact (receive_range (fun s => byte_ok s.1) source_byte_ok source_bit
                 s1 (getLowNibble rs) amp s2 Hok1 ltac:(lia) Hrec). }
      destruct (extend_magnitude amp (getLowNibble rs) ltac:(lia) Hamp)
        as [Hne _].
      intros i. rewrite get_set.
      destruct ((i =? k + getHighNibble rs) && (0 <=? k + getHighNibble rs));
        [right | by left].
      eauto.
Qed.

Lemma ac_loop_kept_or_nonzero acTable : forall fuel k s zz s' zz',
  byte_ok s.1 -> ac_loop fuel acTable k s zz = Some (s', zz') ->
  kept_or_nonzero zz zz'.
Proof.
  induction fuel as [| fuel IH]; intros k s zz s' zz' Hok; cbn [ac_loop].
  - destruct (k <? 64); [done |]. intros [= <- <-]. apply kept_or_nonzero_refl.
  - destruct (k <? 64); [| intros [= <- <-]; apply kept_or_nonzero_refl].
    destruct (ac_body acTable k s zz) as [[[flow s1] zz1] |] eqn:Hbody; [| done].
    destruct (ac_body_kept_or_nonzero _ _ _ _ _ _ _ Hok Hbody) as [Hok1 Hzz].
    destruct flow as [k1 |].
    + intros Hloop. eapply kept_or_nonzero_trans; [exact Hzz |]. eauto.
    + by intros [= <- <-].
Qed.

(** C10: [extend] of [t] raw bits, [t] from 1 to 16, is not 0 and its
    magnitude is from [2^(t-1)] to [2^t - 1]; and every position of the
    coefficient array that [decodeACCoeffs] leaves different from what it
    was holds a number that is not 0. *)
Theorem extend_nonzero (v t : Z) (acTable : HuffDecoder) (s s' : Source)
  (zz zz' : list cell) :
  1 <= t <= 16 -> 0 <= v < 2 ^ t ->
  byte_ok s.1 -> decodeACCoeffs s zz acTable = Some (s', zz') ->
  (extend v (Some t) <> 0
   /\ 2 ^ (t - 1) <= Z.abs (extend v (Some t)) <= 2 ^ t - 1)
  /\ forall i, JS.get zz' i = JS.get zz i
               \/ exists z, JS.get zz' i = Some z /\ z <> 0.
Proof.
  intros Ht Hv Hok Hdec. split.
  - by apply extend_magnitude.
  - by eapply ac_loop_kept_or_nonzero.
Qed.

Lemma extend_nonzero_witness :
  (extend 5 (Some 5) <> 0
   /\ 2 ^ (5 - 1) <= Z.abs (extend 5 (Some 5)) <= 2 ^ 5 - 1)
  /\ forall i,
       JS.get (<[2%nat := Some 1]> (replicate 64 (Some 0))) i
       = JS.get (replicate 64 (Some 0)) i
       \/ exists z,
            JS.get (<[2%nat := Some 1]> (replicate 64 (Some 0))) i = Some z
            /\ z <> 0.
Proof.
  apply (extend_nonzero 5 5 ac_table_run5 (newReader run5_data, img0)
           (mkReader run5_data 7 0 0 0 0, img0)
           (replicate 64 (Some 0))
           (<[2%nat := Some 1]> (replicate 64 (Some 0))));
    [lia | by vm_compute | by vm_compute | by vm_compute].
Defined.

(** The symbol 0x50, a run of five with no magnitude, at [k = 1]: the loop
    goes on at 2 and the coefficient of the next symbol, a 1, is stored at
    position 2; as the specification words the loop it would have advanced
    to 6 and the coefficient would be at 7. *)
Lemma run_without_magnitude :
  (ac_body ac_table_run5 1 (newReader run5_data, img0) (replicate 64 (Some 0))
     ≫= fun x => Some x.1.1) = Some (Next 1)
  /\ (ac_body_as_specified ac_table_run5 1 (newReader run5_data, img0)
        (replicate 64 (Some 0)) ≫= fun x => Some x.1.1) = Some (Next 6)
  /\ (decodeACCoeffs (newReader run5_data, img0) (replicate 64 (Some 0))
        ac_table_run5 ≫= fun x => Some (JS.get x.2 2, JS.get x.2 7))
     = Some (Some 1, Some 0).
Proof. by vm_compute. Qed.

(** C2, amended: one round of the loop over [k], for the symbol [rs] that
    [decodeHuffman] returned. ZRL (SSSS 0, RRRR 15): the loop goes on 16
    positions further and nothing is stored. EOB (SSSS 0, RRRR 0): the loop
    ends and nothing is stored. SSSS not 0: [k] advances by RRRR and
    EXTEND(RECEIVE(SSSS), SSSS) is stored at [k]. SSSS 0 with any other
    RRRR: nothing is stored and the loop goes on at the next position. *)
Theorem ac_loop_round (acTable : HuffDecoder) (fuel : nat) (k : Z)
  (s s1 : Source) (zz : list cell) (rs : cell) :
  k < 64 -> decodeHuffman acTable s = Some (rs, s1) ->
  let ssss := getLowNibble rs in
  let rrrr := getHighNibble rs in
  ac_loop (Datatypes.S fuel) acTable k s zz
  = if ssss =? 0 then
      if rrrr =? 15 then ac_loop fuel acTable (k + 16) s1 zz
      else if rrrr =? 0 then Some (s1, zz)
      else ac_loop fuel acTable (k + 1) s1 zz
    else
      match receive s1 (Some ssss) with
      | Some (amp, s2) =>
          ac_loop fuel acTable (k + rrrr + 1) s2
            (JS.set zz (k + rrrr) (Some (extend amp (Some ssss))))
      | None => None
      end.
Proof.
  intros Hk Hdec ssss rrrr. cbn [ac_loop].
  destruct (Z.ltb_spec k 64); [| lia].
  unfold ac_body. rewrite Hdec. cbn [mbind option_bind].
  fold ssss rrrr.
  destruct (ssss =? 0).
  - destruct (rrrr =? 15).
    + by replace (k + 15 + 1) with (k + 16) by lia.
    + by destruct (rrrr =? 0).
  - by destruct (receive s1 (Some ssss)) as [[amp s2] |].
Qed.

Lemma ac_loop_round_witness :
  let s := (newReader run5_data, img0) in
  let s1 := (mkReader run5_data 0 192 7 0 0, img0) in
  let rs := Some 80 in
  let ssss := getLowNibble rs in
  let rrrr := getHighNibble rs in
  ac_loop 63 ac_table_run5 1 s (replicate 64 (Some 0))
  = if ssss =? 0 then
      if rrrr =? 15 then ac_loop 62 ac_table_run5 (1 + 16) s1 (replicate 64 (Some 0))
      else if rrrr =? 0 then Some (s1, replicate 64 (Some 0))
      else ac_loop 62 ac_table_run5 (1 + 1) s1 (replicate 64 (Some 0))
    else
      match receive s1 (Some ssss) with
      | Some (amp, s2) =>
          ac_loop 62 ac_table_run5 (1 + rrrr + 1) s2
            (JS.set (replicate 64 (Some 0)) (1 + rrrr) (Some (extend amp (Some ssss))))
      | None => None
      end.
Proof.
  apply (ac_loop_round ac_table_run5 62 1 (newReader run5_data, img0)
           (mkReader run5_data 0 192 7 0 0, img0) (replicate 64 (Some 0)) (Some 80));
    [lia | by vm_compute].
Defined.

(** ** The samples of the Chen-Wang transform *)

(** Membership in a list that is written out. *)
Ltac pick_element :=
  repeat first [apply list_elem_of_here | apply list_elem_of_further].

Lemma clampIdct_range x : -128 <= clampIdct x <= 127.
Proof.
  unfold clampIdct. destruct (Z.gtb_spec x 127); [lia |].
  destruct (Z.ltb_spec x (-128)); lia.
Qed.

Lemma same_or_centered_refl b : same_or_centered b b.
Proof. by left. Qed.

Lemma same_or_centered_trans b1 b2 b3 :
  same_or_centered b1 b2 -> same_or_centered b2 b3 -> same_or_centered b1 b3.
Proof.
  intros H12 H23 i. destruct (H23 i) as [H3 | ?]; [| by right].
  destruct (H12 i) as [H2 | (v & Hv & Hr)].
  - left. by rewrite H3.
  - right. exists v. by rewrite H3.
Qed.

Lemma centered_kept b b' i :
  same_or_centered b b' -> centered b i -> centered b' i.
Proof.
  intros Hbb' (v & Hv & Hr). destruct (Hbb' i) as [Hi | ?]; [| done].
  exists v. by rewrite Hi.
Qed.

Lemma set_clamped_snoc b l k x :
  set_clamped b (l ++ [(k, x)])
  = JS.set (set_clamped b l) k (Some (clampIdct x)).
Proof. unfold set_clamped. by rewrite fold_left_app. Qed.

Lemma set_clamped_spec l : forall b,
  same_or_centered b (set_clamped b l)
  /\ forall k x, (k, x) ∈ l -> 0 <= k -> centered (set_clamped b l) k.
Proof.
  induction l as [| [k x] l IH] using rev_ind; intros b.
  - split; [apply same_or_centered_refl |]. intros k x Hin. by apply elem_of_nil in Hin.
  - destruct (IH b) as [Hsame Hset]. rewrite set_clamped_snoc.
    assert (same_or_centered (set_clamped b l)
              (JS.set (set_clamped b l) k (Some (clampIdct x)))) as Hstep.
    { intros i. rewrite get_set.
      destruct ((i =? k) && (0 <=? k)) eqn:Hik; [right | by left].
      exists (clampIdct x). rewrite get_set, Hik.
      split; [done | apply clampIdct_range]. }
    split; [by eapply same_or_centered_trans |].
    intros k' x' Hin Hk'. apply elem_of_app in Hin as [Hin | Hin].
    + eapply centered_kept; [exact Hstep | by eapply Hset].
    + apply list_elem_of_singleton in Hin as [= -> ->].
      exists (clampIdct x). rewrite get_set.
      rewrite Z.eqb_refl. destruct (Z.leb_spec 0 k); [| lia].
      split; [done | apply clampIdct_range].
Qed.

(** [idctcol] is eight such assignments, down the column. *)
Lemma idctcol_set_clamped blk idx :
  exists x0 x1 x2 x3 x4 x5 x6 x7,
    idctcol blk idx
    = set_clamped blk
        [(idx + 8 * 0, x0); (idx + 8 * 1, x1); (idx + 8 * 2, x2);
         (idx + 8 * 3, x3); (idx + 8 * 4, x4); (idx + 8 * 5, x5);
         (idx + 8 * 6, x6); (idx + 8 * 7, x7)].
Proof.
  unfold idctcol.
  match goal with |- context [if ?c then _ else _] => destruct c end.
  - set (tmp := JS.csar _ 6). exists tmp, tmp, tmp, tmp, tmp, tmp, tmp, tmp.
    reflexivity.
  - cbv zeta. unfold set_clamped. cbn [fold_left fst snd].
    do 8 eexists. reflexivity.
Qed.

Lemma idctcol_centered blk idx :
  0 <= idx ->
  same_or_centered blk (idctcol blk idx)
  /\ forall j, 0 <= j < 8 -> centered (idctcol blk idx) (idx + 8 * j).
Proof.
  intros Hidx.
  destruct (idctcol_set_clamped blk idx)
    as (x0 & x1 & x2 & x3 & x4 & x5 & x6 & x7 & ->).
  match goal with |- context [set_clamped blk ?l] =>
    destruct (set_clamped_spec l blk) as [Hsame Hset] end.
  split; [done |]. intros j Hj.
  assert (j = 0 \/ j = 1 \/ j = 2 \/ j = 3 \/ j = 4 \/ j = 5 \/ j = 6 \/ j = 7)
    as Hcases by lia.
  destruct Hcases as [-> | [-> | [-> | [-> | [-> | [-> | [-> | ->]]]]]]];
    (eapply Hset; [| lia]); pick_element.
Qed.

Lemma idctcols_centered (cols : list Z) : forall blk,
  (forall c, c ∈ cols -> 0 <= c) ->
  same_or_centered blk (for_each cols idctcol blk)
  /\ forall c j, c ∈ cols -> 0 <= j < 8 ->
       centered (for_each cols idctcol blk) (c + 8 * j).
Proof.
  unfold for_each.
  induction cols as [| c cols IH] using rev_ind; intros blk Hpos.
  - split; [apply same_or_centered_refl |]. intros c j Hin. by apply elem_of_nil in Hin.
  - rewrite fold_left_app. cbn [fold_left].
    destruct (IH blk) as [Hsame Hset].
    { intros c' Hc'. apply Hpos. apply elem_of_app. by left. }
    destruct (idctcol_centered (fold_left idctcol cols blk) c) as [Hstep Hcol].
    { apply Hpos. apply elem_of_app. right. by apply list_elem_of_singleton. }
    split; [by eapply same_or_centered_trans |].
    intros c' j Hin Hj. apply elem_of_app in Hin as [Hin | Hin].
    + eapply centered_kept; [exact Hstep | by apply Hset].
    + apply list_elem_of_singleton in Hin as ->. by apply Hcol.
Qed.

(** Every one of the 64 samples of [idctChenWang] is clamped. *)
Lemma idctChenWang_centered coeffs i :
  0 <= i < 64 -> centered (idctChenWang coeffs) i.
Proof.
  intros Hi. unfold idctChenWang.
  match goal with |- context [for_each idx8 idctcol ?b] =>
    destruct (idctcols_centered idx8 b) as [_ Hset] end.
  { intros c Hc. apply list_elem_of_fmap in Hc as (n & -> & _). lia. }
  replace i with (i mod 8 + 8 * (i / 8)) by (pose proof (Z.div_mod i 8); lia).
  pose proof (Z.mod_pos_bound i 8 ltac:(lia)) as Hm.
  apply Hset.
  - assert (i mod 8 = 0 \/ i mod 8 = 1 \/ i mod 8 = 2 \/ i mod 8 = 3
            \/ i mod 8 = 4 \/ i mod 8 = 5 \/ i mod 8 = 6 \/ i mod 8 = 7)
      as Hcases by lia.
    destruct Hcases as [-> | [-> | [-> | [-> | [-> | [-> | [-> | ->]]]]]]];
      vm_compute; pick_element.
  - split; [apply Z.div_pos; lia | apply Z.div_lt_upper_bound; lia].
Qed.

Lemma levelShift_get block i v :
  JS.get block i = Some v -> JS.get (levelShift block) i = Some (v + 128).
Proof.
  unfold JS.get, levelShift. destruct (i <? 0); [done |].
  rewrite list_lookup_fmap.
  destruct (block !! Z.to_nat i) as [[x |] |]; cbn; try done.
  by intros [= ->].
Qed.

(** ** The floating-point transforms on a block that has only a DC
    coefficient *)

Lemma fzero_finite z : fzero z -> Num.finite z = true.
Proof. intros [b Hb]. unfold Num.finite. by rewrite Hb. Qed.

Lemma mul_fzero_l z a : fzero z -> Num.finite a = true -> fzero (z * a)%float.
Proof.
  intros [b Hb] Ha. unfold fzero, Num.finite in *.
  rewrite mul_spec, Hb. unfold SF64mul, SFmul.
  destruct (Prim2SF a); try done; eauto.
Qed.

Lemma mul_fzero_r a z : Num.finite a = true -> fzero z -> fzero (a * z)%float.
Proof.
  intros Ha [b Hb]. unfold fzero, Num.finite in *.
  rewrite mul_spec, Hb. unfold SF64mul, SFmul.
  destruct (Prim2SF a); try done; eauto.
Qed.

Lemma add_fzero_r s z : fnonzero s -> fzero z -> (s + z)%float = s.
Proof.
  intros (sg & m & e & Hs) [b Hb]. apply Prim2SF_inj.
  rewrite add_spec, Hs, Hb. reflexivity.
Qed.

Lemma fold_fzero {A} (f : A -> float) (l : list A) s :
  fnonzero s -> (forall a, a ∈ l -> fzero (f a)) ->
  fold_left (fun acc a => (acc + f a)%float) l s = s.
Proof.
  intros Hs. induction l as [| a l IH]; intros Hl; [done |].
  cbn [fold_left]. rewrite add_fzero_r.
  - apply IH. intros a' Ha'. apply Hl. by apply list_elem_of_further.
  - done.
  - apply Hl. apply list_elem_of_here.
Qed.

Lemma for_each_cons {A St} (x : A) l (body : St -> A -> St) st :
  for_each (x :: l) body st = for_each l body (body st x).
Proof. reflexivity. Qed.

Lemma idx8_elem x : x ∈ idx8 <-> 0 <= x < 8.
Proof.
  unfold idx8. change (Z.to_nat DATA_UNIT_SIZE) with 8%nat.
  rewrite list_elem_of_fmap. split.
  - intros (n & -> & Hn). apply elem_of_seq in Hn. lia.
  - intros Hx. exists (Z.to_nat x). split; [lia |].
    apply elem_of_seq. lia.
Qed.

Lemma C_finite u : Num.finite (C u) = true.
Proof. unfold C. by destruct (u =? 0); vm_compute. Qed.

Lemma CC_zero u v : fzero (C u * C v * Num.of_cell (Some 0%Z))%float.
Proof.
  unfold C. destruct (u =? 0), (v =? 0); by exists false; vm_compute.
Qed.

Lemma dc_only_get c i :
  0 <= i < 64 ->
  JS.get (dc_only c) i = if i =? 0 then Some c else Some 0.
Proof.
  intros Hi. unfold JS.get, dc_only.
  destruct (Z.ltb_spec i 0); [lia |].
  destruct (Z.eqb_spec i 0) as [-> | Hne]; [done |].
  rewrite lookup_cons_ne_0 by lia. by rewrite lookup_replicate_2 by lia.
Qed.

(** The sum for one sample: the term of [u = v = 0] and 63 zeros. *)
Lemma idct_sum_dc_only c (cosx cosy : Z -> float) :
  cosx 0 = 1%float -> cosy 0 = 1%float ->
  (forall u, 0 <= u < 8 -> Num.finite (cosx u) = true) ->
  (forall v, 0 <= v < 8 -> Num.finite (cosy v) = true) ->
  fnonzero (dc_sum c) ->
  idct_sum (dc_only c) cosx cosy = dc_sum c.
Proof.
  intros Hx0 Hy0 Hx Hy Hnz.
  assert (forall u v, 0 <= u < 8 -> 0 <= v < 8 -> (u, v) <> (0, 0) ->
            fzero (C u * C v
                   * Num.of_cell (JS.get (dc_only c) (v * DATA_UNIT_SIZE + u))
                   * cosx u * cosy v)%float) as Hterm.
  { intros u v Hu Hv Huv. unfold DATA_UNIT_SIZE.
    rewrite dc_only_get by lia.
    destruct (Z.eqb_spec (v * 8 + u) 0) as [He |];
      [exfalso; apply Huv; f_equal; lia |].
    apply mul_fzero_l; [| by apply Hy].
    apply mul_fzero_l; [| by apply Hx].
    apply CC_zero. }
  assert (forall s v, fnonzero s -> 0 < v < 8 ->
            for_each idx8 (fun sum u =>
              (sum + C u * C v
                     * Num.of_cell (JS.get (dc_only c) (v * DATA_UNIT_SIZE + u))
                     * cosx u * cosy v)%float) s = s) as Hrow.
  { intros s v Hs Hv. unfold for_each. apply (fold_fzero _ idx8 s Hs).
    intros u Hu. apply idx8_elem in Hu. apply Hterm; [lia | lia |].
    intros [= ? ?]. lia. }
  assert (for_each idx8 (fun sum u =>
            (sum + C u * C 0
                   * Num.of_cell (JS.get (dc_only c) (0 * DATA_UNIT_SIZE + u))
                   * cosx u * cosy 0%Z)%float) 0%float = dc_sum c) as Hfirst.
  { change idx8 with (0 :: [1; 2; 3; 4; 5; 6; 7]).
    rewrite for_each_cons. unfold for_each.
    assert ((0 + C 0 * C 0
                 * Num.of_cell (JS.get (dc_only c) (0 * DATA_UNIT_SIZE + 0))
                 * cosx 0%Z * cosy 0%Z)%float = dc_sum c) as ->
      by (by rewrite Hx0, Hy0).
    apply (fold_fzero _ _ _ Hnz).
    intros u Hu. apply Hterm; [| lia |].
    - assert (u ∈ idx8) as Hu8
        by (change idx8 with (0 :: [1; 2; 3; 4; 5; 6; 7]);
            by apply list_elem_of_further).
      by apply idx8_elem in Hu8.
    - intros [= ->]. vm_compute in Hu. by repeat (inversion Hu as [| ? ? ? Hu']; subst; clear Hu; rename Hu' into Hu). }
  assert (forall tl s, fnonzero s -> (forall v, v ∈ tl -> 0 < v < 8) ->
            for_each tl (fun sum v =>
              for_each idx8 (fun sum u =>
                (sum + C u * C v
                       * Num.of_cell (JS.get (dc_only c) (v * DATA_UNIT_SIZE + u))
                       * cosx u * cosy v)%float) sum) s = s) as Hrows.
  { induction tl as [| v tl IH]; intros s Hs Htl; [done |].
    rewrite for_each_cons, Hrow.
    - apply IH; [done |]. intros v' Hv'. apply Htl. by apply list_elem_of_further.
    - done.
    - apply Htl. apply list_elem_of_here. }
  unfold idct_sum. change idx8 with (0 :: [1; 2; 3; 4; 5; 6; 7]) at 1.
  rewrite for_each_cons, Hfirst. apply Hrows; [done |].
  intros v Hv.
  assert (v ∈ idx8) as Hv8
    by (change idx8 with (0 :: [1; 2; 3; 4; 5; 6; 7]);
        by apply list_elem_of_further).
  apply idx8_elem in Hv8.
  assert (v <> 0); [| lia].
  intros ->. by repeat (inversion Hv as [| ? ? ? Hv']; subst; clear Hv; rename Hv' into Hv).
Qed.

Lemma for_each_ext {A St} (l : list A) (f g : St -> A -> St) st :
  (forall a st, a ∈ l -> f st a = g st a) ->
  for_each l f st = for_each l g st.
Proof.
  revert st. induction l as [| a l IH]; intros st Hfg; [done |].
  rewrite !for_each_cons, Hfg by apply list_elem_of_here.
  apply IH. intros a' st' Ha'. apply Hfg. by apply list_elem_of_further.
Qed.

(** When the sum is the same at every sample, so is the sample. *)
Lemma idct_fill_const coeffs (cosine : Z -> Z -> float) (sum : float) :
  length coeffs = 64%nat ->
  (forall x y, 0 <= x < 8 -> 0 <= y < 8 ->
     idct_sum coeffs (cosine x) (cosine y) = sum) ->
  idct_fill coeffs cosine = replicate 64 (Num.round (sum / 4)%float).
Proof.
  intros Hlen Hsum. unfold idct_fill. rewrite Hlen.
  transitivity
    (for_each idx8 (fun ret y =>
       for_each idx8 (fun ret x =>
         JS.set ret (y * DATA_UNIT_SIZE + x) (Num.round (sum / 4)%float)) ret)
       (replicate 64 None)).
  - apply for_each_ext. intros y ret Hy. apply for_each_ext. intros x ret' Hx.
    apply idx8_elem in Hx, Hy. by rewrite Hsum.
  - generalize (Num.round (sum / 4)%float). intros r. by vm_compute.
Qed.

Lemma angle_zero x : angle x 0 = 0%float.
Proof. unfold angle. rewrite Z.mul_0_r. by vm_compute. Qed.

Lemma angle_finite x u :
  0 <= x < 8 -> 0 <= u < 8 -> Num.finite (angle x u) = true.
Proof.
  intros Hx Hu.
  assert (forallb (fun x => forallb (fun u => Num.finite (angle x u)) idx8) idx8
          = true) as Hall by (by vm_compute).
  rewrite forallb_forall in Hall.
  specialize (Hall x). rewrite forallb_forall in Hall.
  apply Hall; apply list_elem_of_In; by apply idx8_elem.
Qed.

(** The naive transform of a block that has only a DC coefficient. *)
Lemma idct_dc_only (cos : float -> float) c :
  cos_admissible cos -> fnonzero (dc_sum c) ->
  idct cos (dc_only c) = replicate 64 (Num.round (dc_sum c / 4)%float).
Proof.
  intros [Hcos0 Hfin] Hnz. unfold idct.
  apply idct_fill_const; [done |]. intros x y Hx Hy.
  apply idct_sum_dc_only; try done.
  - by rewrite angle_zero.
  - by rewrite angle_zero.
  - intros u Hu. by apply Hfin, angle_finite.
  - intros v Hv. by apply Hfin, angle_finite.
Qed.

(** The cache holds the cosines that the naive transform computes, so the
    two transforms give the same samples. *)
Lemma cache_get_init (cos : float -> float) x u :
  0 <= x < 8 -> 0 <= u < 8 ->
  cache_get (initIDCTCache cos) x u = cos (angle x u).
Proof.
  intros Hx Hu. unfold cache_get, initIDCTCache.
  rewrite list_lookup_fmap.
  assert (idx8 !! Z.to_nat x = Some x) as ->.
  { unfold idx8. rewrite list_lookup_fmap, lookup_seq_lt
      by (change (Z.to_nat DATA_UNIT_SIZE) with 8%nat; lia).
    cbn. f_equal. lia. }
  cbn [fmap option_fmap option_map mbind option_bind].
  rewrite list_lookup_fmap.
  assert (idx8 !! Z.to_nat u = Some u) as ->.
  { unfold idx8. rewrite list_lookup_fmap, lookup_seq_lt
      by (change (Z.to_nat DATA_UNIT_SIZE) with 8%nat; lia).
    cbn. f_equal. lia. }
  reflexivity.
Qed.

Lemma idctCached_idct (cos : float -> float) coeffs :
  (idctCached cos None coeffs).1 = idct cos coeffs.
Proof.
  unfold idctCached, idct, idct_fill. cbn [fst default from_option].
  apply for_each_ext. intros y ret Hy. apply for_each_ext. intros x ret' Hx.
  apply idx8_elem in Hx, Hy. f_equal. f_equal. f_equal.
  unfold idct_sum.
  apply for_each_ext. intros v s Hv. apply for_each_ext. intros u s' Hu.
  apply idx8_elem in Hu, Hv. by rewrite !cache_get_init.
Qed.

(** The later calls, which find the cache that the first one built, return
    what the first call returns. *)
Lemma idctCached_again (cos : float -> float) a coeffs :
  idctCached cos (idctCached cos None a).2 coeffs
  = idctCached cos None coeffs.
Proof. unfold idctCached. by cbn [snd default from_option]. Qed.

(** The cosine of the examples is admissible. *)
Lemma cos_grid_admissible : cos_admissible cos_grid.
Proof.
  split; [by vm_compute |].
  intros x _. unfold cos_grid.
  destruct (Num.round (x * 16 / Num.PI)) as [n |]; [| by vm_compute].
  destruct (n <? 0); [by vm_compute |].
  assert (forallb Num.finite cos_table = true) as Hall by (by vm_compute).
  rewrite forallb_forall in Hall.
  destruct (cos_table !! Z.to_nat n) as [c |] eqn:Hc; [| by vm_compute].
  apply Hall. apply list_elem_of_In. by eapply list_elem_of_lookup_2.
Qed.

(** C5: for the block that is zero but for [coeff[0] = 6] every transform
    returns the block of 64 ones, and for [coeff[0] = -6] the block of 64
    minus ones: the naive one and the cached one for every [Math.cos] whose
    value at 0 is 1 and whose values are numbers, and the Chen-Wang one. *)
Theorem idct_dc_edge_case (cos : float -> float) :
  cos_admissible cos ->
  (idct cos (dc_only 6) = replicate 64 (Some 1)
   /\ (idctCached cos None (dc_only 6)).1 = replicate 64 (Some 1)
   /\ idctChenWang (dc_only 6) = replicate 64 (Some 1))
  /\ (idct cos (dc_only (-6)) = replicate 64 (Some (-1))
      /\ (idctCached cos None (dc_only (-6))).1 = replicate 64 (Some (-1))
      /\ idctChenWang (dc_only (-6)) = replicate 64 (Some (-1))).
Proof.
  intros Hcos.
  assert (idct cos (dc_only 6) = replicate 64 (Some 1)) as H6.
  { rewrite idct_dc_only; [by vm_compute | done |].
    by exists false; vm_compute; eauto. }
  assert (idct cos (dc_only (-6)) = replicate 64 (Some (-1))) as Hm6.
  { rewrite idct_dc_only; [by vm_compute | done |].
    by exists true; vm_compute; eauto. }
  rewrite !idctCached_idct.
  repeat split; try done; by vm_compute.
Qed.

Lemma idct_dc_edge_case_witness :
  (idct cos_grid (dc_only 6) = replicate 64 (Some 1)
   /\ (idctCached cos_grid None (dc_only 6)).1 = replicate 64 (Some 1)
   /\ idctChenWang (dc_only 6) = replicate 64 (Some 1))
  /\ (idct cos_grid (dc_only (-6)) = replicate 64 (Some (-1))
      /\ (idctCached cos_grid None (dc_only (-6))).1 = replicate 64 (Some (-1))
      /\ idctChenWang (dc_only (-6)) = replicate 64 (Some (-1))).
Proof. apply (idct_dc_edge_case cos_grid). exact cos_grid_admissible. Defined.

(** ** The samples of a data unit *)

(** A DC difference of 2047 with the quantisation table of the tests: every
    sample of the data unit is 4222, for every admissible cosine. *)
Lemma naive_big_dc (cos : float -> float) :
  cos_admissible cos ->
  (decodeDataUnit cos calculated (newReader big_dc_data, img1) None 1
     dc_table_11 ac_table_eob test_quantTable ≫= fun x => Some x.1.1)
  = Some (replicate 64 (Some 4222)).
Proof.
  intros Hcos. unfold decodeDataUnit.
  assert (decodeDCCoeff (newReader big_dc_data, img1) 1 dc_table_11
          = Some (Some 2047, (mkReader big_dc_data 1 0 4 0 0, img1))) as ->
    by (by vm_compute).
  cbn [mbind option_bind fst snd].
  match goal with |- context [decodeACCoeffs ?s ?zz ac_table_eob] =>
    assert (decodeACCoeffs s zz ac_table_eob
            = Some ((mkReader big_dc_data 1 0 3 0 0, mkImg [None; Some 2047] 0),
                    Some 2047 :: replicate 63 (Some 0))) as ->
      by (by vm_compute)
  end.
  cbn [mbind option_bind].
  assert (reorder (dequantize (Some 2047 :: replicate 63 (Some 0)) test_quantTable)
          = dc_only 32752) as -> by (by vm_compute).
  unfold idctFn. rewrite idct_dc_only;
    [| done | by exists false; vm_compute; eauto].
  by vm_compute.
Qed.

(** The samples of a data unit are not bytes: here they are 4222, whatever
    the transform chosen. *)
Lemma naive_samples_exceed_a_byte :
  cos_admissible cos_grid
  /\ forall ty,
       (decodeDataUnit cos_grid ty (newReader big_dc_data, img1) None 1
          dc_table_11 ac_table_eob test_quantTable ≫= fun x => Some x.1.1)
       = Some (replicate 64 (Some 4222)).
Proof.
  split; [exact cos_grid_admissible |]. intros ty. by destruct ty; vm_compute.
Qed.

(** Whatever [idctType] is, and with the cache not yet built or as
    [initIDCTCache] builds it, [idctFn] returns the samples of the naive
    transform. *)
Lemma idctFn_idct cos ty cache coeffs :
  cache = None \/ cache = Some (initIDCTCache cos) ->
  (idctFn cos ty cache coeffs).1 = idct cos coeffs.
Proof.
  intros Hcache. destruct ty; cbn [idctFn fst]; [reflexivity | | reflexivity].
  destruct Hcache as [-> | ->]; [apply idctCached_idct |].
  rewrite <- (idctCached_idct cos coeffs). unfold idctCached.
  cbn [default from_option]. reflexivity.
Qed.

(** [levelShift] takes the samples from -128 .. 127 to the bytes, and no
    other sample to a byte. *)
Lemma levelShift_byte block i : is_byte (levelShift block) i <-> centered block i.
Proof.
  unfold is_byte, centered, JS.get, levelShift.
  destruct (i <? 0); [by split; intros (v & ? & _) |].
  rewrite list_lookup_fmap.
  destruct (block !! Z.to_nat i) as [[x |] |]; cbn;
    try by split; intros (v & ? & _).
  split.
  - intros (v & [= <-] & Hv). exists x. split; [done | lia].
  - intros (v & [= <-] & Hv). exists (x + 128). split; [done | lia].
Qed.

(** C6, amended: whatever transform is chosen, the block that
    [decodeDataUnit] returns is the block of the naive transform (computed
    by [idct], or by [idctCached] from the cached cosines) with 128 added to
    every sample. Nothing on this way clamps, so a sample of the data unit
    is a byte exactly when the sample of the transform is in -128 .. 127.
    Only [idctChenWang], which [decodeDataUnit] does not call, clamps: with
    128 added, each of its 64 samples is a byte, whatever the
    coefficients. *)
Theorem samples_of_a_data_unit (cos : float -> float) (ty : IdctType)
  (s s' : Source) (cache cache' : option (list (list float))) (id : Z)
  (dcTable acTable : HuffDecoder) (quantTable block coeffs : list cell) :
  cache = None \/ cache = Some (initIDCTCache cos) ->
  decodeDataUnit cos ty s cache id dcTable acTable quantTable
  = Some (block, s', cache') ->
  (exists dc s1 zz,
     decodeDCCoeff s id dcTable = Some (dc, s1)
     /\ decodeACCoeffs (s1.1, set_dcpred s1.2 (JS.set (dcpred s1.2) id dc))
          (JS.set (replicate 64 (Some 0)) 0 dc) acTable
        = Some (s', zz)
     /\ block = levelShift (idct cos (reorder (dequantize zz quantTable)))
     /\ forall i,
          is_byte block i
          <-> centered (idct cos (reorder (dequantize zz quantTable))) i)
  /\ forall i, 0 <= i < 64 -> is_byte (levelShift (idctChenWang coeffs)) i.
Proof.
  intros Hcache Hdu. split.
  - revert Hdu. unfold decodeDataUnit.
    destruct (decodeDCCoeff s id dcTable) as [[dc s1] |];
      cbn [mbind option_bind]; [| done].
    assert (JS.get (JS.set (replicate 64 (Some 0)) 0 dc) 0 = dc) as ->
      by (by rewrite get_set).
    destruct (decodeACCoeffs _ _ acTable) as [[s2 zz] |] eqn:Hac;
      cbn [mbind option_bind]; [| done].
    pose proof (idctFn_idct cos ty cache (reorder (dequantize zz quantTable))
                  Hcache) as Hfn.
    destruct (idctFn cos ty cache (reorder (dequantize zz quantTable)))
      as [blk cch].
    cbn [fst] in Hfn. cbv beta iota zeta.
    remember (levelShift blk) as B eqn:HB.
    intros [= <- <- _]. subst B blk.
    exists dc, s1, zz. split; [reflexivity |]. split; [exact Hac |].
    split; [reflexivity |]. intros i. apply levelShift_byte.
  - intros i Hi. apply levelShift_byte. by apply idctChenWang_centered.
Qed.

Lemma samples_of_a_data_unit_witness :
  (exists dc s1 zz,
     decodeDCCoeff (newReader big_dc_data, img1) 1 dc_table_11 = Some (dc, s1)
     /\ decodeACCoeffs (s1.1, set_dcpred s1.2 (JS.set (dcpred s1.2) 1 dc))
          (JS.set (replicate 64 (Some 0)) 0 dc) ac_table_eob
        = Some ((mkReader big_dc_data 1 0 3 0 0, mkImg [None; Some 2047] 0), zz)
     /\ replicate 64 (Some 4222)
        = levelShift (idct cos_grid (reorder (dequantize zz test_quantTable)))
     /\ forall i,
          is_byte (replicate 64 (Some 4222)) i
          <-> centered
                (idct cos_grid (reorder (dequantize zz test_quantTable))) i)
  /\ forall i, 0 <= i < 64 ->
               is_byte (levelShift (idctChenWang (dc_only 32752))) i.
Proof.
  apply (samples_of_a_data_unit cos_grid cached (newReader big_dc_data, img1)
           (mkReader big_dc_data 1 0 3 0 0, mkImg [None; Some 2047] 0)
           None (Some (initIDCTCache cos_grid)) 1 dc_table_11 ac_table_eob
           test_quantTable (replicate 64 (Some 4222)) (dc_only 32752));
    [by left | by vm_compute].
Defined.

(** ** The DC predictors *)


















(** * The two Huffman decoders *)

(** ** The bits of a code *)

Lemma shiftr_step w m :
  0 <= m -> Z.shiftr w m = 2 * Z.shiftr w (m + 1) + Z.b2z (Z.testbit w m).
Proof.
  intros Hm. rewrite Z.testbit_odd, <- (Z.shiftr_shiftr w m 1) by lia.
  rewrite <- Z.div2_spec. apply Z.div2_odd.
Qed.

Lemma code_bits_mod n c k :
  (n <= k)%nat -> code_bits n (c mod 2 ^ Z.of_nat k) = code_bits n c.
Proof.
  induction n as [| n IH]; intros Hk; [done |].
  cbn [code_bits]. rewrite IH by lia.
  by rewrite Z.mod_pow2_bits_low by lia.
Qed.

Lemma code_bits_low n m :
  0 <= m < 2 ^ Z.of_nat n ->
  code_bits (S n) m = 0 :: code_bits n m.
Proof.
  intros Hm. cbn [code_bits]. f_equal.
  assert (Z.testbit m (Z.of_nat n) = false) as ->; [| done].
  apply Z.testbit_false; [lia |]. by rewrite Z.div_small.
Qed.

Lemma code_bits_high n m :
  0 <= m < 2 ^ Z.of_nat n ->
  code_bits (S n) (2 ^ Z.of_nat n + m) = 1 :: code_bits n m.
Proof.
  intros Hm. cbn [code_bits]. f_equal.
  - assert (Z.testbit (2 ^ Z.of_nat n + m) (Z.of_nat n) = true) as ->; [| done].
    apply Z.testbit_true; [lia |].
    replace (2 ^ Z.of_nat n + m) with (m + 1 * 2 ^ Z.of_nat n) by lia.
    rewrite Z.div_add by lia. by rewrite Z.div_small.
  - rewrite <- (code_bits_mod n (2 ^ Z.of_nat n + m) n) by lia.
    replace (2 ^ Z.of_nat n + m) with (m + 1 * 2 ^ Z.of_nat n) by lia.
    rewrite Z.mod_add by lia. by apply code_bits_mod.
Qed.

(** ** The tree *)

Lemma Canon_range lvl n m t : Canon lvl n m t -> 0 <= m <= 2 ^ Z.of_nat n.
Proof.
  induction 1 as [lvl n | lvl n v | lvl n ml mr l r _ IHl _ IHr Hml Hmr].
  - split; [done | apply Z.pow_nonneg; lia].
  - split; [apply Z.pow_nonneg |]; lia.
  - rewrite Nat2Z.inj_succ, Z.pow_succ_r by lia. lia.
Qed.

Lemma Canon_level lvl n m t : Canon lvl n m t -> level t = lvl.
Proof. by destruct 1. Qed.

(** A place one level further down is two places. *)
Lemma Canon_lift lvl n m t : Canon lvl n m t -> Canon lvl (S n) (2 * m) t.
Proof.
  induction 1 as [lvl n | lvl n v | lvl n ml mr l r _ IHl _ IHr Hml Hmr].
  - apply Canon_fresh.
  - replace (2 * 2 ^ Z.of_nat n) with (2 ^ Z.of_nat (S n)); [apply Canon_leaf |].
    by rewrite Nat2Z.inj_succ, Z.pow_succ_r by lia.
  - replace (2 * (ml + mr)) with (2 * ml + 2 * mr) by lia.
    apply Canon_node; [done | done | lia |].
    intros H. rewrite Nat2Z.inj_succ, Z.pow_succ_r by lia. lia.
Qed.

Lemma At_Undefined p v : ~ At p Undefined v.
Proof. induction p as [| b p IH]; cbn; [done | by intros [_ ?]]. Qed.

Lemma At_fresh lvl p v : ~ At p (HuffNode lvl None Undefined Undefined) v.
Proof.
  destruct p as [| b p]; cbn; [done |]. intros [_ H].
  destruct (b =? 0), (b =? 1); by apply At_Undefined in H.
Qed.

Lemma At_left lvl l l' r p w :
  (forall p w, At p l w -> At p l' w) ->
  At p (HuffNode lvl None l r) w -> At p (HuffNode lvl None l' r) w.
Proof.
  intros Hl. destruct p as [| b p]; cbn; [done |].
  intros [_ H]. split; [done |]. destruct (b =? 0); [by apply Hl | done].
Qed.

Lemma At_right lvl l r r' p w :
  (forall p w, At p r w -> At p r' w) ->
  At p (HuffNode lvl None l r) w -> At p (HuffNode lvl None l r') w.
Proof.
  intros Hr. destruct p as [| b p]; cbn; [done |].
  intros [_ H]. split; [done |].
  destruct (b =? 0); [done |]. destruct (b =? 1); [by apply Hr | done].
Qed.

(** [insertCode] at the depth of the places: on a node whose places are all
    taken it returns false and leaves the tree as it is; otherwise it puts
    the value on the first free place, the one the bits of [m] lead to, and
    the values there were stay where they were. *)
Lemma insertCode_rec_canon n : forall lvl m t fuel v,
  Canon lvl n m t -> (n < fuel)%nat ->
  (m = 2 ^ Z.of_nat n ->
   insertCode_rec fuel t (lvl + Z.of_nat n) v = Some (false, t))
  /\ (m < 2 ^ Z.of_nat n ->
      exists t',
        insertCode_rec fuel t (lvl + Z.of_nat n) v = Some (true, t')
        /\ Canon lvl n (m + 1) t'
        /\ (forall p w, At p t w -> At p t' w)
        /\ At (code_bits n m) t' v).
Proof.
  induction n as [| n IH]; intros lvl m t fuel v HC Hf;
    (destruct fuel as [| fuel]; [lia |]).
  - inversion HC as [lvl' n' | lvl' n' v' |]; subst.
    + split; [done |]. intros _.
      exists (HuffNode lvl (Some v) Undefined Undefined).
      cbn [insertCode_rec]. rewrite bool_decide_eq_false_2 by (by intros []).
      change (Z.of_nat 0) with 0. rewrite Z.add_0_r, Z.eqb_refl.
      split; [done |]. split; [apply (Canon_leaf lvl 0) |].
      split; [| done]. intros p w H. by apply At_fresh in H.
    + split; [| change (2 ^ Z.of_nat 0) with 1; lia]. intros _.
      cbn [insertCode_rec]. by rewrite bool_decide_eq_true_2.
  - assert (lvl + Z.of_nat (S n) = lvl + 1 + Z.of_nat n) as Hlen by lia.
    assert (2 ^ Z.of_nat (S n) = 2 * 2 ^ Z.of_nat n) as Hpow
        by (by rewrite Nat2Z.inj_succ, Z.pow_succ_r by lia).
    assert (0 < 2 ^ Z.of_nat n) as Hpos by (apply Z.pow_pos_nonneg; lia).
    assert ((lvl + Z.of_nat (S n) =? lvl) = false) as Hne
        by (apply Z.eqb_neq; lia).
    inversion HC as [lvl' n' | lvl' n' v' | lvl' n' ml mr l r Hl Hr Hml Hmr];
      subst.
    + split; [lia |]. intros _.
      destruct (IH (lvl + 1) 0 (newHuffTree (lvl + 1)) fuel v
                  (Canon_fresh _ _) ltac:(lia)) as [_ Hins].
      destruct (Hins Hpos) as (l' & Hl' & HCl & _ & Hat).
      exists (HuffNode lvl None l' (newHuffTree (lvl + 1))).
      cbn [insertCode_rec]. rewrite bool_decide_eq_false_2 by (by intros []).
      rewrite Hne, Hlen, Hl'. split; [done |]. split.
      * change (0 + 1) with (1 + 0). apply Canon_node; [done | | lia | lia].
        apply Canon_fresh.
      * split; [intros p w H; by apply At_fresh in H |].
        rewrite code_bits_low by lia. cbn. by split.
    + split; [| lia]. intros _.
      cbn [insertCode_rec]. by rewrite bool_decide_eq_true_2.
    + pose proof (Canon_range _ _ _ _ Hl) as Hrl.
      pose proof (Canon_range _ _ _ _ Hr) as Hrr.
      assert (exists lv ld ll lr, l = HuffNode lv ld ll lr) as (lv & ld & ll & lr & El)
          by (inversion Hl; eauto).
      cbn [insertCode_rec]. rewrite bool_decide_eq_false_2 by (by intros []).
      rewrite Hne, Hlen.
      destruct (IH (lvl + 1) ml l fuel v Hl ltac:(lia)) as [Hlfull Hlfree].
      destruct (IH (lvl + 1) mr r fuel v Hr ltac:(lia)) as [Hrfull Hrfree].
      destruct (Z.eq_dec ml (2 ^ Z.of_nat n)) as [Eml | Nml].
      * rewrite (Hlfull Eml). split.
        -- intros Hm. rewrite Hrfull by lia. by rewrite El.
        -- intros Hm. destruct Hrfree as (r' & Hr' & HCr & Hkeep & Hat); [lia |].
           exists (HuffNode lvl None l r'). rewrite Hr'.
           split; [by rewrite El |]. split.
           { replace (ml + mr + 1) with (ml + (mr + 1)) by lia.
             apply Canon_node; [done | done | lia | done]. }
           split; [intros p w; by apply At_right |].
           rewrite Eml, code_bits_high by lia. cbn. by split.
      * assert (mr = 0) as -> by lia.
        destruct Hlfree as (l' & Hl' & HCl & Hkeep & Hat); [lia |].
        rewrite Hl'. split; [lia |]. intros _.
        exists (HuffNode lvl None l' r). split; [by rewrite El |]. split.
        { replace (ml + 0 + 1) with (ml + 1 + 0) by lia.
          apply Canon_node; [done | done | lia | lia]. }
        split; [intros p w; by apply At_left |].
        rewrite Z.add_0_r, code_bits_low by lia. cbn. by split.
Qed.

Lemma tree_insertCodes a n : forall code t vals,
  Canon 0 a code t -> code + Z.of_nat n <= 2 ^ Z.of_nat a ->
  (n <= length vals)%nat ->
  exists t',
    insertCodes (TreeDecoder t) (Z.of_nat a) n vals
    = Some (TreeDecoder t', drop n vals)
    /\ Canon 0 a (code + Z.of_nat n) t'
    /\ (forall p w, At p t w -> At p t' w)
    /\ (forall j v, (j < n)%nat -> vals !! j = Some v ->
          At (code_bits a (code + Z.of_nat j)) t' v).
Proof.
  induction n as [| n IH]; intros code t vals HC Hfit Hlen.
  - exists t. cbn [insertCodes]. rewrite Z.add_0_r.
    split; [done |]. split; [done |]. split; [done |]. intros; lia.
  - destruct vals as [| v vals]; [cbn in Hlen; lia |].
    cbn [length] in Hlen.
    destruct (insertCode_rec_canon a 0 code t (S a) v HC ltac:(lia))
      as [_ Hins].
    destruct Hins as (t1 & Hins & HC1 & Hkeep1 & Hat1); [lia |].
    destruct (IH (code + 1) t1 vals HC1 ltac:(lia) ltac:(lia))
      as (t' & Hrest & HC' & Hkeep & Hat).
    exists t'. cbn [insertCodes insertCode]. unfold tree_insertCode.
    rewrite (Canon_level _ _ _ _ HC), Z.sub_0_r, Nat2Z.id.
    rewrite Z.add_0_l in Hins. rewrite Hins. cbn [mbind option_bind].
    rewrite Hrest. split; [done |]. split.
    { by replace (code + Z.of_nat (S n)) with (code + 1 + Z.of_nat n) by lia. }
    split; [by auto |]. intros [| j] w Hj Hw.
    + cbn in Hw. injection Hw as <-. rewrite Z.add_0_r. by apply Hkeep.
    + replace (code + Z.of_nat (S j)) with (code + 1 + Z.of_nat j) by lia.
      apply Hat; [lia | done].
Qed.

(** ** The canonical codes *)

Lemma canonical_cons c cs a code :
  canonical (c :: cs) a code
  = map (fun j => (a, code + Z.of_nat j)) (seq 0 (Z.to_nat c))
    ++ canonical cs (S a) (2 * (code + c)).
Proof. done. Qed.

Lemma canonical_lookup_here c cs a code k :
  (k < Z.to_nat c)%nat ->
  canonical (c :: cs) a code !! k = Some (a, code + Z.of_nat k).
Proof.
  intros Hk. rewrite canonical_cons, lookup_app_l
    by (by rewrite length_map, length_seq).
  rewrite list_lookup_fmap, lookup_seq_lt by done. done.
Qed.

Lemma canonical_lookup_further c cs a code k :
  (Z.to_nat c <= k)%nat ->
  canonical (c :: cs) a code !! k
  = canonical cs (S a) (2 * (code + c)) !! (k - Z.to_nat c)%nat.
Proof.
  intros Hk. rewrite canonical_cons, lookup_app_r;
    rewrite length_map, length_seq; done.
Qed.

Lemma counts_of_cons bits a n :
  counts_of bits (lengths_from a (S n))
  = default 0 (JS.get bits (Z.of_nat a))
    :: counts_of bits (lengths_from (S a) n).
Proof. done. Qed.

Lemma lengths_from_cons a n :
  lengths_from a (S n) = Z.of_nat a :: lengths_from (S a) n.
Proof. done. Qed.

Lemma tree_insertLengths bits n : forall a code t vals,
  Canon 0 a code t ->
  fits (counts_of bits (lengths_from a n)) a code ->
  (length (canonical (counts_of bits (lengths_from a n)) a code)
   <= length vals)%nat ->
  exists t',
    insertLengths (TreeDecoder t) (lengths_from a n) bits vals
    = Some (TreeDecoder t',
            drop (length (canonical (counts_of bits (lengths_from a n)) a code))
              vals)
    /\ (forall p w, At p t w -> At p t' w)
    /\ (forall k l w v,
          canonical (counts_of bits (lengths_from a n)) a code !! k
          = Some (l, w) ->
          vals !! k = Some v -> At (code_bits l w) t' v).
Proof.
  induction n as [| n IH]; intros a code t vals HC Hfit Hlen.
  - exists t. cbn. split; [done |]. split; [done |]. intros; done.
  - rewrite counts_of_cons in *. rewrite lengths_from_cons.
    set (c := default 0 (JS.get bits (Z.of_nat a))) in *.
    set (cs := counts_of bits (lengths_from (S a) n)) in *.
    destruct Hfit as (Hc & Hfit1 & Hfit).
    rewrite canonical_cons, length_app, length_map, length_seq in Hlen.
    destruct (tree_insertCodes a (Z.to_nat c) code t vals HC
                ltac:(lia) ltac:(lia)) as (t1 & Hins & HC1 & Hkeep1 & Hat1).
    rewrite Z2Nat.id in HC1 by done.
    destruct (IH (S a) (2 * (code + c)) t1 (drop (Z.to_nat c) vals)
                (Canon_lift _ _ _ _ HC1) Hfit
                ltac:(rewrite length_drop; fold cs; lia))
      as (t' & Hrest & Hkeep & Hat).
    exists t'. cbn [insertLengths]. unfold count. fold c.
    rewrite Hins, Hrest. fold cs. split.
    { rewrite canonical_cons, length_app, length_map, length_seq.
      by rewrite drop_drop. }
    split; [by auto |]. intros k l w v Hk Hv.
    destruct (decide (k < Z.to_nat c)%nat) as [Hlt | Hge].
    + rewrite canonical_lookup_here in Hk by done. injection Hk as <- <-.
      apply Hkeep. by apply Hat1.
    + rewrite canonical_lookup_further in Hk by lia.
      apply (Hat _ _ _ _ Hk). rewrite lookup_drop.
      by replace (Z.to_nat c + (k - Z.to_nat c))%nat with k by lia.
Qed.

(** ** Decoding a codeword *)

Section Codewords.
Context {Src : Type} `{BitSource Src}.

Lemma feeds_app (s s' : Src) p q :
    feeds s (p ++ q) s' <-> exists s1, feeds s p s1 /\ feeds s1 q s'.
  Proof.
    revert s. induction p as [| b p IH]; intros s; cbn [app feeds].
    - split; [by exists s | by intros (? & -> & ?)].
    - split.
      + intros (s1 & Hb & Hrest). apply IH in Hrest as (s2 & ? & ?).
        exists s2. split; [by exists s1 | done].
      + intros (s2 & (s1 & Hb & Hp) & Hq). exists s1. split; [done |].
        apply IH. by exists s2.
  Qed.

Lemma tree_decodeHuffman_unfold (t : HuffTree) (s : Src) :
    tree_decodeHuffman t s
    = match next_bit s with
      | None => None
      | Some (bit, s) =>
          match t with
          | HuffNode _ _ l r =>
              if bit =? 0 then arrive l (tree_decodeHuffman l) s
              else if bit =? 1 then arrive r (tree_decodeHuffman r) s
              else Some (None, s)
          | Undefined => Some (None, s)
          end
      end.
  Proof. by destruct t. Qed.

Lemma arrive_at p : forall t v (s s' : Src),
    At p t v -> feeds s p s' ->
    arrive t (tree_decodeHuffman t) s = Some (Some v, s').
  Proof.
    induction p as [| b p IH]; intros t v s s' Hat Hfeed.
    - cbn in Hat, Hfeed. subst s'. destruct t as [| lvl d l r]; [done |].
      cbn in Hat. subst d. unfold arrive. by rewrite bool_decide_eq_true_2.
    - destruct Hat as [Hd Hat]. destruct Hfeed as (s1 & Hb & Hfeed).
      destruct t as [| lvl d l r]; [by apply At_Undefined in Hat |].
      cbn in Hd. subst d. unfold arrive at 1.
      rewrite bool_decide_eq_false_2 by (by intros []).
      rewrite tree_decodeHuffman_unfold, Hb. cbn [descendNode] in Hat.
      destruct (b =? 0); [by apply IH |].
      destruct (b =? 1); [by apply IH |]. by apply At_Undefined in Hat.
  Qed.

  (** The tree decoder on the bits of a path to a value. *)
Lemma tree_decodeHuffman_at p b t v (s s' : Src) :
    At (b :: p) t v -> feeds s (b :: p) s' ->
    tree_decodeHuffman t s = Some (Some v, s').
  Proof.
    intros Hat Hfeed. rewrite <- (arrive_at (b :: p) t v s s' Hat Hfeed).
    destruct t as [| lvl d l r]; [by apply At_Undefined in Hat |].
    destruct Hat as [Hd _]. cbn in Hd. subst d. unfold arrive.
    by rewrite bool_decide_eq_false_2 by (by intros []).
  Qed.

End Codewords.

(** ** The codes of the array decoder *)

Lemma canonical_range cs : forall a code k l w,
  fits cs a code -> 0 <= code ->
  canonical cs a code !! k = Some (l, w) ->
  (a <= l < a + length cs)%nat
  /\ code * 2 ^ (Z.of_nat l - Z.of_nat a) <= w < 2 ^ Z.of_nat l.
Proof.
  induction cs as [| c cs IH]; intros a code k l w Hfit Hcode Hk; [done |].
  destruct Hfit as (Hc & Hfit1 & Hfit). cbn [length].
  destruct (decide (k < Z.to_nat c)%nat) as [Hlt | Hge].
  - rewrite canonical_lookup_here in Hk by done. injection Hk as <- <-.
    rewrite Z.sub_diag. change (2 ^ 0) with 1. lia.
  - rewrite canonical_lookup_further in Hk by lia.
    destruct (IH _ _ _ _ _ Hfit ltac:(lia) Hk) as [Hl Hw].
    split; [lia |]. split; [| lia].
    replace (Z.of_nat l - Z.of_nat a) with (Z.succ (Z.of_nat l - Z.of_nat (S a)))
      by lia.
    rewrite Z.pow_succ_r by lia.
    assert (0 < 2 ^ (Z.of_nat l - Z.of_nat (S a)))
      by (apply Z.pow_pos_nonneg; lia).
    nia.
Qed.

Lemma map_seq_const {A} (f : nat -> A) (x : A) c : forall st,
  (forall j, f j = x) -> map f (seq st c) = replicate c x.
Proof.
  induction c as [| c IH]; intros st Hf; [done |].
  cbn. by rewrite Hf, IH.
Qed.

Lemma canonical_sizes c cs a code :
  map (fun lc : nat * Z => Z.of_nat lc.1) (canonical (c :: cs) a code)
  = replicate (Z.to_nat c) (Z.of_nat a)
    ++ map (fun lc : nat * Z => Z.of_nat lc.1)
         (canonical cs (S a) (2 * (code + c))).
Proof.
  rewrite canonical_cons, map_app, map_map. f_equal.
  by apply map_seq_const.
Qed.

Lemma canonical_codes c cs a code :
  map snd (canonical (c :: cs) a code)
  = map (fun j => code + Z.of_nat j) (seq 0 (Z.to_nat c))
    ++ map snd (canonical cs (S a) (2 * (code + c))).
Proof. by rewrite canonical_cons, map_app, map_map. Qed.

(** Figure C.1 *)
Lemma gen_huffsize_canonical bits n : forall a code,
  flat_map (fun i => replicate (count bits i) i) (lengths_from a n)
  = map (fun lc : nat * Z => Z.of_nat lc.1)
      (canonical (counts_of bits (lengths_from a n)) a code).
Proof.
  induction n as [| n IH]; intros a code; [done |].
  rewrite counts_of_cons, canonical_sizes, lengths_from_cons.
  cbn [flat_map]. by rewrite (IH (S a) (2 * (code + default 0 (JS.get bits (Z.of_nat a))))).
Qed.

(** The first element of [huffsize] from some length on: the 0 at its end,
    or a length. *)
Lemma huffsize_head cs a code x :
  fits cs a code -> 0 <= code ->
  (map (fun lc : nat * Z => Z.of_nat lc.1) (canonical cs a code) ++ [0])
    !! 0%nat = Some x ->
  (x = 0 /\ canonical cs a code = []) \/ Z.of_nat a <= x.
Proof.
  intros Hfit Hcode. destruct (canonical cs a code) as [| [l w] rest] eqn:E.
  - cbn. intros [= <-]. by left.
  - cbn. intros [= <-]. right.
    destruct (canonical_range cs a code 0 l w Hfit Hcode) as [Hl _];
      [by rewrite E | lia].
Qed.

(** Figure C.2, the inner loop over the codes of one length. *)
Lemma gen_codes_inner_run si rest c : forall code acc,
  rest !! 0%nat <> Some si ->
  gen_codes_inner (replicate c si ++ rest) si code acc
  = (rest, code + Z.of_nat c,
     acc ++ map (fun j => code + Z.of_nat j) (seq 0 c)).
Proof.
  induction c as [| c IH]; intros code acc Hrest.
  - cbn [replicate app seq map]. rewrite Z.add_0_r, app_nil_r.
    destruct rest as [| s rest]; [done |]. cbn [gen_codes_inner].
    destruct (Z.eqb_spec s si) as [-> | ?]; [by destruct Hrest | done].
  - cbn [replicate app gen_codes_inner]. rewrite Z.eqb_refl, IH by done.
    f_equal; [f_equal; lia |]. rewrite <- app_assoc. f_equal.
    cbn [seq map app]. rewrite Z.add_0_r. f_equal.
    rewrite <- seq_shift, map_map. apply map_ext. intros j. lia.
Qed.

(** Figure C.2, the outer loop from the length [a] on. *)
Lemma gen_codes_outer_canonical cs : forall a code acc fuel,
  (1 <= a)%nat -> (a + length cs <= 17)%nat -> 0 <= code ->
  fits cs a code -> (length cs < fuel)%nat ->
  gen_codes_outer fuel
    (map (fun lc : nat * Z => Z.of_nat lc.1) (canonical cs a code) ++ [0])
    (Z.of_nat a) code acc
  = Some (acc ++ map snd (canonical cs a code)).
Proof.
  induction cs as [| c cs IH]; intros a code acc fuel Ha Hlen Hcode Hfit Hfuel;
    (destruct fuel as [| fuel]; [cbn in Hfuel; lia |]).
  - cbn. by rewrite app_nil_r.
  - cbn [length] in Hlen, Hfuel. pose proof Hfit as (Hc & Hfit1 & Hfit').
    cbn [gen_codes_outer]. case_bool_decide as Hhead.
    + destruct (huffsize_head _ _ _ _ Hfit Hcode Hhead) as [[_ ->] | ?];
        [by rewrite app_nil_r | lia].
    + rewrite canonical_sizes, <- app_assoc, gen_codes_inner_run.
      * rewrite Z2Nat.id by done.
        rewrite shl_small; [| lia |].
        -- change (2 ^ 1) with 2.
           replace ((code + c) * 2) with (2 * (code + c)) by lia.
           replace (Z.of_nat a + 1) with (Z.of_nat (S a)) by lia.
           rewrite IH by (done || lia).
           by rewrite canonical_codes, app_assoc.
        -- assert (2 ^ Z.of_nat a <= 2 ^ 16)
             by (apply Z.pow_le_mono_r; lia).
           change (2 ^ 1) with 2. change (2 ^ 31) with 2147483648.
           change (2 ^ 16) with 65536 in *. lia.
      * intros Hx.
        destruct (huffsize_head _ _ _ _ Hfit' ltac:(lia) Hx) as [[? _] | ?]; lia.
Qed.

(** Figure C.2 as [initDecoder] starts it: at the length of the first
    code. *)
Lemma gen_huffcode_canonical cs : forall a,
  (1 <= a)%nat -> (a + length cs <= 17)%nat -> fits cs a 0 ->
  gen_huffcode
    (map (fun lc : nat * Z => Z.of_nat lc.1) (canonical cs a 0) ++ [0])
  = Some (map snd (canonical cs a 0)).
Proof.
  induction cs as [| c cs IH]; intros a Ha Hlen Hfit; [done |].
  cbn [length] in Hlen. pose proof Hfit as (Hc & Hfit1 & Hfit').
  destruct (Z.to_nat c) as [| c'] eqn:Ec.
  - assert (c = 0) as -> by lia.
    assert (canonical (0 :: cs) a 0 = canonical cs (S a) 0) as -> by done.
    apply IH; [lia | lia | done].
  - unfold gen_huffcode. rewrite canonical_sizes at 2. rewrite Ec.
    cbn [replicate app lookup list_lookup default from_option]. unfold id.
    change (S (Z.to_nat NUM_HUFFMAN_LENGTHS)) with 17%nat.
    rewrite gen_codes_outer_canonical; [done | done | | done | done |];
      cbn [length]; lia.
Qed.

(** ** The values of the array decoder *)

Lemma array_insertCodes n : forall a i vals,
  (n <= length vals)%nat ->
  insertCodes (ArrayDecoder a) i n vals
  = Some (ArrayDecoder (mkHuffArray (huffval a ++ take n vals) (huffsize a)
                          (huffcode a) (bits a)),
          drop n vals).
Proof.
  induction n as [| n IH]; intros a i vals Hlen.
  - cbn. rewrite app_nil_r. by destruct a.
  - destruct vals as [| v vals]; [cbn in Hlen; lia |]. cbn [length] in Hlen.
    cbn [insertCodes insertCode array_insertCode]. rewrite IH by lia.
    cbn. by rewrite <- app_assoc.
Qed.

Lemma array_insertLengths bts n : forall a a0 code vals,
  (length (canonical (counts_of bts (lengths_from a n)) a code)
   <= length vals)%nat ->
  insertLengths (ArrayDecoder a0) (lengths_from a n) bts vals
  = Some (ArrayDecoder
            (mkHuffArray
               (huffval a0
                ++ take (length (canonical (counts_of bts (lengths_from a n))
                                   a code)) vals)
               (huffsize a0) (huffcode a0) (bits a0)),
          drop (length (canonical (counts_of bts (lengths_from a n)) a code))
            vals).
Proof.
  induction n as [| n IH]; intros a a0 code vals Hlen.
  - cbn. rewrite app_nil_r. by destruct a0.
  - rewrite counts_of_cons in *. rewrite lengths_from_cons.
    set (c := default 0 (JS.get bts (Z.of_nat a))) in *.
    set (cs := counts_of bts (lengths_from (S a) n)) in *.
    rewrite canonical_cons, length_app, length_map, length_seq in *.
    cbn [insertLengths]. unfold count. fold c.
    rewrite array_insertCodes by lia.
    rewrite (IH (S a) _ (2 * (code + c))) by (rewrite length_drop; fold cs; lia).
    fold cs. cbn [huffval huffsize huffcode bits].
    rewrite drop_drop, <- app_assoc. do 4 f_equal.
    by rewrite take_take_drop.
Qed.

(** ** The tables of the array decoder *)

Lemma set_end {A} (a : list (option A)) n v :
  length a = n -> JS.set a (Z.of_nat n) v = a ++ [v].
Proof.
  intros <-. unfold JS.set.
  destruct (Z.ltb_spec (Z.of_nat (length a)) 0); [lia |].
  rewrite Nat2Z.id. destruct (decide (length a < length a)%nat); [lia |].
  by rewrite Nat.sub_diag.
Qed.

Lemma tables_step_none A T i :
  JS.get (bits A) i = Some 0 ->
  tables_step A T i
  = mkTables (mincode T) (JS.set (maxcode T) i (Some (-1))) (valptr T) (tj T).
Proof. intros Hb. unfold tables_step. by rewrite bool_decide_eq_true_2. Qed.

Lemma tables_step_some A T i c j :
  JS.get (bits A) i = Some c -> 0 < c -> tj T = Some (Z.of_nat j) ->
  tables_step A T i
  = mkTables (JS.set (mincode T) i (huffcode A !! j))
      (JS.set (maxcode T) i (huffcode A !! (j + Z.to_nat (c - 1))%nat))
      (JS.set (valptr T) i (Some (Z.of_nat j)))
      (Some (Z.of_nat (j + Z.to_nat c))).
Proof.
  intros Hb Hc Hj. unfold tables_step.
  rewrite bool_decide_eq_false_2 by (rewrite Hb; intros [=]; lia).
  rewrite Hb, Hj. cbn [JS.cadd JS.csub mbind option_bind].
  destruct (Z.ltb_spec (Z.of_nat j) 0); [lia |].
  destruct (Z.ltb_spec (Z.of_nat j + (c - 1)) 0); [lia |].
  rewrite Nat2Z.id.
  replace (Z.to_nat (Z.of_nat j + (c - 1))) with (j + Z.to_nat (c - 1))%nat
    by lia.
  do 2 f_equal. lia.
Qed.

Lemma gen_tables_canonical A n : forall a code j T,
  Forall (fun i => exists c, JS.get (bits A) i = Some c /\ 0 <= c)
    (lengths_from a n) ->
  drop j (huffcode A)
  = map snd (canonical (counts_of (bits A) (lengths_from a n)) a code) ->
  length (maxcode T) = a -> tj T = Some (Z.of_nat j) ->
  maxcode (fold_left (tables_step A) (lengths_from a n) T)
  = maxcode T ++ maxcodes (counts_of (bits A) (lengths_from a n)) code
  /\ (forall i, i < Z.of_nat a ->
        JS.get (mincode (fold_left (tables_step A) (lengths_from a n) T)) i
        = JS.get (mincode T) i
        /\ JS.get (valptr (fold_left (tables_step A) (lengths_from a n) T)) i
           = JS.get (valptr T) i)
  /\ (forall k l w,
        canonical (counts_of (bits A) (lengths_from a n)) a code !! k
        = Some (l, w) ->
        exists vp mn,
          JS.get (valptr (fold_left (tables_step A) (lengths_from a n) T))
            (Z.of_nat l) = Some vp
          /\ JS.get (mincode (fold_left (tables_step A) (lengths_from a n) T))
               (Z.of_nat l) = Some mn
          /\ vp + (w - mn) = Z.of_nat j + Z.of_nat k).
Proof.
  induction n as [| n IH]; intros a code j T Hgood Hhc Hlen Hj.
  - cbn. rewrite app_nil_r. split; [done |]. split; [done |]. intros; done.
  - rewrite counts_of_cons in *. rewrite lengths_from_cons in *.
    apply Forall_cons in Hgood as [(c & Hb & Hc) Hgood].
    rewrite Hb in *. cbn [default from_option] in *. unfold id in *.
    set (cs := counts_of (bits A) (lengths_from (S a) n)) in *.
    cbn [fold_left].
    set (T1 := tables_step A T (Z.of_nat a)).
    assert (maxcode T1
            = maxcode T ++ [Some (if c =? 0 then -1 else code + c - 1)]
            /\ tj T1 = Some (Z.of_nat (j + Z.to_nat c))
            /\ (forall i, i < Z.of_nat a ->
                  JS.get (mincode T1) i = JS.get (mincode T) i
                  /\ JS.get (valptr T1) i = JS.get (valptr T) i)
            /\ (0 < c -> JS.get (valptr T1) (Z.of_nat a) = Some (Z.of_nat j)
                         /\ JS.get (mincode T1) (Z.of_nat a) = Some code))
      as (Hmx1 & Hj1 & Hframe1 & Hhere).
    { subst T1. destruct (Z.eqb_spec c 0) as [-> | Hne].
      - rewrite tables_step_none by done. cbn [maxcode tj mincode valptr].
        rewrite (set_end _ _ _ Hlen), Hj, Nat.add_0_r.
        split; [done |]. split; [done |]. split; [done | lia].
      - rewrite (tables_step_some A T _ c j) by (done || lia).
        cbn [maxcode tj mincode valptr].
        rewrite (set_end _ _ _ Hlen).
        assert (forall x, (x < Z.to_nat c)%nat ->
                  huffcode A !! (j + x)%nat = Some (code + Z.of_nat x)) as Hcode.
        { intros x Hx. rewrite <- lookup_drop, Hhc, canonical_codes.
          rewrite lookup_app_l by (by rewrite length_map, length_seq).
          by rewrite list_lookup_fmap, lookup_seq_lt. }
        rewrite (Hcode (Z.to_nat (c - 1))) by lia.
        replace (code + Z.of_nat (Z.to_nat (c - 1))) with (code + c - 1) by lia.
        split; [done |]. split; [done |]. split.
        + intros i Hi. rewrite !get_set.
          destruct (Z.eqb_spec i (Z.of_nat a)); [lia | done].
        + intros _. rewrite !get_set, Z.eqb_refl.
          destruct (Z.leb_spec 0 (Z.of_nat a)); [| lia]. cbn [andb].
          rewrite <- (Nat.add_0_r j), (Hcode 0%nat) by lia.
          by rewrite Z.add_0_r. }
    destruct (IH (S a) (2 * (code + c)) (j + Z.to_nat c)%nat T1 Hgood)
      as (Hmx & Hframe & Hval).
    { rewrite <- drop_drop, Hhc, canonical_codes.
      rewrite drop_app_length'; [done |]. by rewrite length_map, length_seq. }
    { rewrite Hmx1, length_app. cbn. lia. }
    { done. }
    fold cs in Hmx, Hframe, Hval. split; [| split].
    + rewrite Hmx, Hmx1, <- app_assoc. done.
    + intros i Hi. destruct (Hframe i ltac:(lia)) as [-> ->]. by apply Hframe1.
    + intros k l w Hk.
      destruct (decide (k < Z.to_nat c)%nat) as [Hlt | Hge].
      * rewrite canonical_lookup_here in Hk by done. injection Hk as <- <-.
        destruct (Hframe (Z.of_nat a) ltac:(lia)) as [-> ->].
        destruct Hhere as [-> ->]; [lia |].
        exists (Z.of_nat j), code. split; [done |]. split; [done | lia].
      * rewrite canonical_lookup_further in Hk by lia.
        destruct (Hval _ _ _ Hk) as (vp & mn & Hvp & Hmn & Hsum).
        exists vp, mn. split; [done |]. split; [done | lia].
Qed.

Section ArrayCodewords.
Context {Src : Type} `{BitSource Src}.

  (** The loop of the array decoder on the bits of a codeword that are left
      when the first [a] have been read. *)
Lemma array_loop_canonical cs : forall a code0 k l w (s s' : Src),
    fits cs a code0 -> 0 <= code0 -> (a + length cs <= 17)%nat ->
    canonical cs a code0 !! k = Some (l, w) ->
    feeds s (code_bits (l - a) w) s' ->
    array_loop (maxcodes cs code0) (Z.of_nat a)
      (Z.shiftr w (Z.of_nat (l - a))) s
    = Some (Z.of_nat l, w, s').
  Proof.
    induction cs as [| c cs IH]; intros a code0 k l w s s' Hfit Hcode Hlen Hk
      Hfeed; [done |].
    pose proof Hfit as (Hc & Hfit1 & Hfit'). cbn [length] in Hlen.
    cbn [maxcodes array_loop].
    destruct (decide (k < Z.to_nat c)%nat) as [Hlt | Hge].
    - rewrite canonical_lookup_here in Hk by done. injection Hk as <- <-.
      rewrite Nat.sub_diag in *. cbn in Hfeed. subst s'.
      rewrite Z.shiftr_0_r.
      destruct (Z.eqb_spec c 0); [lia |].
      destruct (Z.gtb_spec (code0 + Z.of_nat k) (code0 + c - 1)); [lia | done].
    - rewrite canonical_lookup_further in Hk by lia.
      destruct (canonical_range _ _ _ _ _ _ Hfit' ltac:(lia) Hk) as [Hl Hw].
      replace (l - a)%nat with (S (l - S a)) in * by lia.
      cbn [code_bits] in Hfeed. destruct Hfeed as (s1 & Hb & Hfeed).
      set (m := Z.of_nat (l - S a)) in *.
      assert (0 < 2 ^ m) as Hpm by (apply Z.pow_pos_nonneg; lia).
      assert (2 ^ Z.of_nat l <= 2 ^ 16) as Hpl
          by (apply Z.pow_le_mono_r; lia).
      change (2 ^ 16) with 65536 in Hpl.
      assert (code0 + c <= Z.shiftr w (Z.of_nat (S (l - S a)))
              /\ Z.shiftr w (Z.of_nat (S (l - S a))) <= w) as [Hpre Hprew].
      { rewrite Z.shiftr_div_pow2 by lia.
        replace (Z.of_nat (S (l - S a))) with (Z.succ m) by lia.
        rewrite Z.pow_succ_r by lia.
        replace (Z.of_nat l - Z.of_nat (S a)) with m in Hw by lia.
        split.
        - apply Z.div_le_lower_bound; lia.
        - apply Z.div_le_upper_bound; nia. }
      assert ((Z.shiftr w (Z.of_nat (S (l - S a)))
               >? (if c =? 0 then -1 else code0 + c - 1)) = true) as ->.
      { apply Z.gtb_lt. destruct (c =? 0); lia. }
      rewrite Hb. rewrite shl_small;
        [| lia | change (2 ^ 1) with 2; change (2 ^ 31) with 2147483648; lia].
      change (2 ^ 1) with 2.
      replace (Z.shiftr w (Z.of_nat (S (l - S a))) * 2
               + Z.b2z (Z.testbit w m)) with (Z.shiftr w m).
      + replace (Z.of_nat a + 1) with (Z.of_nat (S a)) by lia.
        by apply (IH (S a) (2 * (code0 + c)) (k - Z.to_nat c)%nat);
          [done | lia | lia | done | done].
      + rewrite (shiftr_step w m) by lia.
        replace (Z.of_nat (S (l - S a))) with (m + 1) by lia. lia.
  Qed.

End ArrayCodewords.

Lemma lengths_eq : lengths = lengths_from 1 16.
Proof. done. Qed.

Lemma fold_left_cons {A B} (f : A -> B -> A) x l a :
  fold_left f (x :: l) a = fold_left f l (f a x).
Proof. reflexivity. Qed.

Lemma set_one (v : cell) : JS.set [] 1 v = JS.set [None] 1 v.
Proof. reflexivity. Qed.

Lemma gen_tables_start A :
  gen_tables A
  = fold_left (tables_step A) (lengths_from 1 16)
      (mkTables [] [None] [] (Some 0)).
Proof.
  unfold gen_tables. rewrite lengths_eq, !(lengths_from_cons 1 15).
  rewrite !fold_left_cons. change (Z.of_nat 1) with 1.
  assert (tables_step A (mkTables [] [] [] (Some 0)) 1
          = tables_step A (mkTables [] [None] [] (Some 0)) 1) as ->;
    [| reflexivity].
  unfold tables_step. cbn [mincode maxcode valptr tj].
  by rewrite !set_one.
Qed.

Lemma first_bit l w :
  0 <= w < 2 ^ Z.of_nat (S l) ->
  Z.b2z (Z.testbit w (Z.of_nat l)) = Z.shiftr w (Z.of_nat l).
Proof.
  intros Hw. rewrite (shiftr_step w (Z.of_nat l)) by lia.
  rewrite (Z.shiftr_div_pow2 w (Z.of_nat l + 1)) by lia.
  replace (Z.of_nat l + 1) with (Z.of_nat (S l)) by lia.
  rewrite Z.div_small by done. lia.
Qed.

Section ArrayDecode.
Context {Src : Type} `{BitSource Src}.

  (** The array decoder on the bits of the codeword of the value [k]. *)
Lemma array_decodeHuffman_codeword A k l w (s s' : Src) :
    Forall (fun i => exists c, JS.get (bits A) i = Some c /\ 0 <= c)
      (lengths_from 1 16) ->
    huffcode A
    = map snd (canonical (counts_of (bits A) (lengths_from 1 16)) 1 0) ->
    fits (counts_of (bits A) (lengths_from 1 16)) 1 0 ->
    canonical (counts_of (bits A) (lengths_from 1 16)) 1 0 !! k
    = Some (l, w) ->
    feeds s (code_bits l w) s' ->
    array_decodeHuffman A s = Some (huffval A !! k, s').
  Proof.
    intros Hgood Hhc Hfit Hk Hfeed.
    destruct (canonical_range _ _ _ _ _ _ Hfit ltac:(lia) Hk) as [Hl Hw].
    assert (length (counts_of (bits A) (lengths_from 1 16)) = 16%nat) as Hlen
        by done.
    destruct (gen_tables_canonical A 16 1 0 0 (mkTables [] [None] [] (Some 0))
                Hgood Hhc eq_refl eq_refl) as (Hmx & _ & Hval).
    destruct (Hval _ _ _ Hk) as (vp & mn & Hvp & Hmn & Hsum).
    unfold array_decodeHuffman. rewrite gen_tables_start, Hmx.
    destruct l as [| l]; [lia |].
    cbn [code_bits] in Hfeed. destruct Hfeed as (s1 & Hb & Hfeed).
    rewrite Hb. cbn [mbind option_bind maxcode app drop].
    rewrite first_bit by lia.
    pose proof (array_loop_canonical _ 1 0 k (S l) w s1 s' Hfit
                  ltac:(lia) ltac:(lia) Hk) as Hloop.
    replace (S l - 1)%nat with l in Hloop by lia.
    change (Z.of_nat 1) with 1 in Hloop. rewrite drop_0, (Hloop Hfeed).
    cbn [mbind option_bind]. rewrite Hvp, Hmn.
    cbn [JS.cadd JS.csub mbind option_bind]. rewrite Hsum.
    destruct (Z.ltb_spec (Z.of_nat 0 + Z.of_nat k) 0); [lia |].
    by replace (Z.to_nat (Z.of_nat 0 + Z.of_nat k)) with k by lia.
  Qed.

End ArrayDecode.

(** ** Valid tables *)

Lemma kraft_grows cs : forall m,
  Forall (fun c => 0 <= c) cs -> 0 <= m ->
  m * 2 ^ Z.of_nat (length cs) <= fold_left (fun m c => 2 * m + c) cs m.
Proof.
  induction cs as [| c cs IH]; intros m Hcs Hm.
  - cbn. lia.
  - apply Forall_cons in Hcs as [Hc Hcs]. cbn [fold_left length].
    specialize (IH (2 * m + c) Hcs ltac:(lia)).
    rewrite Nat2Z.inj_succ, Z.pow_succ_r by lia.
    assert (0 < 2 ^ Z.of_nat (length cs)) by (apply Z.pow_pos_nonneg; lia).
    nia.
Qed.

Lemma fits_of_kraft cs : forall a m,
  Forall (fun c => 0 <= c) cs -> 0 <= m -> (1 <= a)%nat ->
  fold_left (fun m c => 2 * m + c) cs m
  <= 2 ^ (Z.of_nat a - 1 + Z.of_nat (length cs)) ->
  fits cs a (2 * m).
Proof.
  induction cs as [| c cs IH]; intros a m Hcs Hm Ha Hk; [done |].
  pose proof Hcs as Hcs'. apply Forall_cons in Hcs' as [Hc Hcs'].
  cbn [fold_left length] in Hk.
  pose proof (kraft_grows cs (2 * m + c) Hcs' ltac:(lia)) as Hg.
  replace (Z.of_nat a - 1 + Z.of_nat (S (length cs)))
    with (Z.of_nat a + Z.of_nat (length cs)) in Hk by lia.
  rewrite Z.pow_add_r in Hk by lia.
  assert (0 < 2 ^ Z.of_nat (length cs)) by (apply Z.pow_pos_nonneg; lia).
  cbn [fits]. split; [done |]. split; [nia |].
  apply IH; [done | lia | lia |].
  replace (Z.of_nat (S a) - 1 + Z.of_nat (length cs))
    with (Z.of_nat a + Z.of_nat (length cs)) by lia.
  by rewrite Z.pow_add_r by lia.
Qed.

Lemma canonical_length cs : forall a code,
  Forall (fun c => 0 <= c) cs ->
  length (canonical cs a code) = Z.to_nat (foldr Z.add 0 cs).
Proof.
  induction cs as [| c cs IH]; intros a code Hcs; [done |].
  apply Forall_cons in Hcs as [Hc Hcs].
  rewrite canonical_cons, length_app, length_map, length_seq, IH by done.
  cbn [foldr]. assert (0 <= foldr Z.add 0 cs); [| lia].
  clear IH. induction Hcs; cbn; lia.
Qed.

Lemma counts_of_bits counts :
  length counts = 16%nat ->
  counts_of (None :: map Some counts) (lengths_from 1 16) = counts.
Proof.
  intros Hlen. do 16 (destruct counts as [| ? counts]; [done |]).
  destruct counts; [reflexivity | done].
Qed.

Lemma bits_good counts :
  length counts = 16%nat -> Forall (fun c => 0 <= c) counts ->
  Forall (fun i => exists c, JS.get (None :: map Some counts) i = Some c
                             /\ 0 <= c)
    (lengths_from 1 16).
Proof.
  intros Hlen Hcs.
  do 16 (destruct counts as [| ? counts]; [done |]).
  destruct counts; [| done].
  repeat (apply Forall_cons in Hcs as [? Hcs]).
  unfold lengths_from. cbn [seq map].
  repeat (apply Forall_cons; split; [eexists; split; [reflexivity | done] |]).
  apply Forall_nil_2.
Qed.

(** ** The two decoders of a table *)

(** [parseHuffmanTable] with the tree: every value is where the bits of its
    code lead. *)
Lemma loadTable_tree counts vals :
  valid_table counts vals ->
  exists t,
    loadTable (TreeDecoder (newHuffTree 0)) (None :: map Some counts) vals
    = Some (TreeDecoder t)
    /\ forall k l w v,
         canonical counts 1 0 !! k = Some (l, w) -> vals !! k = Some v ->
         At (code_bits l w) t v.
Proof.
  intros (Hlen & Hcs & Hkraft & Hvals).
  pose proof (tree_insertLengths (None :: map Some counts) 16 1 0
                (newHuffTree 0) vals (Canon_fresh 0 1)) as Hins.
  rewrite counts_of_bits in Hins by done.
  destruct Hins as (t & Hins & _ & Hat).
  - apply (fits_of_kraft counts 1 0); [done | lia | lia |].
    rewrite Hlen. exact Hkraft.
  - rewrite canonical_length by done. lia.
  - exists t. split; [| done]. unfold loadTable.
    cbn [initDecoder mbind option_bind]. rewrite lengths_eq, Hins. done.
Qed.

(** [parseHuffmanTable] with the arrays: [huffsize] and [huffcode] hold the
    lengths and the codes of Annex C, [huffval] the values. *)
Lemma loadTable_array counts vals :
  valid_table counts vals ->
  loadTable (ArrayDecoder newHuffArray) (None :: map Some counts) vals
  = Some (ArrayDecoder
            (mkHuffArray vals
               (map (fun lc : nat * Z => Z.of_nat lc.1) (canonical counts 1 0)
                ++ [0])
               (map snd (canonical counts 1 0))
               (None :: map Some counts))).
Proof.
  intros (Hlen & Hcs & Hkraft & Hvals).
  assert (fits counts 1 0) as Hfit.
  { apply (fits_of_kraft counts 1 0); [done | lia | lia |].
    rewrite Hlen. exact Hkraft. }
  unfold loadTable. cbn [initDecoder]. unfold array_initDecoder, gen_huffsize.
  rewrite lengths_eq, (gen_huffsize_canonical _ 16 1 0), counts_of_bits by done.
  rewrite gen_huffcode_canonical by (done || lia).
  cbn [mbind option_bind fmap option_fmap option_map huffval newHuffArray].
  pose proof (array_insertLengths (None :: map Some counts) 16 1
                (mkHuffArray []
                   (map (fun lc : nat * Z => Z.of_nat lc.1)
                      (canonical counts 1 0) ++ [0])
                   (map snd (canonical counts 1 0))
                   (None :: map Some counts)) 0 vals) as Hins.
  rewrite counts_of_bits in Hins by done.
  rewrite Hins by (rewrite canonical_length by done; lia).
  cbn [huffval huffsize huffcode bits app].
  rewrite canonical_length, <- Hvals, firstn_all by done. done.
Qed.

Section Agreement.
Context {Src : Type} `{BitSource Src}.

  (** A decoder that decodes every codeword decodes their
      concatenations. *)
Lemma decode_all_codewords d counts (vals : list Z) :
    (forall k l w (s s' : Src),
       canonical counts 1 0 !! k = Some (l, w) ->
       feeds s (code_bits l w) s' ->
       decodeHuffman d s = Some (vals !! k, s')) ->
    forall ks (s s' : Src),
      Forall (fun k => (k < length (canonical counts 1 0))%nat) ks ->
      feeds s (encode counts ks) s' ->
      decode_all d (length ks) s = Some (map (fun k => vals !! k) ks, s').
  Proof.
    intros Hdec ks. induction ks as [| k ks IH]; intros s s' Hks Hfeed.
    - cbn in *. by subst.
    - apply Forall_cons in Hks as [Hk Hks].
      destruct (lookup_lt_is_Some_2 _ _ Hk) as [[l w] Hlw].
      unfold encode in Hfeed. cbn [map concat] in Hfeed.
      unfold codewords in Hfeed at 1.
      rewrite list_lookup_fmap, Hlw in Hfeed. cbn in Hfeed.
      apply feeds_app in Hfeed as (s1 & Hfeed1 & Hfeed).
      cbn [length decode_all map].
      rewrite (Hdec _ _ _ _ _ Hlw Hfeed1), (IH s1 s' Hks Hfeed). done.
  Qed.

End Agreement.

Section ReadBits.
Context {Src : Type} `{BitSource Src}.

Lemma feeds_read_bits bs : forall (s s' : Src),
    read_bits s (length bs) = Some (bs, s') -> feeds s bs s'.
  Proof.
    induction bs as [| b bs IH]; intros s s'; cbn [length read_bits feeds].
    - by intros [= ->].
    - destruct (next_bit s) as [[b' s1] |]; [| done].
      destruct (read_bits s1 (length bs)) as [[bs' s2] |] eqn:Hread; [| done].
      intros [= -> -> ->]. exists s1. split; [done |]. by apply IH.
  Qed.

End ReadBits.

(** C1: for a valid table, the sixteen counts [bits[1 .. 16]] with the
    values in the order of their codes, [parseHuffmanTable] builds the
    tree as well as the arrays; and on bits that are codewords of the
    table one after another, those of the values at the places [ks],
    the tree decoder and the array decoder return the same values, the
    values at [ks], and leave the source of the bits in the same state. *)
Theorem tree_and_array_agree {Src : Type} `{BitSource Src}
  (counts vals : list Z) (ks : list nat) (s s' : Src) :
  valid_table counts vals ->
  Forall (fun k => (k < length vals)%nat) ks ->
  feeds s (encode counts ks) s' ->
  exists t a,
    loadTable (TreeDecoder (newHuffTree 0)) (None :: map Some counts) vals
    = Some (TreeDecoder t)
    /\ loadTable (ArrayDecoder newHuffArray) (None :: map Some counts) vals
       = Some (ArrayDecoder a)
    /\ decode_all (TreeDecoder t) (length ks) s
       = Some (map (fun k => vals !! k) ks, s')
    /\ decode_all (ArrayDecoder a) (length ks) s
       = Some (map (fun k => vals !! k) ks, s').
Proof.
  intros Hvalid Hks Hfeed.
  destruct (loadTable_tree counts vals Hvalid) as (t & Htree & Hat).
  pose proof (loadTable_array counts vals Hvalid) as Harray.
  destruct Hvalid as (Hlen & Hcs & Hkraft & Hvals).
  assert (fits counts 1 0) as Hfit.
  { apply (fits_of_kraft counts 1 0); [done | lia | lia |].
    rewrite Hlen. exact Hkraft. }
  assert (length (canonical counts 1 0) = length vals) as Hnum
      by (by rewrite canonical_length, Hvals).
  rewrite <- Hnum in Hks.
  eexists t, _. split; [exact Htree |]. split; [exact Harray |]. split.
  - apply (decode_all_codewords (TreeDecoder t) counts vals);
      [| done | done].
    intros k l w s0 s0' Hk Hbits.
    destruct (canonical_range _ _ _ _ _ _ Hfit ltac:(lia) Hk) as [Hl _].
    destruct (lookup_lt_is_Some_2 vals k) as [v Hv].
    { rewrite <- Hnum. by eapply lookup_lt_Some. }
    rewrite Hv. destruct l as [| l]; [lia |].
    cbn [decodeHuffman].
    apply (tree_decodeHuffman_at (code_bits l w)
             (Z.b2z (Z.testbit w (Z.of_nat l)))); [| done].
    by apply (Hat k (S l) w v).
  - apply (decode_all_codewords _ counts vals); [| done | done].
    intros k l w s0 s0' Hk Hbits. cbn [decodeHuffman].
    rewrite (array_decodeHuffman_codeword _ k l w s0 s0'); cbn [bits huffcode huffval].
    + done.
    + by apply bits_good.
    + by rewrite counts_of_bits.
    + by rewrite counts_of_bits.
    + by rewrite counts_of_bits.
    + done.
Qed.


Lemma tree_and_array_agree_witness :
  exists t a,
    loadTable (TreeDecoder (newHuffTree 0)) (None :: map Some test_counts)
      test_values
    = Some (TreeDecoder t)
    /\ loadTable (ArrayDecoder newHuffArray) (None :: map Some test_counts)
         test_values
       = Some (ArrayDecoder a)
    /\ decode_all (TreeDecoder t) (length (seq 0 12))
         (newReader test_codes, img0)
       = Some (map (fun k => test_values !! k) (seq 0 12),
               (mkReader test_codes 6 248 5 0 0, img0))
    /\ decode_all (ArrayDecoder a) (length (seq 0 12))
         (newReader test_codes, img0)
       = Some (map (fun k => test_values !! k) (seq 0 12),
               (mkReader test_codes 6 248 5 0 0, img0)).
Proof.
  apply (tree_and_array_agree test_counts test_values (seq 0 12)
           (newReader test_codes, img0)
           (mkReader test_codes 6 248 5 0 0, img0)).
  - split; [reflexivity |]. split; [repeat constructor; lia |].
    split; [by vm_compute | reflexivity].
  - repeat constructor; cbn; lia.
  - apply feeds_read_bits. by vm_compute.
Defined.

(** * The rounds of [decodeACCoeffs]

    With symbols whose run length is not negative, as those of the bytes of
    a table are, [k] grows in every round, and the 63 rounds that
    [decodeACCoeffs] is given are all the loop makes: more rounds give the
    same result. *)

Lemma ac_body_advances acTable k s zz k' s' zz' :
  (forall s rs s1, decodeHuffman acTable s = Some (rs, s1) ->
                   0 <= getHighNibble rs) ->
  ac_body acTable k s zz = Some (Next k', s', zz') -> k <= k'.
Proof.
  intros Hsym. unfold ac_body.
  destruct (decodeHuffman acTable s) as [[rs s1] |] eqn:Hdec;
    cbn [mbind option_bind]; [| done].
  specialize (Hsym _ _ _ Hdec).
  destruct (getLowNibble rs =? 0).
  - destruct (getHighNibble rs =? 15); [intros [= <- _ _]; lia |].
    destruct (getHighNibble rs =? 0); [done | intros [= <- _ _]; lia].
  - destruct (receive s1 (Some (getLowNibble rs))) as [[amp s2] |];
      cbn [mbind option_bind]; [| done].
    intros [= <- _ _]. lia.
Qed.

Lemma ac_loop_unfold fuel acTable k s zz :
  ac_loop fuel acTable k s zz
  = if k <? 64 then
      match fuel with
      | O => None
      | S fuel =>
          match ac_body acTable k s zz with
          | Some (Next k, s, zz) => ac_loop fuel acTable (k + 1) s zz
          | Some (Break, s, zz) => Some (s, zz)
          | None => None
          end
      end
    else Some (s, zz).
Proof. by destruct fuel. Qed.

Lemma ac_loop_rounds acTable :
  (forall s rs s1, decodeHuffman acTable s = Some (rs, s1) ->
                   0 <= getHighNibble rs) ->
  forall fuel fuel' k s zz,
    64 - k <= Z.of_nat fuel -> (fuel <= fuel')%nat ->
    ac_loop fuel' acTable k s zz = ac_loop fuel acTable k s zz.
Proof.
  intros Hsym. induction fuel as [| fuel IH]; intros fuel' k s zz Hk Hfuel;
    rewrite (ac_loop_unfold fuel'), (ac_loop_unfold _ acTable k);
    destruct (Z.ltb_spec k 64) as [Hlt | Hge]; try done; [lia |].
  destruct fuel' as [| fuel']; [lia |].
  destruct (ac_body acTable k s zz) as [[[[k1 |] s1] zz1] |] eqn:Hbody;
    [| done | done].
  pose proof (ac_body_advances _ _ _ _ _ _ _ Hsym Hbody).
  apply IH; lia.
Qed.

Lemma decodeACCoeffs_rounds acTable fuel s zz :
  (forall s rs s1, decodeHuffman acTable s = Some (rs, s1) ->
                   0 <= getHighNibble rs) ->
  (63 <= fuel)%nat ->
  ac_loop fuel acTable 1 s zz = decodeACCoeffs s zz acTable.
Proof.
  intros Hsym Hfuel. unfold decodeACCoeffs.
  apply (ac_loop_rounds acTable Hsym 63 fuel); [lia | done].
Qed.

(** * More of the code: the reader *)

(** X1: [nextWord] reads what two calls of [nextByte] read, the first byte
    being the high one, and fails when either byte is outside the buffer;
    the word is below 65536. *)
Theorem nextWord_two_bytes (r : DataViewReader) :
  nextWord r
  = ('(hi, r1) ← nextByte r; '(lo, r2) ← nextByte r1; Some (hi * 256 + lo, r2))
  /\ forall w r', nextWord r = Some (w, r') ->
       0 <= w < 65536 /\ index r' = index r + 2.
Proof.
  assert (nextWord r
          = ('(hi, r1) ← nextByte r; '(lo, r2) ← nextByte r1;
             Some (hi * 256 + lo, r2))) as Heq.
  { unfold nextWord, nextByte, getUint16. cbn [set_index index view].
    destruct (getUint8 (view r) (index r + 1)) as [hi |];
      cbn [mbind option_bind set_index index view]; [| done].
    destruct (getUint8 (view r) (index r + 1 + 1)) as [lo |];
      cbn [mbind option_bind]; done. }
  split; [exact Heq |]. intros w r'. rewrite Heq.
  destruct (nextByte r) as [[hi r1] |] eqn:H1; cbn [mbind option_bind]; [| done].
  destruct (nextByte r1) as [[lo r2] |] eqn:H2; cbn [mbind option_bind]; [| done].
  intros [= <- <-].
  destruct (nextByte_spec _ _ _ H1) as [Hb1 ->].
  destruct (nextByte_spec _ _ _ H2) as [Hb2 ->].
  apply getUint8_range in Hb1, Hb2. cbn [index set_index]. lia.
Qed.

(** X2: for a reader at or after its start, [hasMoreBytes] tells whether
    [nextByte] returns: it is true exactly when the next byte is inside the
    buffer. *)
Theorem hasMoreBytes_nextByte (r : DataViewReader) :
  -1 <= index r ->
  hasMoreBytes r = true <-> is_Some (nextByte r).
Proof.
  intros Hi.
  unfold hasMoreBytes, nextByte, getUint8. cbn [set_index index view].
  destruct (Z.ltb_spec (index r + 1) 0); [lia |].
  destruct (Z.ltb_spec (index r) (Z.of_nat (length (view r)) - 1))
    as [Hlt | Hge].
  - split; [intros _ | done].
    destruct (lookup_lt_is_Some_2 (view r) (Z.to_nat (index r + 1)))
      as [x Hx]; [lia |].
    rewrite Hx. by eexists.
  - split; [done |]. rewrite lookup_ge_None_2 by lia. by intros [? ?].
Qed.

Lemma hasMoreBytes_nextByte_witness :
  hasMoreBytes (newReader [mkByte 171]) = true
  <-> is_Some (nextByte (newReader [mkByte 171])).
Proof. apply (hasMoreBytes_nextByte (newReader [mkByte 171])). cbn. lia. Defined.

(** [peek] returns with at least the bits asked for in the buffer. *)
Lemma peek_loop_filled n : forall fuel r img r' img',
  peek_loop fuel n r img = Some (r', img') -> n <= buffSize r'.
Proof.
  induction fuel as [| fuel IH]; intros r img r' img'; cbn [peek_loop];
    destruct (Z.ltb_spec (buffSize r) n) as [Hlt | Hge];
    try done; try (intros [= <- <-]; lia).
  destruct (negb (hasMoreBytes r)); [apply IH |].
  destruct (nextByte r) as [[b r1] |]; cbn [mbind option_bind]; [| done].
  match goal with
  | |- context [mbind _ ?m] => destruct m as [[r2 img2] |]
  end; cbn [mbind option_bind]; [apply IH | done].
Qed.

Lemma and_mask x m :
  0 <= m <= 30 -> JS.and x (JS.shl 1 m - 1) = JS.toInt32 x mod 2 ^ m.
Proof.
  intros Hm.
  assert (0 < 2 ^ m <= 2 ^ 30) as Hp.
  { split; [apply Z.pow_pos_nonneg; lia | apply Z.pow_le_mono_r; lia]. }
  change (2 ^ 30) with 1073741824 in Hp.
  rewrite shl_small; [| lia | change (2 ^ 31) with 2147483648; lia].
  rewrite Z.mul_1_l. unfold JS.and.
  rewrite (toInt32_id (2 ^ m - 1)) by (change (2 ^ 31) with 2147483648; lia).
  replace (2 ^ m - 1) with (Z.ones m) by (rewrite Z.ones_equiv; lia).
  rewrite Z.land_ones by lia.
  pose proof (Z.mod_pos_bound (JS.toInt32 x) (2 ^ m) ltac:(lia)).
  apply toInt32_id. change (2 ^ 31) with 2147483648. lia.
Qed.

(** X3: [peek] does not consume: the same [peek] again returns the same
    bits and leaves the reader as it is; and after [consumeBits(k)] of the
    [n] bits that [peek] returned, [peek] of the [n - k] bits that are left
    returns them, the low [n - k] bits of the number. *)
Theorem peek_then_consume (r r' : DataViewReader) (img img' : Img) (n k v : Z) :
  0 <= k <= n -> n <= 30 ->
  peek r img n = Some (v, r', img') ->
  0 <= v < 2 ^ n
  /\ peek r' img' n = Some (v, r', img')
  /\ peek (consumeBits r' k) img' (n - k)
     = Some (v mod 2 ^ (n - k), consumeBits r' k, img').
Proof.
  intros Hk Hn. unfold peek.
  destruct (peek_loop (Z.to_nat (n - buffSize r)) n r img) as [[r1 img1] |]
    eqn:Hloop; cbn [mbind option_bind]; [| done].
  intros [= <- <- <-]. apply peek_loop_filled in Hloop.
  rewrite !and_mask by lia.
  assert (0 < 2 ^ n) by (apply Z.pow_pos_nonneg; lia).
  assert (0 < 2 ^ (n - k)) by (apply Z.pow_pos_nonneg; lia).
  split; [apply Z.mod_pos_bound; lia |]. split.
  - rewrite peek_loop_done by done. cbn [mbind option_bind].
    by rewrite and_mask by lia.
  - rewrite peek_loop_done by (cbn; lia). cbn [mbind option_bind].
    rewrite and_mask by lia. cbn [consumeBits set_buffSize buffer buffSize].
    replace (buffSize r1 - k - (n - k)) with (buffSize r1 - n) by lia.
    do 3 f_equal. symmetry. apply Z.mod_mod_divide.
    exists (2 ^ k). rewrite <- Z.pow_add_r by lia. f_equal. lia.
Qed.

Lemma peek_then_consume_witness :
  0 <= 43981 < 2 ^ 16
  /\ peek (mkReader (map mkByte [171; 205; 18]) 1 0 0 43981 16) img0 16
     = Some (43981, mkReader (map mkByte [171; 205; 18]) 1 0 0 43981 16, img0)
  /\ peek (consumeBits (mkReader (map mkByte [171; 205; 18]) 1 0 0 43981 16) 4)
       img0 (16 - 4)
     = Some (43981 mod 2 ^ (16 - 4),
             consumeBits (mkReader (map mkByte [171; 205; 18]) 1 0 0 43981 16) 4,
             img0).
Proof.
  apply (peek_then_consume (newReader (map mkByte [171; 205; 18]))
           (mkReader (map mkByte [171; 205; 18]) 1 0 0 43981 16) img0 img0
           16 4 43981); [lia | lia | by vm_compute].
Defined.


(** * More of the code: the coefficients *)

(** X4: for a length [t] from 1 to 16, [extend] is one-to-one on the [t]
    raw bits, and every number [d] whose magnitude is from [2^(t-1)] to
    [2^t - 1] is the value of [extend] at a raw value: at [d] itself when
    [d] is positive, at [d + 2^t - 1] when it is negative. *)
Theorem extend_one_to_one (t : Z) :
  1 <= t <= 16 ->
  (forall v v', 0 <= v < 2 ^ t -> 0 <= v' < 2 ^ t ->
     extend v (Some t) = extend v' (Some t) -> v = v')
  /\ (forall d, 2 ^ (t - 1) <= Z.abs d < 2 ^ t ->
        let v := if 0 <? d then d else d + 2 ^ t - 1 in
        0 <= v < 2 ^ t /\ extend v (Some t) = d).
Proof.
  intros Ht.
  assert (2 ^ t = 2 * 2 ^ (t - 1)) as Hpow
      by (rewrite <- Z.pow_succ_r by lia; f_equal; lia).
  assert (0 < 2 ^ (t - 1)) by (apply Z.pow_pos_nonneg; lia).
  split.
  - intros v v' Hv Hv'. rewrite !extend_pos by lia.
    destruct (Z.ltb_spec v (2 ^ (t - 1))), (Z.ltb_spec v' (2 ^ (t - 1))); lia.
  - intros d Hd v. subst v. destruct (Z.ltb_spec 0 d).
    + split; [lia |]. rewrite extend_pos by lia.
      destruct (Z.ltb_spec d (2 ^ (t - 1))); lia.
    + split; [lia |]. rewrite extend_pos by lia.
      destruct (Z.ltb_spec (d + 2 ^ t - 1) (2 ^ (t - 1))); lia.
Qed.

Lemma extend_one_to_one_witness :
  (forall v v', 0 <= v < 2 ^ 5 -> 0 <= v' < 2 ^ 5 ->
     extend v (Some 5) = extend v' (Some 5) -> v = v')
  /\ (forall d, 2 ^ (5 - 1) <= Z.abs d < 2 ^ 5 ->
        let v := if 0 <? d then d else d + 2 ^ 5 - 1 in
        0 <= v < 2 ^ 5 /\ extend v (Some 5) = d).
Proof. apply (extend_one_to_one 5). lia. Defined.

(** [ZIGZAG] holds every position of a data unit once. *)
Lemma ZIGZAG_permutation : ZIGZAG ≡ₚ map Z.of_nat (seq 0 64).
Proof.
  assert (bool_decide (ZIGZAG ≡ₚ map Z.of_nat (seq 0 64)) = true) as Hd
      by (by vm_compute).
  by apply bool_decide_eq_true in Hd.
Qed.

(** X5: [reorder] of an array of 64 coefficients returns the same 64
    coefficients in another order, hole for hole and number for number; the
    DC coefficient stays at position 0. *)
Theorem reorder_permutation (coeff : list cell) :
  length coeff = 64%nat ->
  reorder coeff ≡ₚ coeff
  /\ length (reorder coeff) = 64%nat
  /\ JS.get (reorder coeff) 0 = JS.get coeff 0.
Proof.
  intros Hlen.
  assert (reorder coeff = map (fun z => JS.get coeff z) ZIGZAG) as Hmap.
  { unfold reorder. rewrite Hlen.
    apply list_eq. intros i. rewrite !list_lookup_fmap.
    destruct (decide (i < 64)%nat) as [Hi | Hi].
    - rewrite lookup_seq_lt by done. cbn.
      destruct (lookup_lt_is_Some_2 ZIGZAG i) as [z Hz]; [done |].
      by rewrite Hz.
    - rewrite lookup_seq_ge by lia. cbn.
      by rewrite (lookup_ge_None_2 ZIGZAG i) by (cbn; lia). }
  split; [| split].
  - rewrite Hmap, ZIGZAG_permutation, map_map.
    assert (map (fun x => JS.get coeff (Z.of_nat x)) (seq 0 64) = coeff) as ->;
      [| done].
    apply list_eq. intros i. rewrite list_lookup_fmap.
    destruct (decide (i < 64)%nat) as [Hi | Hi].
    + rewrite lookup_seq_lt by done. cbn. rewrite get_lookup.
      destruct (lookup_lt_is_Some_2 coeff i) as [c Hc]; [lia |].
      by rewrite Hc.
    + rewrite lookup_seq_ge by lia. cbn.
      by rewrite (lookup_ge_None_2 coeff i) by lia.
  - unfold reorder. by rewrite length_map, length_seq.
  - rewrite Hmap. do 65 (destruct coeff as [| ? coeff]; [done |]). done.
Qed.

Lemma reorder_permutation_witness :
  reorder test_coeffs ≡ₚ test_coeffs
  /\ length (reorder test_coeffs) = 64%nat
  /\ JS.get (reorder test_coeffs) 0 = JS.get test_coeffs 0.
Proof. apply (reorder_permutation test_coeffs). reflexivity. Defined.

(** * More of the code: the inverse transforms *)

(** X6: the transform with the cache returns the samples of the naive
    transform, for every array of coefficients and whatever [Math.cos]
    returns: on its first call, which builds the cache, and on the later
    ones, which find it. *)
Theorem idctCached_is_idct (cos : float -> float) (first coeffs : list cell) :
  (idctCached cos None coeffs).1 = idct cos coeffs
  /\ (idctCached cos (idctCached cos None first).2 coeffs).1 = idct cos coeffs.
Proof.
  split; [apply idctCached_idct |].
  by rewrite idctCached_again, idctCached_idct.
Qed.

(** * More of the code: [peek] at a restart marker *)

Lemma ones_below_pad2 m b :
  0 <= m -> ones_below m b ->
  ones_below (m + 16) (JS.or (JS.shl (JS.or (JS.shl b 8) 255) 8) 255).
Proof.
  intros Hm Hb. replace (m + 16) with (m + 8 + 8) by lia.
  apply ones_below_pad; [lia |]. by apply ones_below_pad.
Qed.

(** A round of the loop of [peek] at a restart marker: sixteen 1s go into
    the buffer and the reader is put back before the marker. *)
Lemma peek_loop_rst fuel n r img (m : Byte.byte) :
  buffSize r < n -> 0 <= index r + 1 ->
  view r !! Z.to_nat (index r + 1) = Some Byte.xff ->
  view r !! Z.to_nat (index r + 2) = Some m ->
  208 <= Z.of_N (Byte.to_N m) <= 215 ->
  peek_loop (Datatypes.S fuel) n r img
  = peek_loop fuel n
      (mkReader (view r) (index r) (byte r) (cnt r)
         (JS.or (JS.shl (JS.or (JS.shl (buffer r) 8) 255) 8) 255)
         (buffSize r + 16)) img.
Proof.
  intros Hn Hi Hff Hm Hrange. cbn [peek_loop].
  destruct (Z.ltb_spec (buffSize r) n); [| lia].
  assert (hasMoreBytes r = true) as ->.
  { unfold hasMoreBytes. apply Z.ltb_lt.
    apply lookup_lt_Some in Hm. lia. }
  cbn [negb]. unfold nextByte, getUint8. cbn [index view set_index].
  destruct (Z.ltb_spec (index r + 1) 0); [lia |]. rewrite Hff.
  cbn [mbind option_bind]. change (Z.of_N (Byte.to_N Byte.xff)) with 255.
  cbn [Z.eqb Pos.eqb set_buffSize set_buffer set_index index view buffer
         buffSize byte cnt].
  destruct (Z.ltb_spec (index r + 1 + 1) 0); [lia |].
  replace (index r + 1 + 1) with (index r + 2) by lia. rewrite Hm.
  cbn [mbind option_bind].
  destruct (Z.eqb_spec (Z.of_N (Byte.to_N m)) 0); [lia |].
  destruct (Z.eqb_spec (Z.of_N (Byte.to_N m)) 220); [lia |].
  destruct (Z.leb_spec 208 (Z.of_N (Byte.to_N m))); [| lia].
  destruct (Z.leb_spec (Z.of_N (Byte.to_N m)) 215); [| lia].
  cbn [negb andb mbind option_bind set_buffSize set_buffer set_index index
         view buffer buffSize byte cnt].
  f_equal. unfold set_index, set_buffSize, set_buffer.
  cbn [index view buffer buffSize byte cnt]. f_equal; lia.
Qed.

Lemma peek_loop_at_rst n img (m : Byte.byte) : forall fuel r k,
  0 <= index r + 1 ->
  view r !! Z.to_nat (index r + 1) = Some Byte.xff ->
  view r !! Z.to_nat (index r + 2) = Some m ->
  208 <= Z.of_N (Byte.to_N m) <= 215 ->
  0 <= k -> ones_below k (buffer r) ->
  n - buffSize r <= Z.of_nat fuel ->
  exists buf bs,
    peek_loop fuel n r img
    = Some (mkReader (view r) (index r) (byte r) (cnt r) buf bs, img)
    /\ n <= bs
    /\ (buffSize r < n -> bs < n + 16)
    /\ buffSize r <= bs
    /\ ones_below (k + (bs - buffSize r)) buf.
Proof.
  induction fuel as [| fuel IH]; intros r k Hi Hff Hm Hrange Hk Hones Hfuel.
  - exists (buffer r), (buffSize r). rewrite peek_loop_done by lia.
    destruct r as [v i b c bf sz]; cbn in *. repeat split; try lia.
    by replace (k + (sz - sz)) with k by lia.
  - destruct (Z.lt_ge_cases (buffSize r) n) as [Hlt | Hge].
    + rewrite (peek_loop_rst fuel n r img m) by done.
      destruct (IH (mkReader (view r) (index r) (byte r) (cnt r)
                      (JS.or (JS.shl (JS.or (JS.shl (buffer r) 8) 255) 8) 255)
                      (buffSize r + 16)) (k + 16))
        as (buf & bs & Hloop & Hn & Hup & Hle & Hbits);
        cbn [view index byte cnt buffer buffSize] in *; try done; try lia.
      * by apply ones_below_pad2.
      * exists buf, bs. split; [exact Hloop |].
        repeat split; try lia.
        -- intros _. destruct (Z.lt_ge_cases (buffSize r + 16) n) as [H8 | H8];
             [lia |].
           rewrite peek_loop_done in Hloop by (cbn [buffSize]; lia).
           injection Hloop as _ Hbs. lia.
        -- by replace (k + (bs - buffSize r))
             with (k + 16 + (bs - (buffSize r + 16))) by lia.
    + exists (buffer r), (buffSize r). rewrite peek_loop_done by lia.
      destruct r as [v i b c bf sz]; cbn in *. repeat split; try lia.
      by replace (k + (sz - sz)) with k by lia.
Qed.

(** X7: [peek] at a restart marker (0xFF and then 0xD0 .. 0xD7 are the next
    two bytes): [peek] of up to 16 bits returns, every bit of the result
    beyond those the buffer still held is 1, and the reader is not moved:
    the marker is still the next thing to read. *)
Theorem peek_at_restart_marker (r : DataViewReader) (img : Img) (n : Z)
  (m : Byte.byte) :
  0 <= index r + 1 ->
  view r !! Z.to_nat (index r + 1) = Some Byte.xff ->
  view r !! Z.to_nat (index r + 2) = Some m ->
  208 <= Z.of_N (Byte.to_N m) <= 215 ->
  0 <= buffSize r < n -> n <= 16 ->
  exists ret buf bs,
    peek r img n
    = Some (ret, mkReader (view r) (index r) (byte r) (cnt r) buf bs, img)
    /\ forall i, 0 <= i < n - buffSize r -> Z.testbit ret i = true.
Proof.
  intros Hi Hff Hm Hrange Hbs Hn.
  assert (ones_below 0 (buffer r)) as H0 by (intros j ?; lia).
  destruct (peek_loop_at_rst n img m (Z.to_nat (n - buffSize r)) r 0
              Hi Hff Hm Hrange ltac:(lia) H0 ltac:(lia))
    as (buf & bs & Hloop & Hge & Hup & Hle & Hbits).
  specialize (Hup ltac:(lia)).
  unfold peek. rewrite Hloop. cbn [mbind option_bind buffer buffSize].
  eexists _, buf, bs. split; [reflexivity |].
  intros i Hi'.
  rewrite and_testbit by lia.
  rewrite sar_testbit by lia.
  rewrite Hbits by lia.
  rewrite shl_small by (change (2 ^ 31) with 2147483648;
    pose proof (Z.pow_le_mono_r 2 n 16 ltac:(lia) ltac:(lia));
    pose proof (Z.pow_pos_nonneg 2 n ltac:(lia) ltac:(lia));
    change (2 ^ 16) with 65536 in *; lia).
  replace (1 * 2 ^ n - 1) with (Z.ones n)
    by (rewrite Z.ones_equiv; lia).
  by rewrite Z.ones_spec_low by lia.
Qed.

Lemma peek_at_restart_marker_witness :
  exists ret buf bs,
    peek (newReader (map mkByte [255; 208; 18])) img0 16
    = Some (ret,
            mkReader (view (newReader (map mkByte [255; 208; 18])))
              (index (newReader (map mkByte [255; 208; 18])))
              (byte (newReader (map mkByte [255; 208; 18])))
              (cnt (newReader (map mkByte [255; 208; 18]))) buf bs, img0)
    /\ forall i, 0 <= i < 16 - buffSize (newReader (map mkByte [255; 208; 18])) ->
         Z.testbit ret i = true.
Proof.
  apply (peek_at_restart_marker (newReader (map mkByte [255; 208; 18])) img0 16
           (mkByte 208)); [cbn; lia | reflexivity | reflexivity
                          | by vm_compute | cbn; lia | lia].
Defined.

(** * More of the code: the Huffman decoders on what is no codeword *)

(** The tree when all the codes of a table are in it: of the [2^16] places
    of the last length the first [kraft counts] are taken. *)
Lemma tree_insertLengths_canon bts n : forall a code t vals,
  Canon 0 a code t ->
  fits (counts_of bts (lengths_from a (S n))) a code ->
  (length (canonical (counts_of bts (lengths_from a (S n))) a code)
   <= length vals)%nat ->
  exists t' rest,
    insertLengths (TreeDecoder t) (lengths_from a (S n)) bts vals
    = Some (TreeDecoder t', rest)
    /\ Canon 0 (a + n)
         (fold_left (fun m c => 2 * m + c)
            (counts_of bts (lengths_from (S a) n))
            (code + default 0 (JS.get bts (Z.of_nat a)))) t'.
Proof.
  induction n as [| n IH]; intros a code t vals HC Hfit Hlen;
    rewrite counts_of_cons in Hfit, Hlen; rewrite lengths_from_cons;
    set (c := default 0 (JS.get bts (Z.of_nat a))) in *;
    destruct Hfit as (Hc & Hfit1 & Hfit);
    rewrite canonical_cons, length_app, length_map, length_seq in Hlen;
    destruct (tree_insertCodes a (Z.to_nat c) code t vals HC
                ltac:(lia) ltac:(lia)) as (t1 & Hins & HC1 & _ & _);
    rewrite Z2Nat.id in HC1 by done;
    cbn [insertLengths]; unfold count; fold c; rewrite Hins.
  - exists t1, (drop (Z.to_nat c) vals). split; [done |].
    by rewrite Nat.add_0_r.
  - destruct (IH (S a) (2 * (code + c)) t1 (drop (Z.to_nat c) vals)
                (Canon_lift _ _ _ _ HC1) Hfit
                ltac:(rewrite length_drop; lia))
      as (t' & rest & Hrest & HC').
    exists t', rest. split; [done |].
    rewrite counts_of_cons. cbn [fold_left].
    by replace (a + S n)%nat with (S a + n)%nat by lia.
Qed.

Lemma loadTable_tree_canon counts vals :
  valid_table counts vals ->
  exists t,
    loadTable (TreeDecoder (newHuffTree 0)) (None :: map Some counts) vals
    = Some (TreeDecoder t)
    /\ Canon 0 16 (kraft counts) t.
Proof.
  intros (Hlen & Hcs & Hkraft & Hvals).
  pose proof (tree_insertLengths_canon (None :: map Some counts) 15 1 0
                (newHuffTree 0) vals (Canon_fresh 0 1)) as Hins.
  assert (counts_of (None :: map Some counts) (lengths_from 1 16) = counts)
    as Hcounts by (by apply counts_of_bits).
  rewrite Hcounts in Hins.
  destruct Hins as (t & rest & Hins & HC).
  - apply (fits_of_kraft counts 1 0); [done | lia | lia |].
    rewrite Hlen. exact Hkraft.
  - rewrite canonical_length by done. lia.
  - exists t. split.
    + unfold loadTable. cbn [initDecoder mbind option_bind].
      by rewrite lengths_eq, Hins.
    + rewrite counts_of_cons in Hcounts. rewrite <- Hcounts. unfold kraft.
      rewrite fold_left_cons. change (1 + 15)%nat with 16%nat in HC.
      set (d := default 0 (JS.get (None :: map Some counts) (Z.of_nat 1))) in *.
      by replace (2 * 0 + d) with (0 + d) by lia.
Qed.

Section NoCodeword.
Context {Src : Type} `{BitSource Src}.

Lemma feeds_take_cons (s s1 s2 : Src) b bs j :
    next_bit s = Some (b, s1) -> feeds s1 (take j bs) s2 ->
    feeds s (take (S j) (b :: bs)) s2.
  Proof. intros Hb Hrest. cbn. by exists s1. Qed.

  (** The walk in the tree along bits that are past the places taken ends
      on a node that is not there. *)
Lemma tree_beyond n : forall lvl m t y b (s s' : Src),
    Canon lvl n m t -> m <= y < 2 ^ Z.of_nat n ->
    feeds s (code_bits n y ++ [b]) s' ->
    exists j s1,
      (1 <= j <= n + 1)%nat
      /\ feeds s (take j (code_bits n y ++ [b])) s1
      /\ tree_decodeHuffman t s = Some (None, s1).
  Proof.
    induction n as [| n IH]; intros lvl m t y b s s' HC Hy Hfeed.
    - inversion HC as [lvl' n' | lvl' n' v' |]; subst;
        [| change (2 ^ Z.of_nat 0) with 1 in Hy; lia].
      cbn in Hfeed. destruct Hfeed as (s1 & Hb & <-).
      exists 1%nat, s1. split; [lia |]. split; [cbn; by exists s1 |].
      rewrite tree_decodeHuffman_unfold, Hb.
      by destruct (b =? 0), (b =? 1).
    - assert (2 ^ Z.of_nat (S n) = 2 * 2 ^ Z.of_nat n) as Hpow
          by (by rewrite Nat2Z.inj_succ, Z.pow_succ_r by lia).
      assert (0 < 2 ^ Z.of_nat n) as Hpos by (apply Z.pow_pos_nonneg; lia).
      inversion HC as [lvl' n' | lvl' n' v' | lvl' n' ml mr l r Hl Hr Hml Hmr];
        subst.
      + cbn [code_bits app] in Hfeed. destruct Hfeed as (s1 & Hb & _).
        exists 1%nat, s1. split; [lia |]. split; [cbn; by exists s1 |].
        rewrite tree_decodeHuffman_unfold, Hb.
        by repeat case_match.
      + lia.
      + pose proof (Canon_range _ _ _ _ Hl) as Hrl.
        pose proof (Canon_range _ _ _ _ Hr) as Hrr.
        assert (forall k c (s0 s0' : Src),
                  Canon (lvl + 1) n k c -> k <= y mod 2 ^ Z.of_nat n ->
                  feeds s0 (code_bits n y ++ [b]) s0' ->
                  exists j s1,
                    (1 <= j <= n + 1)%nat
                    /\ feeds s0 (take j (code_bits n y ++ [b])) s1
                    /\ arrive c (tree_decodeHuffman c) s0 = Some (None, s1))
          as Hchild.
        { intros k c s0 s0' Hc Hk Hf.
          pose proof (Z.mod_pos_bound y (2 ^ Z.of_nat n) Hpos) as Hmod.
          rewrite <- (code_bits_mod n y n) in Hf by lia.
          destruct (IH (lvl + 1) k c (y mod 2 ^ Z.of_nat n) b s0 s0' Hc
                      ltac:(lia) Hf)
            as (j & s1 & Hj & Hf1 & Hdec).
          rewrite (code_bits_mod n y n) in Hf1 by lia.
          exists j, s1. split; [done |]. split; [done |].
          inversion Hc; subst; cbn [arrive];
            try (by rewrite bool_decide_eq_false_2 by (by intros [])).
          lia. }
        destruct (Z.lt_ge_cases y (2 ^ Z.of_nat n)) as [Hlow | Hhigh].
        * rewrite code_bits_low in Hfeed |- * by lia.
          cbn [app] in Hfeed. destruct Hfeed as (s1 & Hb & Hfeed).
          destruct (Hchild ml l s1 s' Hl) as (j & s2 & Hj & Hf & Hdec);
            [rewrite Z.mod_small by lia; lia | done |].
          exists (S j), s2. split; [lia |].
          split; [by apply (feeds_take_cons s s1) |].
          by rewrite tree_decodeHuffman_unfold, Hb.
        * assert (y mod 2 ^ Z.of_nat n = y - 2 ^ Z.of_nat n) as Hmody
              by (symmetry; apply (Z.mod_unique _ _ 1); lia).
          assert (code_bits (S n) y = 1 :: code_bits n y) as Hcb.
          { replace y with (2 ^ Z.of_nat n + (y - 2 ^ Z.of_nat n)) at 1 by lia.
            rewrite code_bits_high by lia.
            by rewrite <- Hmody, code_bits_mod by lia. }
          rewrite Hcb in Hfeed |- *.
          cbn [app] in Hfeed. destruct Hfeed as (s1 & Hb & Hfeed).
          destruct (Hchild mr r s1 s' Hr) as (j & s2 & Hj & Hf & Hdec);
            [lia | done |].
          exists (S j), s2. split; [lia |].
          split; [by apply (feeds_take_cons s s1) |].
          by rewrite tree_decodeHuffman_unfold, Hb.
  Qed.

End NoCodeword.

Lemma set_length {A} (a : list (option A)) i v :
  (length (JS.set a i v) <= Nat.max (length a) (Z.to_nat i + 1))%nat.
Proof.
  unfold JS.set. destruct (i <? 0); [lia |].
  destruct (decide (Z.to_nat i < length a)%nat).
  - rewrite length_insert. lia.
  - rewrite !length_app, length_replicate. cbn. lia.
Qed.

(** [valptr] has no element past the sixteen lengths. *)
Lemma gen_tables_valptr A ls : forall T,
  Forall (fun i => i <= 16) ls -> (length (valptr T) <= 17)%nat ->
  (length (valptr (fold_left (tables_step A) ls T)) <= 17)%nat.
Proof.
  induction ls as [| i ls IH]; intros T Hls HT; [done |].
  apply Forall_cons in Hls as [Hi Hls]. cbn [fold_left]. apply IH; [done |].
  unfold tables_step. case_bool_decide; cbn [valptr]; [done |].
  pose proof (set_length (valptr T) i (tj T)). lia.
Qed.

Lemma code_bits_snoc n : forall y (b : bool),
  code_bits (S n) (2 * y + Z.b2z b) = code_bits n y ++ [Z.b2z b].
Proof.
  induction n as [| n IH]; intros y b.
  - cbn [code_bits app]. change (Z.of_nat 0) with 0.
    by rewrite Z.testbit_0_r.
  - change (code_bits (S (S n)) (2 * y + Z.b2z b))
      with (Z.b2z (Z.testbit (2 * y + Z.b2z b) (Z.of_nat (S n)))
            :: code_bits (S n) (2 * y + Z.b2z b)).
    rewrite IH. cbn [code_bits app]. f_equal. f_equal.
    rewrite Nat2Z.inj_succ. apply Z.testbit_succ_r. lia.
Qed.

Section ArrayNoCodeword.
Context {Src : Type} `{BitSource Src}.

  (** The loop of the array decoder on bits that are past every code: it
      goes through all the lengths. *)
Lemma array_loop_beyond cs : forall a m Y (s s' : Src),
    Forall (fun c => 0 <= c) cs -> 0 <= m ->
    2 * fold_left (fun m c => 2 * m + c) cs m <= Y < 2 ^ 17 ->
    feeds s (code_bits (length cs) Y) s' ->
    array_loop (maxcodes cs (2 * m)) (Z.of_nat a)
      (Z.shiftr Y (Z.of_nat (length cs))) s
    = Some (Z.of_nat (a + length cs), Y, s').
  Proof.
    induction cs as [| c cs IH]; intros a m Y s s' Hcs Hm HY Hfeed.
    - cbn in *. subst s'. by rewrite Z.shiftr_0_r, Nat.add_0_r.
    - apply Forall_cons in Hcs as [Hc Hcs]. cbn [fold_left length] in *.
      pose proof (kraft_grows cs (2 * m + c) Hcs ltac:(lia)) as Hg.
      assert (0 < 2 ^ Z.of_nat (length cs)) as Hpos
          by (apply Z.pow_pos_nonneg; lia).
      cbn [code_bits] in Hfeed. destruct Hfeed as (s1 & Hb & Hfeed).
      cbn [maxcodes array_loop].
      assert (2 * m + c <= Z.shiftr Y (Z.of_nat (S (length cs)))
              /\ Z.shiftr Y (Z.of_nat (S (length cs))) <= Y) as [Hpre Hprew].
      { rewrite Z.shiftr_div_pow2 by lia.
        rewrite Nat2Z.inj_succ, Z.pow_succ_r by lia. split.
        - apply Z.div_le_lower_bound; nia.
        - apply Z.div_le_upper_bound; nia. }
      assert ((Z.shiftr Y (Z.of_nat (S (length cs)))
               >? (if c =? 0 then -1 else 2 * m + c - 1)) = true) as ->.
      { apply Z.gtb_lt. destruct (c =? 0); lia. }
      rewrite Hb. rewrite shl_small;
        [| lia | change (2 ^ 1) with 2; change (2 ^ 31) with 2147483648;
                 change (2 ^ 17) with 131072 in HY; lia].
      change (2 ^ 1) with 2.
      replace (Z.shiftr Y (Z.of_nat (S (length cs))) * 2
               + Z.b2z (Z.testbit Y (Z.of_nat (length cs))))
        with (Z.shiftr Y (Z.of_nat (length cs))).
      + replace (Z.of_nat a + 1) with (Z.of_nat (S a)) by lia.
        rewrite (IH (S a) (2 * m + c) Y s1 s'); [| done | lia | lia | done].
        do 3 f_equal. lia.
      + rewrite (shiftr_step Y (Z.of_nat (length cs))) by lia.
        replace (Z.of_nat (S (length cs))) with (Z.of_nat (length cs) + 1)
          by lia. lia.
  Qed.

End ArrayNoCodeword.

(** X8: on bits that are no codeword of a valid table (the first sixteen
    are those of a number [y] that is past every code, [kraft counts <= y])
    both decoders return [undefined]. The array decoder has then read 17
    bits; the tree has read the bits up to the first node that is not
    there, at least one and at most 17. *)
Theorem decoders_on_no_codeword {Src : Type} `{BitSource Src}
  (counts vals : list Z) (y : Z) (b : bool) (s s' : Src) :
  valid_table counts vals ->
  kraft counts <= y < 2 ^ 16 ->
  feeds s (code_bits 16 y ++ [Z.b2z b]) s' ->
  exists t a,
    loadTable (TreeDecoder (newHuffTree 0)) (None :: map Some counts) vals
    = Some (TreeDecoder t)
    /\ loadTable (ArrayDecoder newHuffArray) (None :: map Some counts) vals
       = Some (ArrayDecoder a)
    /\ decodeHuffman (ArrayDecoder a) s = Some (None, s')
    /\ exists j s1,
         (1 <= j <= 17)%nat
         /\ feeds s (take j (code_bits 16 y ++ [Z.b2z b])) s1
         /\ decodeHuffman (TreeDecoder t) s = Some (None, s1).
Proof.
  intros Hvalid Hy Hfeed.
  destruct (loadTable_tree_canon counts vals Hvalid) as (t & Htree & HC).
  pose proof (loadTable_array counts vals Hvalid) as Harray.
  destruct Hvalid as (Hlen & Hcs & Hkraft & Hvals).
  eexists t, _. split; [exact Htree |]. split; [exact Harray |]. split.
  - cbn [decodeHuffman]. unfold array_decodeHuffman.
    match goal with |- context [gen_tables ?A] => set (A0 := A) end.
    assert (fits counts 1 0) as Hfit.
    { apply (fits_of_kraft counts 1 0); [done | lia | lia |].
      rewrite Hlen. exact Hkraft. }
    assert (maxcode (gen_tables A0) = [None] ++ maxcodes counts 0) as Hmx.
    { rewrite gen_tables_start.
      destruct (gen_tables_canonical A0 16 1 0 0
                  (mkTables [] [None] [] (Some 0))) as (Hmx & _ & _);
        subst A0; cbn [bits huffcode];
        [by apply bits_good | by rewrite counts_of_bits | done | done |].
      cbn [bits] in Hmx. by rewrite Hmx, counts_of_bits. }
    assert (JS.get (valptr (gen_tables A0)) 17 = None) as Hvp.
    { unfold JS.get. cbn [Z.ltb Z.compare].
      rewrite lookup_ge_None_2; [done |].
      change (Z.to_nat 17) with 17%nat. unfold gen_tables.
      apply gen_tables_valptr; [| cbn; lia].
      rewrite lengths_eq. unfold lengths_from.
      apply Forall_fmap, Forall_forall. intros i Hi.
      apply elem_of_seq in Hi. cbn. lia. }
    generalize dependent (gen_tables A0). intros T Hmx Hvp.
    rewrite Hmx.
    rewrite <- code_bits_snoc in Hfeed.
    change (code_bits 17 (2 * y + Z.b2z b))
      with (Z.b2z (Z.testbit (2 * y + Z.b2z b) (Z.of_nat 16))
            :: code_bits 16 (2 * y + Z.b2z b)) in Hfeed.
    destruct Hfeed as (s1 & Hb & Hfeed). rewrite Hb.
    cbn [mbind option_bind maxcode app drop]. rewrite drop_0.
    assert (0 <= 2 * y + Z.b2z b < 2 ^ 17) as HY.
    { change (2 ^ 17) with (2 * 2 ^ 16). unfold kraft in Hy.
      pose proof (kraft_grows counts 0 Hcs ltac:(lia)).
      destruct b; cbn [Z.b2z]; lia. }
    rewrite first_bit by exact HY.
    pose proof (array_loop_beyond counts 1 0 (2 * y + Z.b2z b) s1 s' Hcs
                  ltac:(lia)) as Hloop.
    rewrite Hlen in Hloop. change (2 * 0) with 0 in Hloop.
    change (Z.of_nat 1) with 1 in Hloop. rewrite Hloop.
    + cbn [mbind option_bind]. change (Z.of_nat (1 + 16)) with 17.
      by rewrite Hvp.
    + unfold kraft in Hy. destruct b; cbn [Z.b2z]; lia.
    + done.
  - destruct (tree_beyond 16 0 (kraft counts) t y (Z.b2z b) s s' HC
                ltac:(lia) Hfeed) as (j & s1 & Hj & Hf & Hdec).
    exists j, s1. split; [lia |]. split; [done |]. exact Hdec.
Qed.

Lemma decoders_on_no_codeword_witness :
  exists t a,
    loadTable (TreeDecoder (newHuffTree 0)) (None :: map Some test_counts)
      test_values
    = Some (TreeDecoder t)
    /\ loadTable (ArrayDecoder newHuffArray) (None :: map Some test_counts)
         test_values
       = Some (ArrayDecoder a)
    /\ decodeHuffman (ArrayDecoder a)
         (newReader (map mkByte [255; 0; 255; 0; 128]), img0)
       = Some (None,
               (mkReader (map mkByte [255; 0; 255; 0; 128]) 4 0 7 0 0, img0))
    /\ exists j s1,
         (1 <= j <= 17)%nat
         /\ feeds (newReader (map mkByte [255; 0; 255; 0; 128]), img0)
              (take j (code_bits 16 65535 ++ [Z.b2z true])) s1
         /\ decodeHuffman (TreeDecoder t)
              (newReader (map mkByte [255; 0; 255; 0; 128]), img0)
            = Some (None, s1).
Proof.
  apply (decoders_on_no_codeword test_counts test_values 65535 true
           (newReader (map mkByte [255; 0; 255; 0; 128]), img0)
           (mkReader (map mkByte [255; 0; 255; 0; 128]) 4 0 7 0 0, img0)).
  - split; [reflexivity |]. split; [repeat constructor; lia |].
    split; [by vm_compute | reflexivity].
  - by vm_compute.
  - apply feeds_read_bits. by vm_compute.
Defined.

(** X9: [insertCode] of one more code of length 16 into the tree of a
    valid table: when places are left (the Kraft sum is below [2^16]) it
    returns true and the value is then where the bits of the next code
    lead; when the table is complete it returns false and leaves the tree
    as it is. *)
Theorem insertCode_into_loaded_tree (counts vals : list Z) (v : Z) :
  valid_table counts vals ->
  exists t,
    loadTable (TreeDecoder (newHuffTree 0)) (None :: map Some counts) vals
    = Some (TreeDecoder t)
    /\ (kraft counts = 2 ^ 16 -> tree_insertCode t 16 v = Some (false, t))
    /\ (kraft counts < 2 ^ 16 ->
        exists t', tree_insertCode t 16 v = Some (true, t')
                   /\ At (code_bits 16 (kraft counts)) t' v).
Proof.
  intros Hvalid.
  destruct (loadTable_tree_canon counts vals Hvalid) as (t & Htree & HC).
  exists t. split; [exact Htree |].
  destruct (insertCode_rec_canon 16 0 (kraft counts) t 17 v HC ltac:(lia))
    as [Hfull Hfree].
  unfold tree_insertCode. rewrite (Canon_level _ _ _ _ HC).
  change (Datatypes.S (Z.to_nat (16 - 0))) with 17%nat.
  change (0 + Z.of_nat 16) with 16 in Hfull, Hfree.
  split; [exact Hfull |]. intros Hlt.
  destruct (Hfree Hlt) as (t' & Hins & _ & _ & Hat). by exists t'.
Qed.

Lemma insertCode_into_loaded_tree_witness :
  exists t,
    loadTable (TreeDecoder (newHuffTree 0)) (None :: map Some test_counts)
      test_values
    = Some (TreeDecoder t)
    /\ (kraft test_counts = 2 ^ 16 -> tree_insertCode t 16 12 = Some (false, t))
    /\ (kraft test_counts < 2 ^ 16 ->
        exists t', tree_insertCode t 16 12 = Some (true, t')
                   /\ At (code_bits 16 (kraft test_counts)) t' 12).
Proof.
  apply (insertCode_into_loaded_tree test_counts test_values 12).
  split; [reflexivity |]. split; [repeat constructor; lia |].
  split; [by vm_compute | reflexivity].
Defined.

(** * More of the code: the decoder with the lookup table *)

Lemma fill_spec n : forall tbl idx v l,
  (Table.fill n tbl idx v l).2 = idx + 2 * Z.of_nat n
  /\ forall i,
       0 <= idx ->
       JS.get (Table.fill n tbl idx v l).1 i
       = if (idx <=? i) && (i <? idx + 2 * Z.of_nat n)
         then (if Z.even (i - idx) then Some v else Some l)
         else JS.get tbl i.
Proof.
  induction n as [| n IH]; intros tbl idx v l.
  - cbn [Table.fill fst snd]. split; [lia |]. intros i Hidx.
    destruct (Z.leb_spec idx i), (Z.ltb_spec i (idx + 2 * Z.of_nat 0));
      cbn [andb]; try done; lia.
  - cbn [Table.fill]. destruct (IH (JS.set (JS.set tbl idx (Some v)) (idx + 1)
                                     (Some l)) (idx + 2) v l) as [Hidx' Hget].
    split; [lia |]. intros i Hidx. rewrite Hget by lia.
    rewrite !get_set.
    replace (i - (idx + 2)) with (i - idx + 2 * -1) by lia.
    rewrite Z.even_add_mul_2.
    destruct (Z.eqb_spec i (idx + 1)) as [-> | Hn1].
    { replace (idx + 1 - idx) with 1 by lia.
      destruct (Z.leb_spec (idx + 2) (idx + 1)); [lia |].
      destruct (Z.leb_spec 0 (idx + 1)); [| lia].
      destruct (Z.leb_spec idx (idx + 1)); [| lia].
      destruct (Z.ltb_spec (idx + 1) (idx + 2 * Z.of_nat (S n))); [| lia].
      done. }
    destruct (Z.eqb_spec i idx) as [-> | Hn0].
    { rewrite Z.sub_diag.
      destruct (Z.leb_spec (idx + 2) idx); [lia |].
      destruct (Z.leb_spec 0 idx); [| lia].
      destruct (Z.leb_spec idx idx); [| lia].
      destruct (Z.ltb_spec idx (idx + 2 * Z.of_nat (S n))); [| lia].
      done. }
    cbn [andb].
    destruct (Z.leb_spec (idx + 2) i), (Z.ltb_spec i (idx + 2 + 2 * Z.of_nat n)),
      (Z.leb_spec idx i), (Z.ltb_spec i (idx + 2 * Z.of_nat (S n)));
      cbn [andb]; try lia; done.
Qed.

(** One code goes into the table at the next free place, as many times as
    there are ways to go on after it up to 16 bits. *)
Lemma table_insertCode_next t a v j c :
  1 <= a <= 16 ->
  JS.get (Table.counts t) a = Some j -> JS.get (Table.bits t) a = Some c ->
  j < c -> 0 <= Table.index t ->
  (Table.insertCode t a v).1 = true
  /\ Table.bits (Table.insertCode t a v).2 = Table.bits t
  /\ Table.index (Table.insertCode t a v).2
     = Table.index t + 2 * 2 ^ (16 - a)
  /\ Table.counts (Table.insertCode t a v).2
     = JS.set (Table.counts t) a (Some (j + 1))
  /\ forall i,
       JS.get (Table.table (Table.insertCode t a v).2) i
       = if (Table.index t <=? i) && (i <? Table.index t + 2 * 2 ^ (16 - a))
         then (if Z.even (i - Table.index t) then Some v else Some a)
         else JS.get (Table.table t) i.
Proof.
  intros Ha Hj Hc Hjc Hidx. unfold Table.insertCode, Table.TABLE_LENGTH.
  destruct (Z.gtb_spec a 16); [lia |]. rewrite Hj, Hc. cbn [Table.cge].
  destruct (Z.geb_spec j c); [lia |].
  assert (0 < 2 ^ (16 - a) <= 2 ^ 15) as Hp.
  { split; [apply Z.pow_pos_nonneg; lia | apply Z.pow_le_mono_r; lia]. }
  change (2 ^ 15) with 32768 in Hp.
  rewrite shl_small; [| lia | change (2 ^ 31) with 2147483648; lia].
  rewrite Z.mul_1_l.
  destruct (fill_spec (Z.to_nat (2 ^ (16 - a))) (Table.table t) (Table.index t)
              v a) as [Hi Hg].
  destruct (Table.fill _ _ _ _ _) as [tbl idx]. cbn [fst snd] in *.
  rewrite Z2Nat.id in Hi, Hg by lia.
  repeat split; try done. intros i. by apply Hg.
Qed.

Lemma table_insertCodes (a : nat) bts c : forall n t vals j code,
  (1 <= a <= 16)%nat ->
  Table.bits t = bts -> JS.get bts (Z.of_nat a) = Some c ->
  JS.get (Table.counts t) (Z.of_nat a) = Some j -> j + Z.of_nat n <= c ->
  (n <= length vals)%nat ->
  0 <= code -> Table.index t = code * 2 ^ (17 - Z.of_nat a) ->
  exists t',
    Table.insertCodes t (Z.of_nat a) n vals = Some (t', drop n vals)
    /\ Table.bits t' = bts
    /\ Table.index t' = (code + Z.of_nat n) * 2 ^ (17 - Z.of_nat a)
    /\ (forall i, i <> Z.of_nat a ->
          JS.get (Table.counts t') i = JS.get (Table.counts t) i)
    /\ (forall i, i < Table.index t ->
          JS.get (Table.table t') i = JS.get (Table.table t) i)
    /\ (forall q v y, vals !! q = Some v -> (q < n)%nat ->
          (code + Z.of_nat q) * 2 ^ (16 - Z.of_nat a) <= y
            < (code + Z.of_nat q + 1) * 2 ^ (16 - Z.of_nat a) ->
          JS.get (Table.table t') (2 * y) = Some v
          /\ JS.get (Table.table t') (2 * y + 1) = Some (Z.of_nat a))
    /\ (forall i, Table.index t' <= i ->
          JS.get (Table.table t') i = JS.get (Table.table t) i).
Proof.
  induction n as [| n IH]; intros t vals j code Ha Hb Hc Hj Hjc Hlen Hcode Hidx.
  - exists t. cbn [Table.insertCodes]. rewrite Z.add_0_r.
    repeat split; try done; intros; lia.
  - destruct vals as [| v vals]; [cbn in Hlen; lia |].
    cbn [length] in Hlen. cbn [Table.insertCodes].
    assert (2 ^ (17 - Z.of_nat a) = 2 * 2 ^ (16 - Z.of_nat a)) as Hp.
    { replace (17 - Z.of_nat a) with (Z.succ (16 - Z.of_nat a)) by lia.
      apply Z.pow_succ_r. lia. }
    assert (0 < 2 ^ (16 - Z.of_nat a)) as Hpos
      by (apply Z.pow_pos_nonneg; lia).
    rewrite Hp in *. set (P := 2 ^ (16 - Z.of_nat a)) in *.
    destruct (table_insertCode_next t (Z.of_nat a) v j c ltac:(lia) Hj
                ltac:(by rewrite Hb) ltac:(lia) ltac:(nia))
      as (_ & Hb1 & Hi1 & Hc1 & Hg1).
    fold P in Hi1, Hg1.
    set (t1 := (Table.insertCode t (Z.of_nat a) v).2) in *.
    destruct (IH t1 vals (j + 1) (code + 1) Ha ltac:(by rewrite Hb1) Hc)
      as (t' & Hins & Hb' & Hi' & Hc' & Hg' & Hat & Hup);
      [ | lia | lia | lia | | ].
    { rewrite Hc1, get_set, Z.eqb_refl.
      by destruct (Z.leb_spec 0 (Z.of_nat a)); [| lia]. }
    { rewrite Hi1, Hidx. lia. }
    exists t'. split; [done |]. split; [done |]. split.
    { rewrite Hi'. lia. }
    split.
    { intros i Hi. rewrite Hc' by done. rewrite Hc1, get_set.
      by destruct (Z.eqb_spec i (Z.of_nat a)). }
    split.
    { intros i Hi. rewrite Hg' by lia. rewrite Hg1.
      by destruct (Z.leb_spec (Table.index t) i); [lia |]. }
    split; cycle 1.
    { intros i Hi. rewrite Hup by done. rewrite Hg1.
      rewrite Hi' in Hi.
      by destruct (Z.ltb_spec i (Table.index t + 2 * P));
        [nia | rewrite andb_false_r]. }
    intros [| q] w y Hw Hq Hy.
    + cbn in Hw. injection Hw as ->. rewrite Z.add_0_r in Hy.
      rewrite !Hg' by (rewrite Hi1, Hidx; lia). rewrite !Hg1, Hidx.
      destruct (Z.leb_spec (code * (2 * P)) (2 * y)); [| lia].
      destruct (Z.leb_spec (code * (2 * P)) (2 * y + 1)); [| lia].
      destruct (Z.ltb_spec (2 * y) (code * (2 * P) + 2 * P)); [| lia].
      destruct (Z.ltb_spec (2 * y + 1) (code * (2 * P) + 2 * P)); [| lia].
      cbn [andb].
      replace (2 * y - code * (2 * P)) with (2 * (y - code * P)) by lia.
      replace (2 * y + 1 - code * (2 * P)) with (1 + 2 * (y - code * P)) by lia.
      by rewrite Z.even_mul, Z.even_add_mul_2.
    + cbn in Hw. apply (Hat q w y Hw); lia.
Qed.

Lemma table_insertLengths bts n : forall a code t vals,
  (1 <= a)%nat -> (a + n <= 17)%nat ->
  Table.bits t = bts ->
  Forall (fun i => is_Some (JS.get bts i)) (lengths_from a n) ->
  (forall i, Z.of_nat a <= i <= 16 -> JS.get (Table.counts t) i = Some 0) ->
  0 <= code -> Table.index t = code * 2 ^ (17 - Z.of_nat a) ->
  fits (counts_of bts (lengths_from a n)) a code ->
  (length (canonical (counts_of bts (lengths_from a n)) a code)
   <= length vals)%nat ->
  exists t',
    Table.insertLengths t (lengths_from a n) bts vals
    = Some (t',
            drop (length (canonical (counts_of bts (lengths_from a n)) a code))
              vals)
    /\ (forall i, i < Table.index t ->
          JS.get (Table.table t') i = JS.get (Table.table t) i)
    /\ (forall k l w v y,
          canonical (counts_of bts (lengths_from a n)) a code !! k
          = Some (l, w) ->
          vals !! k = Some v ->
          w * 2 ^ (16 - Z.of_nat l) <= y < (w + 1) * 2 ^ (16 - Z.of_nat l) ->
          JS.get (Table.table t') (2 * y) = Some v
          /\ JS.get (Table.table t') (2 * y + 1) = Some (Z.of_nat l)).
Proof.
  induction n as [| n IH];
    intros a code t vals Ha Han Hb Hbits Hzero Hcode Hidx Hfit Hlen.
  - exists t. cbn. split; [done |]. split; [done |]. intros; done.
  - rewrite counts_of_cons in *. rewrite lengths_from_cons in *.
    apply Forall_cons in Hbits as [[c0 Hc0] Hbits].
    rewrite Hc0 in *. cbn [default id] in *.
    set (cs := counts_of bts (lengths_from (S a) n)) in *.
    destruct Hfit as (Hc & Hfit1 & Hfit).
    rewrite canonical_cons, length_app, length_map, length_seq in Hlen.
    destruct (table_insertCodes a bts c0 (Z.to_nat c0) t vals 0 code
                ltac:(lia) Hb Hc0 (Hzero (Z.of_nat a) ltac:(lia)) ltac:(lia) ltac:(lia)
                Hcode Hidx)
      as (t1 & Hins & Hb1 & Hi1 & Hc1 & Hg1 & Hat1 & _).
    rewrite Z2Nat.id in Hi1 by done.
    assert (2 ^ (17 - Z.of_nat a) = 2 * 2 ^ (17 - Z.of_nat (S a))) as Hp.
    { replace (17 - Z.of_nat a) with (Z.succ (17 - Z.of_nat (S a))) by lia.
      apply Z.pow_succ_r. lia. }
    assert (0 < 2 ^ (17 - Z.of_nat (S a))) as Hpos
      by (apply Z.pow_pos_nonneg; lia).
    destruct (IH (S a) (2 * (code + c0)) t1 (drop (Z.to_nat c0) vals)
                ltac:(lia) ltac:(lia) Hb1 Hbits)
      as (t' & Hrest & Hg' & Hat); [ | lia | | done | | ].
    { intros i Hi. rewrite Hc1 by lia. apply Hzero. lia. }
    { rewrite Hi1, Hp. lia. }
    { rewrite length_drop. fold cs. lia. }
    exists t'. cbn [Table.insertLengths]. unfold count. rewrite Hc0.
    cbn [default id]. rewrite Hins, Hrest. fold cs. split.
    { rewrite canonical_cons, length_app, length_map, length_seq.
      by rewrite drop_drop. }
    split.
    { intros i Hi. rewrite Hg'; [by apply Hg1 |]. rewrite Hi1.
      rewrite Hidx in Hi.
      assert (0 < 2 ^ (17 - Z.of_nat a)) by (apply Z.pow_pos_nonneg; lia).
      nia. }
    intros k l w v y Hk Hv Hy.
    destruct (decide (k < Z.to_nat c0)%nat) as [Hlt | Hge].
    + rewrite canonical_lookup_here in Hk by done. injection Hk as <- <-.
      assert (2 ^ (17 - Z.of_nat a) = 2 * 2 ^ (16 - Z.of_nat a)) as Hp'.
      { replace (17 - Z.of_nat a) with (Z.succ (16 - Z.of_nat a)) by lia.
        apply Z.pow_succ_r. lia. }
      assert (0 < 2 ^ (16 - Z.of_nat a)) by (apply Z.pow_pos_nonneg; lia).
      rewrite !Hg' by (rewrite Hi1, Hp'; nia).
      by apply (Hat1 k v y Hv Hlt).
    + rewrite canonical_lookup_further in Hk by lia.
      apply (Hat _ _ _ _ _ Hk); [| done]. rewrite lookup_drop.
      by replace (Z.to_nat c0 + (k - Z.to_nat c0))%nat with k by lia.
Qed.

(** Where the table ends: past the slots of the codes nothing is written. *)
Lemma table_insertLengths_end bts n : forall a m t vals,
  (1 <= a)%nat -> (a + n <= 17)%nat ->
  Table.bits t = bts ->
  Forall (fun i => is_Some (JS.get bts i)) (lengths_from a n) ->
  (forall i, Z.of_nat a <= i <= 16 -> JS.get (Table.counts t) i = Some 0) ->
  0 <= m -> Table.index t = 2 * m * 2 ^ (17 - Z.of_nat a) ->
  fits (counts_of bts (lengths_from a n)) a (2 * m) ->
  (length (canonical (counts_of bts (lengths_from a n)) a (2 * m))
   <= length vals)%nat ->
  exists t' rest,
    Table.insertLengths t (lengths_from a n) bts vals = Some (t', rest)
    /\ Table.index t'
       = 2 * fold_left (fun m c => 2 * m + c)
               (counts_of bts (lengths_from a n)) m
         * 2 ^ (17 - Z.of_nat a - Z.of_nat n)
    /\ Table.index t <= Table.index t'
    /\ (forall i, Table.index t' <= i ->
          JS.get (Table.table t') i = JS.get (Table.table t) i).
Proof.
  induction n as [| n IH];
    intros a m t vals Ha Han Hb Hbits Hzero Hm Hidx Hfit Hlen.
  - exists t, vals. cbn [lengths_from seq map Table.insertLengths counts_of
                       fold_left].
    split; [done |]. split; [by rewrite Z.sub_0_r |]. split; [lia | done].
  - rewrite counts_of_cons in *. rewrite lengths_from_cons in *.
    apply Forall_cons in Hbits as [[c0 Hc0] Hbits].
    rewrite Hc0 in *. cbn [default id] in *.
    set (cs := counts_of bts (lengths_from (S a) n)) in *.
    destruct Hfit as (Hc & Hfit1 & Hfit).
    rewrite canonical_cons, length_app, length_map, length_seq in Hlen.
    destruct (table_insertCodes a bts c0 (Z.to_nat c0) t vals 0 (2 * m)
                ltac:(lia) Hb Hc0 (Hzero (Z.of_nat a) ltac:(lia)) ltac:(lia)
                ltac:(lia) ltac:(lia) Hidx)
      as (t1 & Hins & Hb1 & Hi1 & Hc1 & _ & _ & Hup1).
    rewrite Z2Nat.id in Hi1 by done.
    assert (2 ^ (17 - Z.of_nat a) = 2 * 2 ^ (17 - Z.of_nat (S a))) as Hp.
    { replace (17 - Z.of_nat a) with (Z.succ (17 - Z.of_nat (S a))) by lia.
      apply Z.pow_succ_r. lia. }
    destruct (IH (S a) (2 * m + c0) t1 (drop (Z.to_nat c0) vals)
                ltac:(lia) ltac:(lia) Hb1 Hbits)
      as (t' & rest & Hrest & Hi' & Hle & Hup); [ | lia | | done | | ].
    { intros i Hi. rewrite Hc1 by lia. apply Hzero. lia. }
    { rewrite Hi1, Hp. lia. }
    { rewrite length_drop. fold cs. lia. }
    exists t', rest. cbn [Table.insertLengths]. unfold count. rewrite Hc0.
    cbn [default id]. rewrite Hins, Hrest. split; [done |].
    rewrite fold_left_cons. split.
    { rewrite Hi'. fold cs. do 2 f_equal. lia. }
    assert (0 < 2 ^ (17 - Z.of_nat a)) by (apply Z.pow_pos_nonneg; lia).
    assert (Table.index t <= Table.index t1) by (rewrite Hi1, Hidx; nia).
    split; [lia |].
    intros i Hi. rewrite Hup by done. apply Hup1. lia.
Qed.

Lemma peek_range r img n v r' img' :
  0 <= n <= 30 -> peek r img n = Some (v, r', img') -> 0 <= v < 2 ^ n.
Proof.
  intros Hn. unfold peek.
  destruct (peek_loop (Z.to_nat (n - buffSize r)) n r img) as [[r1 img1] |];
    cbn [mbind option_bind]; [| done].
  intros [= <- <- <-]. rewrite and_mask by done.
  apply Z.mod_pos_bound. apply Z.pow_pos_nonneg; lia.
Qed.

Lemma table_loadTable counts vals :
  valid_table counts vals ->
  exists T,
    Table.loadTable (None :: map Some counts) vals = Some T
    /\ forall k l w v y,
         canonical counts 1 0 !! k = Some (l, w) -> vals !! k = Some v ->
         w * 2 ^ (16 - Z.of_nat l) <= y < (w + 1) * 2 ^ (16 - Z.of_nat l) ->
         JS.get (Table.table T) (2 * y) = Some v
         /\ JS.get (Table.table T) (2 * y + 1) = Some (Z.of_nat l).
Proof.
  intros (Hlen & Hcs & Hkraft & Hvals).
  pose proof (table_insertLengths (None :: map Some counts) 16 1 0
                (Table.initDecoder (None :: map Some counts)) vals
                ltac:(lia) ltac:(lia) eq_refl) as Hins.
  rewrite counts_of_bits in Hins by done.
  destruct Hins as (T & Hins & _ & Hat).
  - eapply Forall_impl; [by apply bits_good |]. by intros i (c & -> & _).
  - intros i Hi. cbn [Table.initDecoder Table.counts length].
    rewrite length_map, Hlen. unfold JS.get.
    destruct (Z.ltb_spec i 0); [lia |].
    rewrite lookup_replicate_2 by lia. done.
  - done.
  - done.
  - apply (fits_of_kraft counts 1 0); [done | lia | lia |].
    rewrite Hlen. exact Hkraft.
  - rewrite canonical_length by done. lia.
  - exists T. unfold Table.loadTable. rewrite lengths_eq, Hins.
    split; [done |]. exact Hat.
Qed.

(** X10: the lookup table of a valid table specification, filled as
    [parseHuffmanTable] fills a decoder, decodes by one look at sixteen
    bits: when the bits that [peek] returns begin with the code of a value,
    [decodeHuffman] returns that value and takes the bits of the code, and
    no more, out of the buffer. *)
Theorem table_decodeHuffman_codeword (counts vals : list Z)
  (r r' : DataViewReader) (img img' : Img) (x : Z) (k l : nat) (w v : Z) :
  valid_table counts vals ->
  canonical counts 1 0 !! k = Some (l, w) -> vals !! k = Some v ->
  peek r img 16 = Some (x, r', img') ->
  Z.shiftr x (16 - Z.of_nat l) = w ->
  exists T,
    Table.loadTable (None :: map Some counts) vals = Some T
    /\ Table.decodeHuffman T r img
       = Some (Some v, Table.Known (consumeBits r' (Z.of_nat l)), img').
Proof.
  intros Hvalid Hk Hv Hpeek Hw.
  destruct (table_loadTable counts vals Hvalid) as (T & Hload & Hat).
  exists T. split; [done |].
  pose proof Hvalid as (Hlen & Hcs & Hkraft & Hvals).
  destruct (canonical_range counts 1 0 k l w) as [Hl _]; [| lia | done |].
  { apply (fits_of_kraft counts 1 0); [done | lia | lia |].
    rewrite Hlen. exact Hkraft. }
  rewrite Hlen in Hl.
  apply peek_range in Hpeek as Hx; [| lia].
  assert (0 < 2 ^ (16 - Z.of_nat l)) as Hpos by (apply Z.pow_pos_nonneg; lia).
  rewrite Z.shiftr_div_pow2 in Hw by lia.
  pose proof (Z.div_mod x (2 ^ (16 - Z.of_nat l)) ltac:(lia)) as Hdm.
  pose proof (Z.mod_pos_bound x (2 ^ (16 - Z.of_nat l)) Hpos) as Hmod.
  rewrite Hw in Hdm.
  destruct (Hat k l w v x Hk Hv ltac:(lia)) as [Hval Hshift].
  unfold Table.decodeHuffman, Table.TABLE_LENGTH. rewrite Hpeek.
  cbn [mbind option_bind]. rewrite (Z.mul_comm x 2), Hval, Hshift. done.
Qed.

Lemma table_decodeHuffman_codeword_witness :
  exists T,
    Table.loadTable (None :: map Some test_counts) test_values = Some T
    /\ Table.decodeHuffman T (newReader test_codes) img0
       = Some (Some 4,
               Table.Known (consumeBits (mkReader test_codes 1 0 0 1337 16)
                              (Z.of_nat 3)),
               img0).
Proof.
  apply (table_decodeHuffman_codeword test_counts test_values
           (newReader test_codes) (mkReader test_codes 1 0 0 1337 16)
           img0 img0 1337 0 3 0 4).
  - split; [reflexivity |]. split; [repeat constructor; lia |].
    split; [by vm_compute | reflexivity].
  - by vm_compute.
  - reflexivity.
  - by vm_compute.
  - reflexivity.
Defined.

Lemma get_holes {A} n i : JS.get (replicate n (@None A)) i = None.
Proof.
  unfold JS.get. destruct (i <? 0); [done |].
  destruct (decide (Z.to_nat i < n)%nat).
  - by rewrite lookup_replicate_2.
  - by rewrite lookup_ge_None_2 by (rewrite length_replicate; lia).
Qed.

(** X11: on sixteen bits that begin with no code of the table, the lookup
    table has nothing: [decodeHuffman] returns [undefined], and
    [consumeBits(undefined)] leaves the reader with a [buffSize] that is not
    a number. *)
Theorem table_decodeHuffman_no_codeword (counts vals : list Z)
  (r r' : DataViewReader) (img img' : Img) (x : Z) :
  valid_table counts vals ->
  peek r img 16 = Some (x, r', img') ->
  kraft counts <= x ->
  exists T,
    Table.loadTable (None :: map Some counts) vals = Some T
    /\ Table.decodeHuffman T r img = Some (None, Table.NaNSize r', img').
Proof.
  intros (Hlen & Hcs & Hkraft & Hvals) Hpeek Hx.
  pose proof (table_insertLengths_end (None :: map Some counts) 16 1 0
                (Table.initDecoder (None :: map Some counts)) vals
                ltac:(lia) ltac:(lia) eq_refl) as Hins.
  rewrite counts_of_bits in Hins by done.
  destruct Hins as (T & rest & Hins & Hidx & _ & Hup).
  - eapply Forall_impl; [by apply bits_good |]. by intros i (c & -> & _).
  - intros i Hi. cbn [Table.initDecoder Table.counts length].
    rewrite length_map, Hlen. unfold JS.get.
    destruct (Z.ltb_spec i 0); [lia |].
    rewrite lookup_replicate_2 by lia. done.
  - done.
  - done.
  - apply (fits_of_kraft counts 1 0); [done | lia | lia |].
    rewrite Hlen. exact Hkraft.
  - rewrite canonical_length by done. lia.
  - exists T. unfold Table.loadTable. rewrite lengths_eq, Hins.
    split; [done |]. fold (kraft counts) in Hidx.
    change (2 ^ (17 - Z.of_nat 1 - Z.of_nat 16)) with 1 in Hidx.
    unfold Table.decodeHuffman, Table.TABLE_LENGTH. rewrite Hpeek.
    cbn [mbind option_bind].
    rewrite !Hup by lia. cbn [Table.initDecoder Table.table].
    by rewrite !get_holes.
Qed.

Lemma table_decodeHuffman_no_codeword_witness :
  exists T,
    Table.loadTable (None :: map Some test_counts) test_values = Some T
    /\ Table.decodeHuffman T (newReader (map mkByte [255; 0; 18])) img0
       = Some (None,
               Table.NaNSize (mkReader (map mkByte [255; 0; 18]) 2 0 0 65298 16),
               img0).
Proof.
  apply (table_decodeHuffman_no_codeword test_counts test_values
           (newReader (map mkByte [255; 0; 18]))
           (mkReader (map mkByte [255; 0; 18]) 2 0 0 65298 16) img0 img0 65298).
  - split; [reflexivity |]. split; [repeat constructor; lia |].
    split; [by vm_compute | reflexivity].
  - by vm_compute.
  - by vm_compute.
Defined.

(** * More of the code: the transforms on a flat block *)

(** A row whose seven AC coefficients are 0: the short cut of [idctrow]. *)
Lemma idctrow_flat blk idx x0 :
  JS.get blk (0 + idx) = x0 ->
  JS.get blk (1 + idx) = Some 0 -> JS.get blk (2 + idx) = Some 0 ->
  JS.get blk (3 + idx) = Some 0 -> JS.get blk (4 + idx) = Some 0 ->
  JS.get blk (5 + idx) = Some 0 -> JS.get blk (6 + idx) = Some 0 ->
  JS.get blk (7 + idx) = Some 0 ->
  idctrow blk idx
  = for_each (map (fun i => idx + i) idx8)
      (fun blk i => JS.set blk i (Some (JS.cshl x0 3))) blk.
Proof.
  intros H0 H1 H2 H3 H4 H5 H6 H7. unfold idctrow.
  rewrite H0, H1, H2, H3, H4, H5, H6, H7. reflexivity.
Qed.

(** A column whose seven lower entries are 0: the short cut of [idctcol]. *)
Lemma idctcol_flat blk idx x0 :
  JS.get blk (idx + 8 * 0) = x0 ->
  JS.get blk (idx + 8 * 1) = Some 0 -> JS.get blk (idx + 8 * 2) = Some 0 ->
  JS.get blk (idx + 8 * 3) = Some 0 -> JS.get blk (idx + 8 * 4) = Some 0 ->
  JS.get blk (idx + 8 * 5) = Some 0 -> JS.get blk (idx + 8 * 6) = Some 0 ->
  JS.get blk (idx + 8 * 7) = Some 0 ->
  idctcol blk idx
  = for_each idx8
      (fun blk i =>
         JS.set blk (idx + 8 * i)
           (Some (clampIdct (JS.csar (JS.cadd x0 (Some 32)) 6)))) blk.
Proof.
  intros H0 H1 H2 H3 H4 H5 H6 H7. unfold idctcol.
  rewrite H0, H1, H2, H3, H4, H5, H6, H7. reflexivity.
Qed.

Lemma chenwang_rows c :
  for_each (map (fun r => 8 * r) idx8) idctrow (dc_only c)
  = replicate 8 (Some (JS.cshl (Some c) 3)) ++ replicate 56 (Some 0).
Proof.
  change (map (fun r => 8 * r) idx8) with (0 :: [8; 16; 24; 32; 40; 48; 56]).
  rewrite for_each_cons.
  rewrite (idctrow_flat (dc_only c) 0 (Some c)) by reflexivity.
  generalize (JS.cshl (Some c) 3). intros X. by vm_compute.
Qed.

Lemma chenwang_cols X :
  for_each idx8 idctcol (replicate 8 (Some X) ++ replicate 56 (Some 0))
  = replicate 64 (Some (clampIdct (JS.csar (JS.cadd (Some X) (Some 32)) 6))).
Proof.
  change idx8 with [0; 1; 2; 3; 4; 5; 6; 7] at 1.
  do 8 (rewrite for_each_cons;
        erewrite (idctcol_flat _ _ (Some X)) by reflexivity).
  generalize (clampIdct (JS.csar (JS.cadd (Some X) (Some 32)) 6)).
  intros T. by vm_compute.
Qed.

Lemma chenwang_sample c :
  - 2 ^ 28 <= c < 2 ^ 28 - 4 ->
  clampIdct (JS.csar (JS.cadd (Some (JS.cshl (Some c) 3)) (Some 32)) 6)
  = clampIdct ((c + 4) / 8).
Proof.
  intros Hc. f_equal. change (2 ^ 28) with 268435456 in Hc.
  unfold JS.cshl, JS.csar, JS.cadd, JS.int32_of, JS.sar.
  cbn [default mbind option_bind]. unfold id.
  rewrite (toInt32_id c) by (change (2 ^ 31) with 2147483648; lia).
  rewrite shl_small by (change (2 ^ 31) with 2147483648; lia).
  change (2 ^ 3) with 8.
  rewrite !(toInt32_id (c * 8 + 32))
    by (change (2 ^ 31) with 2147483648; lia).
  change (6 mod 32) with 6. rewrite Z.shiftr_div_pow2 by lia.
  change (2 ^ 6) with (8 * 8).
  replace (c * 8 + 32) with (8 * (c + 4)) by lia.
  by rewrite Z.div_mul_cancel_l by lia.
Qed.

(** X12: on a block that has only a DC coefficient [c], with
    [-2^28 <= c < 2^28 - 4] so that [(c << 3) + 32] is a 32-bit integer, the
    Chen-Wang transform returns a flat block: every sample is [c / 8]
    rounded to the nearest integer, the larger one in a tie, and clamped to
    -128 .. 127. *)
Theorem chenwang_dc_only (c : Z) :
  - 2 ^ 28 <= c < 2 ^ 28 - 4 ->
  idctChenWang (dc_only c) = replicate 64 (Some (clampIdct ((c + 4) / 8))).
Proof.
  intros Hc. unfold idctChenWang.
  by rewrite chenwang_rows, chenwang_cols, chenwang_sample.
Qed.

Lemma chenwang_dc_only_witness :
  idctChenWang (dc_only 1020) = replicate 64 (Some (clampIdct ((1020 + 4) / 8))).
Proof. apply (chenwang_dc_only 1020). lia. Defined.

(** The sum of the naive transform for a flat block, also when the DC
    coefficient is 0. *)
Lemma fold_fzero_keep {A} (f : A -> float) (l : list A) s :
  (forall z, fzero z -> (s + z)%float = s) ->
  (forall a, a ∈ l -> fzero (f a)) ->
  fold_left (fun acc a => (acc + f a)%float) l s = s.
Proof.
  intros Hs. induction l as [| a l IH]; intros Hl; [done |].
  cbn [fold_left]. rewrite Hs.
  - apply IH. intros a' Ha'. apply Hl. by apply list_elem_of_further.
  - apply Hl. apply list_elem_of_here.
Qed.

Lemma idct_sum_flat c (cosx cosy : Z -> float) :
  cosx 0 = 1%float -> cosy 0 = 1%float ->
  (forall u, 0 <= u < 8 -> Num.finite (cosx u) = true) ->
  (forall v, 0 <= v < 8 -> Num.finite (cosy v) = true) ->
  (forall z, fzero z -> (dc_sum c + z)%float = dc_sum c) ->
  idct_sum (dc_only c) cosx cosy = dc_sum c.
Proof.
  intros Hx0 Hy0 Hx Hy Hkeep.
  assert (forall u v, 0 <= u < 8 -> 0 <= v < 8 -> (u, v) <> (0, 0) ->
            fzero (C u * C v
                   * Num.of_cell (JS.get (dc_only c) (v * DATA_UNIT_SIZE + u))
                   * cosx u * cosy v)%float) as Hterm.
  { intros u v Hu Hv Huv. unfold DATA_UNIT_SIZE.
    rewrite dc_only_get by lia.
    destruct (Z.eqb_spec (v * 8 + u) 0) as [He |];
      [exfalso; apply Huv; f_equal; lia |].
    apply mul_fzero_l; [| by apply Hy].
    apply mul_fzero_l; [| by apply Hx].
    apply CC_zero. }
  assert (forall v, 0 < v < 8 ->
            for_each idx8 (fun sum u =>
              (sum + C u * C v
                     * Num.of_cell (JS.get (dc_only c) (v * DATA_UNIT_SIZE + u))
                     * cosx u * cosy v)%float) (dc_sum c) = dc_sum c) as Hrow.
  { intros v Hv. unfold for_each. apply (fold_fzero_keep _ idx8 _ Hkeep).
    intros u Hu. apply idx8_elem in Hu. apply Hterm; [lia | lia |].
    intros [= ? ?]. lia. }
  assert (for_each idx8 (fun sum u =>
            (sum + C u * C 0
                   * Num.of_cell (JS.get (dc_only c) (0 * DATA_UNIT_SIZE + u))
                   * cosx u * cosy 0%Z)%float) 0%float = dc_sum c) as Hfirst.
  { change idx8 with (0 :: [1; 2; 3; 4; 5; 6; 7]).
    rewrite for_each_cons. unfold for_each.
    assert ((0 + C 0 * C 0
                 * Num.of_cell (JS.get (dc_only c) (0 * DATA_UNIT_SIZE + 0))
                 * cosx 0%Z * cosy 0%Z)%float = dc_sum c) as ->
      by (by rewrite Hx0, Hy0).
    apply (fold_fzero_keep _ _ _ Hkeep).
    intros u Hu. apply Hterm; [| lia |].
    - assert (u ∈ idx8) as Hu8
        by (change idx8 with (0 :: [1; 2; 3; 4; 5; 6; 7]);
            by apply list_elem_of_further).
      by apply idx8_elem in Hu8.
    - intros [= ->]. vm_compute in Hu.
      by repeat (inversion Hu as [| ? ? ? Hu']; subst; clear Hu;
                 rename Hu' into Hu). }
  assert (forall tl, (forall v, v ∈ tl -> 0 < v < 8) ->
            for_each tl (fun sum v =>
              for_each idx8 (fun sum u =>
                (sum + C u * C v
                       * Num.of_cell (JS.get (dc_only c) (v * DATA_UNIT_SIZE + u))
                       * cosx u * cosy v)%float) sum) (dc_sum c) = dc_sum c)
    as Hrows.
  { induction tl as [| v tl IH]; intros Htl; [done |].
    rewrite for_each_cons, Hrow.
    - apply IH. intros v' Hv'. apply Htl. by apply list_elem_of_further.
    - apply Htl. apply list_elem_of_here. }
  unfold idct_sum. change idx8 with (0 :: [1; 2; 3; 4; 5; 6; 7]) at 1.
  rewrite for_each_cons, Hfirst. apply Hrows.
  intros v Hv.
  assert (v ∈ idx8) as Hv8
    by (change idx8 with (0 :: [1; 2; 3; 4; 5; 6; 7]);
        by apply list_elem_of_further).
  apply idx8_elem in Hv8.
  assert (v <> 0); [| lia].
  intros ->.
  by repeat (inversion Hv as [| ? ? ? Hv']; subst; clear Hv;
             rename Hv' into Hv).
Qed.

Lemma idct_flat (cos : float -> float) c :
  cos_admissible cos ->
  (forall z, fzero z -> (dc_sum c + z)%float = dc_sum c) ->
  idct cos (dc_only c) = replicate 64 (Num.round (dc_sum c / 4)%float).
Proof.
  intros [Hcos0 Hfin] Hkeep. unfold idct.
  apply idct_fill_const; [done |]. intros x y Hx Hy.
  apply idct_sum_flat; try done.
  - by rewrite angle_zero.
  - by rewrite angle_zero.
  - intros u Hu. by apply Hfin, angle_finite.
  - intros v Hv. by apply Hfin, angle_finite.
Qed.

(** The sums and their roundings, for the DC coefficients of 8-bit
    samples. *)
Lemma dc_sums_rounded c :
  -1024 <= c <= 1023 ->
  (forall z, fzero z -> (dc_sum c + z)%float = dc_sum c)
  /\ Num.round (dc_sum c / 4)%float
     = Some ((c + 4) / 8 - (if (0 <? c) && (c mod 8 =? 4) then 1 else 0)).
Proof.
  intros Hc.
  assert (forallb (fun n =>
            let c := Z.of_nat n - 1024 in
            match Prim2SF (dc_sum c) with
            | S754_finite _ _ _ | S754_zero false => true
            | _ => false
            end
            && bool_decide
                 (Num.round (dc_sum c / 4)%float
                  = Some ((c + 4) / 8
                          - (if (0 <? c) && (c mod 8 =? 4) then 1 else 0))))
            (seq 0 2048) = true) as Hall by (by vm_compute).
  rewrite forallb_forall in Hall.
  specialize (Hall (Z.to_nat (c + 1024))
                ltac:(apply list_elem_of_In, elem_of_seq; lia)).
  cbv zeta in Hall.
  replace (Z.of_nat (Z.to_nat (c + 1024)) - 1024) with c in Hall by lia.
  apply andb_true_iff in Hall as [Hkeep Hround].
  apply bool_decide_eq_true in Hround. split; [| done].
  intros z [b Hz].
  destruct (Prim2SF (dc_sum c)) as [[|] | | | sg m e] eqn:Hs; try done.
  - apply Prim2SF_inj. rewrite add_spec, Hs, Hz. by destruct b.
  - apply add_fzero_r; [by exists sg, m, e | by exists b].
Qed.

(** X13: on a block that has only a DC coefficient [c], from -1024 to 1023
    as for 8-bit samples, the naive transform and the one with the cache
    return a flat block of [c / 8] rounded to the nearest integer, but for
    the positive [c] that are 4 modulo 8: there the tie goes down, since
    [INV_SQRT2 * INV_SQRT2] is below one half. So on these blocks they
    return one less than the Chen-Wang transform, and the same as it on the
    others up to 1019. *)
Theorem naive_dc_only (cos : float -> float) (c : Z) :
  cos_admissible cos -> -1024 <= c <= 1023 ->
  idct cos (dc_only c)
  = replicate 64
      (Some ((c + 4) / 8 - (if (0 <? c) && (c mod 8 =? 4) then 1 else 0)))
  /\ (idctCached cos None (dc_only c)).1 = idct cos (dc_only c)
  /\ (c <= 1019 ->
      idct cos (dc_only c) = idctChenWang (dc_only c)
      <-> ~ (0 < c /\ c mod 8 = 4)).
Proof.
  intros Hcos Hc. destruct (dc_sums_rounded c Hc) as [Hkeep Hround].
  rewrite idctCached_idct, (idct_flat cos c Hcos Hkeep), Hround.
  split; [done |]. split; [done |]. intros Hc'.
  unfold idctChenWang. rewrite chenwang_rows, chenwang_cols, chenwang_sample
    by (change (2 ^ 28) with 268435456; lia).
  pose proof (Z.div_mod (c + 4) 8 ltac:(lia)) as Hdm.
  pose proof (Z.mod_pos_bound (c + 4) 8 ltac:(lia)) as Hmod.
  pose proof (Z.div_mod c 8 ltac:(lia)) as Hdm'.
  pose proof (Z.mod_pos_bound c 8 ltac:(lia)) as Hmod'.
  assert (clampIdct ((c + 4) / 8) = (c + 4) / 8) as ->.
  { unfold clampIdct.
    destruct (Z.gtb_spec ((c + 4) / 8) 127); [lia |].
    destruct (Z.ltb_spec ((c + 4) / 8) (-128)); [lia | done]. }
  change 64%nat with (S 63). cbn [replicate].
  assert (forall d, (Some ((c + 4) / 8 - d)
                       :: replicate 63 (Some ((c + 4) / 8 - d))
                     = Some ((c + 4) / 8) :: replicate 63 (Some ((c + 4) / 8)))
                    <-> d = 0) as Hd.
  { intros d. split; [intros [= ? _]; lia | intros ->; by rewrite Z.sub_0_r]. }
  rewrite Hd.
  destruct (Z.ltb_spec 0 c), (Z.eqb_spec (c mod 8) 4); cbn [andb];
    split; try done; try tauto; try lia.
Qed.

Lemma naive_dc_only_witness :
  idct cos_grid (dc_only 4)
  = replicate 64
      (Some ((4 + 4) / 8 - (if (0 <? 4) && (4 mod 8 =? 4) then 1 else 0)))
  /\ (idctCached cos_grid None (dc_only 4)).1 = idct cos_grid (dc_only 4)
  /\ (4 <= 1019 ->
      idct cos_grid (dc_only 4) = idctChenWang (dc_only 4)
      <-> ~ (0 < 4 /\ 4 mod 8 = 4)).
Proof.
  apply (naive_dc_only cos_grid 4); [exact cos_grid_admissible | lia].
Defined.

(** * More of the code: a DC coefficient as an encoder writes it *)

Section ReceiveBits.
Context {Src : Type} `{BitSource Src}.

  (** [receive] of the bits of a number returns the number. *)
Lemma receive_loop_code_bits n : forall v (s s' : Src) x,
    0 <= v -> (v + 1) * 2 ^ Z.of_nat n <= 2 ^ 31 ->
    feeds s (code_bits n x) s' ->
    receive_loop n v s
    = Some (v * 2 ^ Z.of_nat n + x mod 2 ^ Z.of_nat n, s').
  Proof.
    induction n as [| n IH]; intros v s s' x Hv Hfit Hfeed.
    - cbn in Hfeed. subst s'. cbn [receive_loop]. f_equal. f_equal.
      change (2 ^ Z.of_nat 0) with 1. rewrite Z.mod_1_r. lia.
    - cbn [code_bits feeds] in Hfeed. destruct Hfeed as (s1 & Hb & Hfeed).
      cbn [receive_loop]. rewrite Hb.
      rewrite Nat2Z.inj_succ, Z.pow_succ_r in * by lia.
      assert (0 < 2 ^ Z.of_nat n) as Hpos by (apply Z.pow_pos_nonneg; lia).
      rewrite shl_small; [| lia | change (2 ^ 1) with 2; nia].
      change (2 ^ 1) with 2.
      assert (0 <= Z.b2z (Z.testbit x (Z.of_nat n)) <= 1) as Hbit
        by (destruct (Z.testbit x (Z.of_nat n)); cbn; lia).
      rewrite (IH _ s1 s' x) by (done || nia).
      do 2 f_equal.
      rewrite (Z.mul_comm 2 (2 ^ Z.of_nat n)), Z.rem_mul_r by lia.
      rewrite Z.testbit_spec' by lia. lia.
  Qed.

  (** Both decoders of a valid table decode every codeword. *)
Lemma loaded_decoders counts vals :
    valid_table counts vals ->
    exists t a,
      loadTable (TreeDecoder (newHuffTree 0)) (None :: map Some counts) vals
      = Some (TreeDecoder t)
      /\ loadTable (ArrayDecoder newHuffArray) (None :: map Some counts) vals
         = Some (ArrayDecoder a)
      /\ forall k l w v (s s' : Src),
           canonical counts 1 0 !! k = Some (l, w) -> vals !! k = Some v ->
           feeds s (code_bits l w) s' ->
           decodeHuffman (TreeDecoder t) s = Some (Some v, s')
           /\ decodeHuffman (ArrayDecoder a) s = Some (Some v, s').
  Proof.
    intros Hvalid.
    destruct (loadTable_tree counts vals Hvalid) as (t & Htree & Hat).
    pose proof (loadTable_array counts vals Hvalid) as Harray.
    destruct Hvalid as (Hlen & Hcs & Hkraft & Hvals).
    assert (fits counts 1 0) as Hfit.
    { apply (fits_of_kraft counts 1 0); [done | lia | lia |].
      rewrite Hlen. exact Hkraft. }
    eexists t, _. split; [exact Htree |]. split; [exact Harray |].
    intros k l w v s0 s0' Hk Hv Hbits.
    destruct (canonical_range _ _ _ _ _ _ Hfit ltac:(lia) Hk) as [Hl _].
    split.
    - destruct l as [| l]; [lia |]. cbn [decodeHuffman].
      apply (tree_decodeHuffman_at (code_bits l w)
               (Z.b2z (Z.testbit w (Z.of_nat l)))); [| done].
      by apply (Hat k (S l) w v).
    - cbn [decodeHuffman]. rewrite <- Hv.
      rewrite (array_decodeHuffman_codeword _ k l w s0 s0');
        cbn [bits huffcode huffval].
      + done.
      + by apply bits_good.
      + by rewrite counts_of_bits.
      + by rewrite counts_of_bits.
      + by rewrite counts_of_bits.
      + done.
  Qed.

End ReceiveBits.

(** [extend] of the bits that an encoder writes for a difference. *)
Lemma extend_diff_bits (t : nat) d :
  (1 <= t <= 16)%nat -> in_category d t ->
  extend ((if 0 <? d then d else d - 1) mod 2 ^ Z.of_nat t)
    (Some (Z.of_nat t)) = d.
Proof.
  intros Ht Hd. destruct t as [| n]; [lia |]. cbn [in_category] in Hd.
  rewrite extend_pos by lia.
  replace (Z.of_nat (S n) - 1) with (Z.of_nat n) by lia.
  rewrite Nat2Z.inj_succ, Z.pow_succ_r in * by lia.
  assert (0 < 2 ^ Z.of_nat n) as Hpos by (apply Z.pow_pos_nonneg; lia).
  destruct (Z.ltb_spec 0 d).
  - rewrite Z.mod_small by lia.
    destruct (Z.ltb_spec d (2 ^ Z.of_nat n)); lia.
  - assert ((d - 1) mod (2 * 2 ^ Z.of_nat n) = d - 1 + 2 * 2 ^ Z.of_nat n)
      as ->.
    { symmetry. apply (Z.mod_unique _ _ (-1)); lia. }
    destruct (Z.ltb_spec (d - 1 + 2 * 2 ^ Z.of_nat n) (2 ^ Z.of_nat n)); lia.
Qed.

(** X14: [decodeDCCoeff] decodes what an encoder writes. For a valid table
    whose value at the place [k] is the category [t], up to 16, and a
    difference [d] of that category, on the code of [k] followed by the
    bits of [d] it returns the predictor of the component plus [d] and
    leaves the source after these bits, with the tree as with the
    arrays. *)
Theorem decodeDCCoeff_round_trip (counts vals : list Z) (k l : nat) (w : Z)
  (t : nat) (d id : Z) (s s' : Source) :
  valid_table counts vals ->
  canonical counts 1 0 !! k = Some (l, w) ->
  vals !! k = Some (Z.of_nat t) -> (t <= 16)%nat ->
  in_category d t ->
  feeds s (code_bits l w ++ diff_bits t d) s' ->
  exists tr ar,
    loadTable (TreeDecoder (newHuffTree 0)) (None :: map Some counts) vals
    = Some (TreeDecoder tr)
    /\ loadTable (ArrayDecoder newHuffArray) (None :: map Some counts) vals
       = Some (ArrayDecoder ar)
    /\ decodeDCCoeff s id (TreeDecoder tr)
       = Some (JS.cadd (JS.get (dcpred s'.2) id) (Some d), s')
    /\ decodeDCCoeff s id (ArrayDecoder ar)
       = Some (JS.cadd (JS.get (dcpred s'.2) id) (Some d), s').
Proof.
  intros Hvalid Hk Hv Ht Hd Hfeed.
  destruct (loaded_decoders counts vals Hvalid) as (tr & ar & Htr & Har & Hdec).
  exists tr, ar. split; [done |]. split; [done |].
  apply feeds_app in Hfeed as (s1 & Hcode & Hbits).
  destruct (Hdec k l w _ s s1 Hk Hv Hcode) as [Htree Harray].
  assert (receive s1 (Some (Z.of_nat t))
          = Some ((if 0 <? d then d else d - 1) mod 2 ^ Z.of_nat t, s'))
    as Hrec.
  { unfold receive. cbn [default]. unfold Datatypes.id. rewrite Nat2Z.id.
    rewrite (receive_loop_code_bits t 0 s1 s'
               (if 0 <? d then d else d - 1) ltac:(lia)); [done | | done].
    assert (2 ^ Z.of_nat t <= 2 ^ 16) by (apply Z.pow_le_mono_r; lia).
    change (2 ^ 16) with 65536 in *. change (2 ^ 31) with 2147483648. lia. }
  assert (extend ((if 0 <? d then d else d - 1) mod 2 ^ Z.of_nat t)
            (Some (Z.of_nat t)) = d) as Hext.
  { destruct t as [| n]; [| by apply extend_diff_bits; [lia |]].
    cbn in Hd. by subst d. }
  unfold decodeDCCoeff. rewrite Htree, Harray. cbn [mbind option_bind].
  rewrite Hrec. cbn [mbind option_bind]. by rewrite Hext.
Qed.

Lemma decodeDCCoeff_round_trip_witness :
  exists tr ar,
    loadTable (TreeDecoder (newHuffTree 0)) (None :: map Some test_counts)
      test_values
    = Some (TreeDecoder tr)
    /\ loadTable (ArrayDecoder newHuffArray) (None :: map Some test_counts)
         test_values
       = Some (ArrayDecoder ar)
    /\ decodeDCCoeff (newReader [mkByte 10], img1) 1 (TreeDecoder tr)
       = Some (JS.cadd
                 (JS.get (dcpred (mkReader [mkByte 10] 0 0 1 0 0, img1).2) 1)
                 (Some (-10)),
               (mkReader [mkByte 10] 0 0 1 0 0, img1))
    /\ decodeDCCoeff (newReader [mkByte 10], img1) 1 (ArrayDecoder ar)
       = Some (JS.cadd
                 (JS.get (dcpred (mkReader [mkByte 10] 0 0 1 0 0, img1).2) 1)
                 (Some (-10)),
               (mkReader [mkByte 10] 0 0 1 0 0, img1)).
Proof.
  apply (decodeDCCoeff_round_trip test_counts test_values 0 3 0 4 (-10) 1
           (newReader [mkByte 10], img1)
           (mkReader [mkByte 10] 0 0 1 0 0, img1)).
  - split; [reflexivity |]. split; [repeat constructor; lia |].
    split; [by vm_compute | reflexivity].
  - by vm_compute.
  - reflexivity.
  - lia.
  - cbn. lia.
  - apply feeds_read_bits. by vm_compute.
Defined.

(** * More of the code: the AC coefficients as an encoder writes them *)

Lemma csize_category z : z <> 0 -> in_category z (csize z).
Proof.
  intros Hz. unfold csize.
  pose proof (Z.log2_nonneg (Z.abs z)) as Hnn.
  pose proof (Z.log2_spec (Z.abs z) ltac:(lia)) as Hspec.
  replace (Z.to_nat (Z.log2 (Z.abs z) + 1))
    with (S (Z.to_nat (Z.log2 (Z.abs z)))) by lia.
  cbn [in_category]. rewrite Nat2Z.inj_succ, Z2Nat.id by lia. lia.
Qed.

Lemma csize_range z : z <> 0 -> Z.abs z < 2 ^ 15 -> (1 <= csize z <= 15)%nat.
Proof.
  intros Hz Hlt. unfold csize.
  pose proof (Z.log2_nonneg (Z.abs z)) as Hnn.
  assert (Z.log2 (Z.abs z) < 15); [| lia].
  apply Z.log2_lt_pow2; lia.
Qed.

(** The two nibbles of a symbol. *)
Lemma nibbles r t :
  0 <= r <= 15 -> 0 <= t <= 15 ->
  getLowNibble (Some (16 * r + t)) = t
  /\ getHighNibble (Some (16 * r + t)) = r.
Proof.
  intros Hr Ht. unfold getLowNibble, getHighNibble. cbn [default].
  unfold Datatypes.id. split.
  - change 15 with (JS.shl 1 4 - 1). rewrite and_mask by lia.
    rewrite toInt32_id by (change (2 ^ 31) with 2147483648; lia).
    change (2 ^ 4) with 16. symmetry. apply (Z.mod_unique _ _ r); lia.
  - rewrite sar_byte by lia. change (2 ^ 4) with 16.
    symmetry. apply (Z.div_unique _ _ _ t); lia.
Qed.

Lemma ac_placed_fresh zs : forall pre,
  ac_placed (pre ++ replicate (length zs) (Some 0)) (Z.of_nat (length pre)) zs
  = pre ++ map Some zs.
Proof.
  induction zs as [| z zs IH]; intros pre; [done |].
  cbn [ac_placed length replicate map].
  assert (forall v : cell,
            pre ++ v :: replicate (length zs) (Some 0)
            = (pre ++ [v]) ++ replicate (length zs) (Some 0)) as Happ
    by (intros v; by rewrite <- app_assoc).
  assert (Z.of_nat (length pre) + 1 = Z.of_nat (length (pre ++ [Some z])))
    as Hlen by (rewrite length_app; cbn; lia).
  destruct (Z.eqb_spec z 0) as [-> | Hz].
  - rewrite Happ, Hlen, IH. by rewrite <- app_assoc.
  - rewrite set_inside by (rewrite length_app; cbn; lia).
    rewrite insert_app_r_alt, Nat.sub_diag by lia. cbn [insert list_insert].
    rewrite Happ, Hlen, IH. by rewrite <- app_assoc.
Qed.

Section Encoded.
Variable acTable : HuffDecoder.
Variable code : Z -> list Z.

Lemma ac_loop_step fuel k (s s1 : Source) zz rs :
    k < 64 -> decodeHuffman acTable s = Some (rs, s1) ->
    ac_loop (S fuel) acTable k s zz
    = if getLowNibble rs =? 0 then
        if getHighNibble rs =? 15 then ac_loop fuel acTable (k + 16) s1 zz
        else if getHighNibble rs =? 0 then Some (s1, zz)
        else ac_loop fuel acTable (k + 1) s1 zz
      else
        match receive s1 (Some (getLowNibble rs)) with
        | Some (amp, s2) =>
            ac_loop fuel acTable (k + getHighNibble rs + 1) s2
              (JS.set zz (k + getHighNibble rs)
                 (Some (extend amp (Some (getLowNibble rs)))))
        | None => None
        end.
  Proof.
    intros Hk Hdec. cbn [ac_loop].
    destruct (Z.ltb_spec k 64); [| lia].
    unfold ac_body. rewrite Hdec. cbn [mbind option_bind].
    destruct (getLowNibble rs =? 0).
    - destruct (getHighNibble rs =? 15).
      + by replace (k + 15 + 1) with (k + 16) by lia.
      + by destruct (getHighNibble rs =? 0).
    - by destruct (receive s1 (Some (getLowNibble rs))) as [[amp s2] |].
  Qed.

  (** Sixteen zeros for every ZRL. *)
Lemma ac_loop_zrl n : forall fuel k (s s1 : Source) zz,
    Forall (decoded acTable code) (replicate n (240, [])) ->
    k + 16 * Z.of_nat n <= 64 ->
    feeds s (ac_bits code (replicate n (240, []))) s1 ->
    ac_loop (n + fuel) acTable k s zz
    = ac_loop fuel acTable (k + 16 * Z.of_nat n) s1 zz.
  Proof.
    induction n as [| n IH]; intros fuel k s s1 zz Hdec Hk Hfeed.
    - cbn in Hfeed. subst s1. cbn [Nat.add]. f_equal. lia.
    - cbn [replicate] in Hdec. apply Forall_cons in Hdec as [Hdec Hrest].
      unfold ac_bits in Hfeed. cbn [replicate map concat fst snd] in Hfeed.
      rewrite app_nil_r in Hfeed.
      apply feeds_app in Hfeed as (s0 & Hcode & Hfeed).
      cbn [Nat.add].
      rewrite (ac_loop_step _ _ s s0 _ (Some 240)) by (lia || by apply Hdec).
      change (getLowNibble (Some 240) =? 0) with true.
      change (getHighNibble (Some 240) =? 15) with true. cbv iota.
      rewrite (IH fuel (k + 16) s0 s1) by (done || lia). f_equal. lia.
  Qed.

Lemma ac_loop_encoded zs : forall run k fuel (s s' : Source) zz,
    1 <= k -> k + Z.of_nat run + Z.of_nat (length zs) = 64 ->
    64 - k <= Z.of_nat fuel ->
    Forall (fun z => Z.abs z < 2 ^ 15) zs ->
    Forall (decoded acTable code) (ac_symbols zs run) ->
    feeds s (ac_bits code (ac_symbols zs run)) s' ->
    ac_loop fuel acTable k s zz
    = Some (s', ac_placed zz (k + Z.of_nat run) zs).
  Proof.
    induction zs as [| z zs IH];
      intros run k fuel s s' zz Hk Hpos Hfuel Hzs Hdec Hfeed.
    - cbn [ac_symbols ac_placed length] in *. destruct run as [| run].
      + cbn in Hfeed. subst s'. rewrite ac_loop_unfold.
        by destruct (Z.ltb_spec k 64); [lia |].
      + apply Forall_cons in Hdec as [Hdec _].
        unfold ac_bits in Hfeed. cbn [map concat fst snd] in Hfeed.
        rewrite !app_nil_r in Hfeed.
        destruct fuel as [| fuel]; [lia |].
        by rewrite (ac_loop_step _ _ s s' _ (Some 0)) by (lia || by apply Hdec).
    - apply Forall_cons in Hzs as [Hz Hzs].
      cbn [ac_symbols ac_placed length] in *.
      destruct (Z.eqb_spec z 0) as [-> | Hnz].
      + replace (k + Z.of_nat run + 1) with (k + Z.of_nat (S run)) by lia.
        apply IH; done || lia.
      + apply Forall_app in Hdec as [Hzrl Hdec].
        apply Forall_cons in Hdec as [Hsym Hdec].
        unfold ac_bits in Hfeed. rewrite map_app, concat_app in Hfeed.
        apply feeds_app in Hfeed as (s1 & Hfeed1 & Hfeed).
        cbn [map concat fst snd] in Hfeed.
        rewrite <- app_assoc in Hfeed.
        apply feeds_app in Hfeed as (s2 & Hcode & Hfeed).
        apply feeds_app in Hfeed as (s3 & Hbits & Hfeed).
        pose proof (Nat.div_mod_eq run 16) as Hrun.
        pose proof (Nat.mod_upper_bound run 16 ltac:(lia)) as Hmod.
        set (n := (run / 16)%nat) in *. set (r := (run mod 16)%nat) in *.
        destruct (csize_range z Hnz Hz) as [Ht1 Ht15].
        pose proof (csize_category z Hnz) as Hcat.
        set (t := csize z) in *.
        assert (n <= fuel)%nat as Hn by lia.
        replace fuel with (n + (fuel - n))%nat by lia.
        rewrite (ac_loop_zrl n (fuel - n) k s s1); [| done | lia | done].
        destruct (fuel - n)%nat as [| fuel1] eqn:Hfuel1; [lia |].
        rewrite (ac_loop_step _ _ s1 s2 _
                   (Some (16 * Z.of_nat r + Z.of_nat t)))
          by (lia || by apply Hsym).
        destruct (nibbles (Z.of_nat r) (Z.of_nat t) ltac:(lia) ltac:(lia))
          as [-> ->].
        destruct (Z.eqb_spec (Z.of_nat t) 0); [lia |].
        unfold receive. cbn [default]. unfold Datatypes.id.
        rewrite Nat2Z.id.
        rewrite (receive_loop_code_bits t 0 s2 s3
                   (if 0 <? z then z else z - 1) ltac:(lia));
          [| | done].
        2:{ assert (2 ^ Z.of_nat t <= 2 ^ 15) by (apply Z.pow_le_mono_r; lia).
            change (2 ^ 15) with 32768 in *.
            change (2 ^ 31) with 2147483648. lia. }
        rewrite Z.mul_0_l, Z.add_0_l, extend_diff_bits by (lia || done).
        replace (k + 16 * Z.of_nat n + Z.of_nat r) with (k + Z.of_nat run)
          by lia.
        replace (k + Z.of_nat run + 1) with (k + Z.of_nat run + 1 + Z.of_nat 0)
          at 2 by lia.
        apply IH; done || lia.
  Qed.

End Encoded.

(** X15: [decodeACCoeffs] decodes what an encoder writes. For a valid
    table that has the symbols the block needs, and the 63 AC coefficients
    [zs] of a block, each of at most 15 bits, on the bits of their
    encoding (ZRL, run and size with the bits of the coefficient, EOB) it
    fills the array that [decodeDataUnit] made, zeros but for the DC
    coefficient, with [zs] and leaves the source after these bits, with
    the tree as with the arrays. *)
Theorem decodeACCoeffs_round_trip (counts vals : list Z) (ix : Z -> nat)
  (zs : list Z) (dc : cell) (s s' : Source) :
  valid_table counts vals ->
  length zs = 63%nat ->
  Forall (fun z => Z.abs z < 2 ^ 15) zs ->
  Forall (fun sb : Z * list Z => vals !! ix sb.1 = Some sb.1)
    (ac_symbols zs 0) ->
  feeds s (ac_bits (code_at counts ix) (ac_symbols zs 0)) s' ->
  exists tr ar,
    loadTable (TreeDecoder (newHuffTree 0)) (None :: map Some counts) vals
    = Some (TreeDecoder tr)
    /\ loadTable (ArrayDecoder newHuffArray) (None :: map Some counts) vals
       = Some (ArrayDecoder ar)
    /\ decodeACCoeffs s (dc :: replicate 63 (Some 0)) (TreeDecoder tr)
       = Some (s', dc :: map Some zs)
    /\ decodeACCoeffs s (dc :: replicate 63 (Some 0)) (ArrayDecoder ar)
       = Some (s', dc :: map Some zs).
Proof.
  intros Hvalid Hlen Hzs Hsyms Hfeed.
  destruct (loaded_decoders counts vals Hvalid) as (tr & ar & Htr & Har & Hdec).
  exists tr, ar. split; [done |]. split; [done |].
  destruct Hvalid as (Hcl & Hcs & Hkraft & Hvals).
  assert (forall d,
            (forall k l w v (s s' : Source),
               canonical counts 1 0 !! k = Some (l, w) -> vals !! k = Some v ->
               feeds s (code_bits l w) s' ->
               decodeHuffman d s = Some (Some v, s')) ->
            decodeACCoeffs s (dc :: replicate 63 (Some 0)) d
            = Some (s', dc :: map Some zs)) as Hall.
  { intros d Hd. unfold decodeACCoeffs.
    rewrite (ac_loop_encoded d (code_at counts ix) zs 0 1 63 s s');
      [| lia | rewrite Hlen; lia | lia | done | | done].
    - pose proof (ac_placed_fresh zs [dc]) as Hfresh.
      rewrite Hlen in Hfresh. exact (f_equal (fun zz => Some (s', zz)) Hfresh).
    - eapply Forall_impl; [exact Hsyms |]. intros [rs bs] Hrs s0 s1 Hcode.
      cbn [fst] in *.
      destruct (lookup_lt_is_Some_2 (canonical counts 1 0) (ix rs))
        as [[l w] Hlw].
      { rewrite canonical_length, <- Hvals by done.
        by eapply lookup_lt_Some. }
      unfold code_at, codewords in Hcode.
      rewrite list_lookup_fmap, Hlw in Hcode. cbn in Hcode.
      by apply (Hd (ix rs) l w). }
  split; apply Hall; intros k l w v s0 s1 Hk Hv Hcode;
    by destruct (Hdec k l w v s0 s1 Hk Hv Hcode).
Qed.

Lemma decodeACCoeffs_round_trip_witness :
  exists tr ar,
    loadTable (TreeDecoder (newHuffTree 0)) (None :: map Some test_counts)
      test_values
    = Some (TreeDecoder tr)
    /\ loadTable (ArrayDecoder newHuffArray) (None :: map Some test_counts)
         test_values
       = Some (ArrayDecoder ar)
    /\ decodeACCoeffs (newReader (map mkByte [125; 96]), img0)
         (Some 7 :: replicate 63 (Some 0)) (TreeDecoder tr)
       = Some ((mkReader (map mkByte [125; 96]) 1 0 4 0 0, img0),
               Some 7 :: map Some (3 :: -1 :: replicate 61 0))
    /\ decodeACCoeffs (newReader (map mkByte [125; 96]), img0)
         (Some 7 :: replicate 63 (Some 0)) (ArrayDecoder ar)
       = Some ((mkReader (map mkByte [125; 96]) 1 0 4 0 0, img0),
               Some 7 :: map Some (3 :: -1 :: replicate 61 0)).
Proof.
  apply (decodeACCoeffs_round_trip test_counts test_values
           (fun rs : Z => if rs =? 2 then 3%nat else if rs =? 1 then 5%nat
                          else 6%nat)
           (3 :: -1 :: replicate 61 0) (Some 7)
           (newReader (map mkByte [125; 96]), img0)
           (mkReader (map mkByte [125; 96]) 1 0 4 0 0, img0)).
  - split; [reflexivity |]. split; [repeat constructor; lia |].
    split; [by vm_compute | reflexivity].
  - reflexivity.
  - do 2 (apply Forall_cons; split; [by vm_compute |]).
    apply Forall_replicate. by vm_compute.
  - assert (ac_symbols (3 :: -1 :: replicate 61 0) 0
            = [(2, [1; 1]); (1, [0]); (0, [])]) as -> by (by vm_compute).
    repeat (apply Forall_cons; split; [by vm_compute |]). apply Forall_nil_2.
  - apply feeds_read_bits. by vm_compute.
Defined.

(** * More of the code: the segment of the Huffman tables *)

Lemma nextByte_next r b bs :
  next_are r (b :: bs) ->
  nextByte r = Some (byte_value b, set_index r (index r + 1))
  /\ next_are (set_index r (index r + 1)) bs.
Proof.
  intros [Hidx [suf Hdrop]].
  assert (view r !! Z.to_nat (index r + 1) = Some b) as Hb.
  { rewrite <- (Nat.add_0_r (Z.to_nat (index r + 1))), <- lookup_drop, Hdrop.
    done. }
  split.
  - unfold nextByte. cbn [set_index index view].
    rewrite <- (Z2Nat.id (index r + 1)) at 1 by lia.
    by rewrite (getUint8_lookup _ _ b Hb).
  - split; [cbn [set_index index]; lia |]. exists suf.
    cbn [set_index index view].
    replace (Z.to_nat (index r + 1 + 1)) with (S (Z.to_nat (index r + 1)))
      by lia.
    change (S (Z.to_nat (index r + 1))) with (1 + Z.to_nat (index r + 1))%nat.
    by rewrite Nat.add_comm, <- drop_drop, Hdrop.
Qed.

Lemma set_index_twice r i j : set_index (set_index r i) j = set_index r j.
Proof. done. Qed.

Lemma next_are_skip bs : forall r rest,
  next_are r (bs ++ rest) ->
  next_are (set_index r (index r + Z.of_nat (length bs))) rest.
Proof.
  intros r rest [Hidx [suf Hdrop]]. split; [cbn [set_index index]; lia |].
  exists suf. cbn [set_index index view].
  replace (Z.to_nat (index r + Z.of_nat (length bs) + 1))
    with (Z.to_nat (index r + 1) + length bs)%nat by lia.
  rewrite <- drop_drop, Hdrop, <- app_assoc.
  by rewrite drop_app_length.
Qed.

Lemma read_counts_spec cb : forall bits r rest,
  next_are r (cb ++ rest) ->
  read_counts (lengths_from (length bits) (length cb)) bits r
  = Some (bits ++ map (fun b => Some (byte_value b)) cb,
          set_index r (index r + Z.of_nat (length cb))).
Proof.
  induction cb as [| b cb IH]; intros bits r rest Hnext.
  - cbn. rewrite app_nil_r. do 2 f_equal. destruct r. unfold set_index.
    cbn. f_equal. lia.
  - cbn [length]. rewrite lengths_from_cons. cbn [read_counts].
    destruct (nextByte_next r b _ Hnext) as [-> Hnext1].
    cbn [mbind option_bind].
    rewrite (set_end bits (length bits)) by done.
    replace (S (length bits)) with (length (bits ++ [Some (byte_value b)]))
      by (rewrite length_app; cbn; lia).
    rewrite (IH _ _ rest Hnext1), <- app_assoc, set_index_twice.
    cbn [set_index index app map]. do 3 f_equal. lia.
Qed.

Lemma read_codes_spec n : forall d i nc r vb rest tail,
  length vb = n -> next_are r (vb ++ rest) ->
  read_codes d i n nc r
  = ('(d', _) ← insertCodes d i n (map byte_value vb ++ tail);
     Some (d', nc + Z.of_nat n, set_index r (index r + Z.of_nat n)))
  /\ forall d' l,
       insertCodes d i n (map byte_value vb ++ tail) = Some (d', l) ->
       l = tail.
Proof.
  induction n as [| n IH]; intros d i nc r vb rest tail Hlen Hnext.
  - destruct vb; [| done]. cbn. split; [| by intros ? ? [= _ <-]].
    do 3 f_equal; [lia |]. destruct r. unfold set_index. cbn. f_equal. lia.
  - destruct vb as [| b vb]; [done |]. injection Hlen as Hlen.
    cbn [read_codes insertCodes map app].
    destruct (nextByte_next r b _ Hnext) as [-> Hnext1].
    cbn [mbind option_bind].
    destruct (insertCode d i (byte_value b)) as [[ok d1] |];
      cbn [mbind option_bind]; [| done].
    destruct (IH d1 i (nc + 1) _ vb rest tail Hlen Hnext1) as [-> Hleft].
    split; [| done].
    destruct (insertCodes d1 i n (map byte_value vb ++ tail)) as [[d' l] |];
      cbn [mbind option_bind]; [| done].
    rewrite set_index_twice. cbn [set_index index].
    replace (nc + 1 + Z.of_nat n) with (nc + Z.of_nat (S n)) by lia.
    by replace (index r + 1 + Z.of_nat n) with (index r + Z.of_nat (S n))
      by lia.
Qed.

Lemma read_lengths_spec ls : forall d bits nc r vb rest,
  length vb = sum_list (map (count bits) ls) ->
  next_are r (vb ++ rest) ->
  read_lengths d ls bits nc r
  = ('(d', _) ← insertLengths d ls bits (map byte_value vb);
     Some (d', nc + Z.of_nat (length vb),
           set_index r (index r + Z.of_nat (length vb)))).
Proof.
  induction ls as [| i ls IH]; intros d bits nc r vb rest Hlen Hnext.
  - cbn in Hlen. destruct vb; [| done]. cbn.
    do 3 f_equal; [lia |]. destruct r. unfold set_index. cbn. f_equal. lia.
  - cbn [map] in Hlen.
    change (sum_list (count bits i :: map (count bits) ls))
      with (count bits i + sum_list (map (count bits) ls))%nat in Hlen.
    cbn [read_lengths insertLengths].
    set (n := count bits i) in *.
    rewrite <- (take_drop n vb) in Hnext |- * at 1.
    rewrite <- app_assoc in Hnext.
    assert (length (take n vb) = n) as Htake by (rewrite length_take; lia).
    destruct (read_codes_spec n d i nc r (take n vb) _
                (map byte_value (drop n vb)) Htake Hnext) as [-> Hleft].
    rewrite map_app.
    destruct (insertCodes d i n
                (map byte_value (take n vb) ++ map byte_value (drop n vb)))
      as [[d1 l] |] eqn:Hins; cbn [mbind option_bind]; [| done].
    rewrite (Hleft d1 l eq_refl).
    pose proof (next_are_skip _ _ _ Hnext) as Hnext1. rewrite Htake in Hnext1.
    rewrite (IH d1 bits _ _ (drop n vb) rest) by (rewrite ?length_drop; done || lia).
    destruct (insertLengths d1 ls bits (map byte_value (drop n vb)))
      as [[d' l'] |]; cbn [mbind option_bind]; [| done].
    rewrite set_index_twice, length_drop. cbn [set_index index].
    replace (nc + Z.of_nat n + Z.of_nat (length vb - n))
      with (nc + Z.of_nat (length vb)) by lia.
    by replace (index r + Z.of_nat n + Z.of_nat (length vb - n))
      with (index r + Z.of_nat (length vb)) by lia.
Qed.

Lemma set_index_here r : set_index r (index r + 0) = r.
Proof. destruct r. unfold set_index. cbn. f_equal. lia. Qed.

Lemma byte_value_range b : 0 <= byte_value b < 256.
Proof. unfold byte_value. pose proof (Byte.to_N_bounded b). lia. Qed.

Lemma byte_nibbles b :
  getHighNibble (Some (byte_value b)) = byte_value b / 16
  /\ getLowNibble (Some (byte_value b)) = byte_value b mod 16.
Proof.
  pose proof (byte_value_range b) as Hb.
  pose proof (Z.div_mod (byte_value b) 16 ltac:(lia)) as Hdm.
  pose proof (Z.mod_pos_bound (byte_value b) 16 ltac:(lia)) as Hmod.
  rewrite Hdm at 1 3.
  destruct (nibbles (byte_value b / 16) (byte_value b mod 16)) as [Hlo Hhi];
    [lia | lia | done].
Qed.

Lemma counts_of_table (cb : list Byte.byte) :
  length cb = 16%nat ->
  map (count (None :: map (fun b => Some (byte_value b)) cb)) lengths
  = map (fun b => Z.to_nat (byte_value b)) cb.
Proof.
  intros Hlen. do 16 (destruct cb as [| ? cb]; [done |]).
  destruct cb; [reflexivity | done].
Qed.

Lemma nextWord_bytes r hi lo bs :
  next_are r (hi :: lo :: bs) ->
  nextWord r
  = Some (byte_value hi * 256 + byte_value lo, set_index r (index r + 2))
  /\ next_are (set_index r (index r + 2)) bs.
Proof.
  intros Hnext.
  destruct (nextByte_next r hi _ Hnext) as [H1 Hnext1].
  destruct (nextByte_next _ lo _ Hnext1) as [H2 Hnext2].
  rewrite set_index_twice in *. cbn [set_index index] in *.
  replace (index r + 1 + 1) with (index r + 2) in * by lia.
  split; [| done].
  unfold nextByte in H1, H2. unfold nextWord, getUint16.
  cbn [set_index index view] in *.
  destruct (getUint8 (view r) (index r + 1)) as [x |]; [| done].
  destruct (getUint8 (view r) (index r + 1 + 1)) as [y |]; [| done].
  cbn [mbind option_bind] in *. injection H1 as ->. injection H2 as ->.
  do 3 f_equal. lia.
Qed.

Lemma parse_huffman_table_spec decoderType r tables (tb : TableBytes) rest :
  table_ok tb -> next_are r (table_bytes tb ++ rest) ->
  parse_huffman_table decoderType r tables
  = (tables' ← store_table decoderType tables tb;
     Some (set_index r (index r + Z.of_nat (length (table_bytes tb))),
           tables', Z.of_nat (length (table_bytes tb)))).
Proof.
  destruct tb as [[t cb] vb]. unfold table_ok, table_bytes. cbn [fst snd].
  intros [Hcb Hvb] Hnext. unfold parse_huffman_table, store_table, loadTable.
  cbn [fst snd].
  destruct cb as [| c cb]; [done |]. injection Hcb as Hcb.
  assert (next_are r (t :: c :: cb ++ vb ++ rest)) as Hnext0
    by (cbn [app] in Hnext; by rewrite <- app_assoc in Hnext).
  destruct (nextByte_next r t _ Hnext0) as [-> Hnext1].
  cbn [mbind option_bind].
  destruct (byte_nibbles t) as [-> ->].
  assert (lengths = 1 :: lengths_from 2 15) as Hl by reflexivity.
  rewrite Hl at 1. cbn [read_counts].
  destruct (nextByte_next _ c _ Hnext1) as [-> Hnext2].
  cbn [mbind option_bind].
  change (JS.set [] 1 (Some (byte_value c)))
    with ([None; Some (byte_value c)] : list cell).
  pose proof (read_counts_spec cb [None; Some (byte_value c)] _ _ Hnext2)
    as Hcounts.
  rewrite Hcb in Hcounts. cbn [length] in Hcounts. rewrite Hcounts.
  cbn [mbind option_bind app map].
  apply next_are_skip in Hnext2. rewrite Hcb in Hnext2.
  rewrite !set_index_twice in *. cbn [set_index index] in *.
  destruct (initDecoder (newDecoder decoderType)
              (None :: Some (byte_value c)
                 :: map (fun b => Some (byte_value b)) cb)) as [d |];
    cbn [mbind option_bind]; [| done].
  rewrite (read_lengths_spec lengths d _ 0 _ vb rest); [| | done].
  2:{ rewrite Hvb.
      pose proof (counts_of_table (c :: cb) ltac:(cbn; lia)) as Hc.
      cbn [map] in Hc. by rewrite Hc. }
  destruct (insertLengths d lengths _ (map byte_value vb)) as [[d' l] |];
    cbn [mbind option_bind]; [| done].
  destruct (set_table tables _ _ d') as [tables' |];
    cbn [mbind option_bind]; [| done].
  rewrite set_index_twice. cbn [set_index index length].
  rewrite length_app. cbn [length]. rewrite Hcb.
  unfold NUM_HUFFMAN_LENGTHS. do 3 f_equal; [f_equal |]; lia.
Qed.

Lemma parse_huffman_tables_spec decoderType tbs : forall fuel r tables rest,
  Forall table_ok tbs ->
  next_are r (concat (map table_bytes tbs) ++ rest) ->
  (length (concat (map table_bytes tbs)) <= fuel)%nat ->
  parse_huffman_tables fuel decoderType
    (Z.of_nat (length (concat (map table_bytes tbs)))) r tables
  = (tables' ← store_tables decoderType tables tbs;
     Some (set_index r
             (index r + Z.of_nat (length (concat (map table_bytes tbs)))),
           tables')).
Proof.
  induction tbs as [| tb tbs IH]; intros fuel r tables rest Hok Hnext Hfuel.
  - cbn. rewrite set_index_here. by destruct fuel.
  - apply Forall_cons in Hok as [Hok Hoks].
    cbn [map concat store_tables] in *. rewrite length_app in *.
    rewrite <- app_assoc in Hnext.
    assert (0 < length (table_bytes tb))%nat as Hpos
      by (destruct tb as [[? ?] ?]; cbn; lia).
    destruct fuel as [| fuel]; [lia |]. cbn [parse_huffman_tables].
    destruct (Z.gtb_spec (Z.of_nat (length (table_bytes tb)
                                    + length (concat (map table_bytes tbs)))) 0);
      [| lia].
    rewrite (parse_huffman_table_spec _ _ _ tb _ Hok Hnext).
    destruct (store_table decoderType tables tb) as [tables1 |];
      cbn [mbind option_bind]; [| done].
    apply next_are_skip in Hnext.
    replace (Z.of_nat (length (table_bytes tb)
                       + length (concat (map table_bytes tbs)))
             - Z.of_nat (length (table_bytes tb)))
      with (Z.of_nat (length (concat (map table_bytes tbs)))) by lia.
    rewrite (IH fuel _ tables1 rest Hoks Hnext) by lia.
    destruct (store_tables decoderType tables1 tbs) as [tables' |];
      cbn [mbind option_bind]; [| done].
    rewrite set_index_twice. cbn [set_index index]. do 3 f_equal. lia.
Qed.

(** X16: [parseHuffmanTable] on a well-formed DHT segment (the length,
    then tables, each a byte of class and destination, sixteen counts and as
    many values as the counts add up to) loads each table as [loadTable]
    does from its counts and values, puts it where its first byte says, a
    later table of a destination replacing an earlier one, and leaves the
    reader at the end of the segment; it throws when a table has a class
    other than 0 and 1, or cannot be loaded. *)
Theorem parseHuffmanTable_segment (decoderType : HuffmanType)
  (r : DataViewReader) (huffmanTables : option HuffmanTables)
  (hi lo : Byte.byte) (tbs : list TableBytes) (rest : list Byte.byte) :
  Forall table_ok tbs ->
  byte_value hi * 256 + byte_value lo
  = 2 + Z.of_nat (length (concat (map table_bytes tbs))) ->
  next_are r (hi :: lo :: concat (map table_bytes tbs) ++ rest) ->
  parseHuffmanTable decoderType r huffmanTables
  = (tables ← store_tables decoderType (default ([], []) huffmanTables) tbs;
     Some (set_index r (index r + (byte_value hi * 256 + byte_value lo)),
           tables))
  /\ next_are (set_index r (index r + (byte_value hi * 256 + byte_value lo)))
       rest.
Proof.
  intros Hok Hlen Hnext. unfold parseHuffmanTable.
  destruct (nextWord_bytes r hi lo _ Hnext) as [-> Hnext2].
  cbn [mbind option_bind]. rewrite Hlen.
  replace (2 + Z.of_nat (length (concat (map table_bytes tbs))) - 2)
    with (Z.of_nat (length (concat (map table_bytes tbs)))) by lia.
  rewrite (parse_huffman_tables_spec _ tbs _ _ _ rest Hok Hnext2) by lia.
  split.
  - destruct (store_tables decoderType _ tbs) as [tables |];
      cbn [mbind option_bind]; [| done].
    rewrite set_index_twice. cbn [set_index index]. do 3 f_equal. lia.
  - apply next_are_skip in Hnext2. rewrite set_index_twice in Hnext2.
    cbn [set_index index] in Hnext2.
    by replace (index r + (2 + Z.of_nat (length (concat (map table_bytes tbs)))))
      with (index r + 2 + Z.of_nat (length (concat (map table_bytes tbs))))
      by lia.
Qed.

Lemma parseHuffmanTable_segment_witness :
  parseHuffmanTable type_array
    (newReader (map mkByte ([0; 31; 0] ++ test_counts ++ test_values ++ [255])))
    None
  = (tables ← store_tables type_array (default ([], []) None)
                [(mkByte 0, map mkByte test_counts, map mkByte test_values)];
     Some (set_index
             (newReader
                (map mkByte ([0; 31; 0] ++ test_counts ++ test_values ++ [255])))
             (index
                (newReader
                   (map mkByte
                      ([0; 31; 0] ++ test_counts ++ test_values ++ [255])))
              + (byte_value (mkByte 0) * 256 + byte_value (mkByte 31))),
           tables))
  /\ next_are
       (set_index
          (newReader
             (map mkByte ([0; 31; 0] ++ test_counts ++ test_values ++ [255])))
          (index
             (newReader
                (map mkByte ([0; 31; 0] ++ test_counts ++ test_values ++ [255])))
           + (byte_value (mkByte 0) * 256 + byte_value (mkByte 31))))
       [mkByte 255].
Proof.
  apply (parseHuffmanTable_segment type_array
           (newReader
              (map mkByte ([0; 31; 0] ++ test_counts ++ test_values ++ [255])))
           None (mkByte 0) (mkByte 31)
           [(mkByte 0, map mkByte test_counts, map mkByte test_values)]
           [mkByte 255]).
  - apply Forall_cons. split; [by vm_compute | apply Forall_nil_2].
  - by vm_compute.
  - split; [by vm_compute |]. exists []. by vm_compute.
Defined.

(** * More of the code: the segment of the quantization tables *)

Lemma set_next {A} (pre rest : list (option A)) (x v : option A) n :
  length pre = n ->
  JS.set (pre ++ x :: rest) (Z.of_nat n) v = pre ++ v :: rest.
Proof.
  intros <-. rewrite set_inside by (rewrite length_app; cbn; lia).
  by rewrite insert_app_r_alt, Nat.sub_diag by lia.
Qed.

Lemma read_bytes_entries bs : forall done r rest,
  next_are r (bs ++ rest) ->
  read_entries (lengths_from (length done) (length bs)) 0
    (done ++ replicate (length bs) None) r
  = Some (done ++ map (fun b => Some (byte_value b)) bs,
          set_index r (index r + Z.of_nat (length bs))).
Proof.
  induction bs as [| b bs IH]; intros done r rest Hnext.
  - cbn. by rewrite set_index_here.
  - cbn [length replicate]. rewrite lengths_from_cons. cbn [read_entries].
    change (0 =? 0) with true. cbv iota.
    destruct (nextByte_next r b _ Hnext) as [-> Hnext1].
    cbn [mbind option_bind]. rewrite set_next by done.
    pose proof (IH (done ++ [Some (byte_value b)]) _ rest Hnext1) as Hrest.
    rewrite length_app, <- !app_assoc in Hrest. cbn [length app] in Hrest.
    rewrite Nat.add_1_r in Hrest. rewrite Hrest, set_index_twice.
    cbn [set_index index map]. do 3 f_equal. lia.
Qed.

Lemma read_words_entries n : forall bs done r rest precision,
  precision <> 0 -> length bs = (2 * n)%nat ->
  next_are r (bs ++ rest) ->
  read_entries (lengths_from (length done) n) precision
    (done ++ replicate n None) r
  = Some (done ++ map Some (words bs),
          set_index r (index r + Z.of_nat (length bs))).
Proof.
  induction n as [| n IH]; intros bs done r rest precision Hp Hlen Hnext.
  - destruct bs; [| done]. cbn. by rewrite set_index_here.
  - destruct bs as [| hi [| lo bs]]; [done | cbn in Hlen; lia |].
    cbn [length] in Hlen.
    cbn [replicate]. rewrite lengths_from_cons. cbn [read_entries].
    destruct (Z.eqb_spec precision 0); [done |].
    destruct (nextWord_bytes r hi lo _ Hnext) as [-> Hnext1].
    cbn [mbind option_bind]. rewrite set_next by done.
    pose proof (IH bs (done ++ [Some (byte_value hi * 256 + byte_value lo)])
                  _ rest precision Hp ltac:(lia) Hnext1) as Hrest.
    rewrite length_app, <- !app_assoc in Hrest. cbn [length app] in Hrest.
    rewrite Nat.add_1_r in Hrest. rewrite Hrest, set_index_twice.
    cbn [set_index index map words length]. do 3 f_equal. lia.
Qed.

Lemma parse_quant_table_spec r quantTables (qb : QuantBytes) rest :
  quant_ok qb -> next_are r (quant_bytes qb ++ rest) ->
  parse_quant_table r quantTables
  = Some (set_index r (index r + Z.of_nat (length (quant_bytes qb))),
          store_quant quantTables qb,
          Z.of_nat (length (quant_bytes qb)) - 1).
Proof.
  destruct qb as [t bs]. unfold quant_ok, quant_bytes, store_quant,
    quant_entries. cbn [fst snd].
  intros Hlen Hnext. unfold parse_quant_table.
  destruct (nextByte_next r t _ Hnext) as [-> Hnext1].
  cbn [mbind option_bind]. destruct (byte_nibbles t) as [-> ->].
  change (upto QUANT_TABLE_SIZE) with (lengths_from (length (@nil cell)) 64).
  change (replicate (Z.to_nat QUANT_TABLE_SIZE) None)
    with ([] ++ replicate 64 (@None Z)).
  unfold QUANT_TABLE_SIZE.
  destruct (Z.eqb_spec (byte_value t / 16) 0) as [Hp | Hp].
  - rewrite Hp. rewrite <- Hlen.
    rewrite (read_bytes_entries bs [] _ rest Hnext1).
    cbn [mbind option_bind app]. rewrite set_index_twice.
    cbn [set_index index length]. rewrite map_map.
    do 3 f_equal; [f_equal |]; lia.
  - rewrite (read_words_entries 64 bs [] _ rest _ Hp Hlen Hnext1).
    cbn [mbind option_bind app]. rewrite set_index_twice.
    cbn [set_index index length]. rewrite Hlen.
    replace (index r + 1 + Z.of_nat 128) with (index r + Z.of_nat 129) by lia.
    by replace (Z.of_nat 129 - 1) with (64 * 2) by lia.
Qed.

Lemma parse_quant_tables_spec qbs : forall fuel r quantTables rest,
  Forall quant_ok qbs ->
  next_are r (concat (map quant_bytes qbs) ++ rest) ->
  (length (concat (map quant_bytes qbs)) <= fuel)%nat ->
  parse_quant_tables fuel
    (Z.of_nat (length (concat (map quant_bytes qbs)))) r quantTables
  = Some (set_index r
            (index r + Z.of_nat (length (concat (map quant_bytes qbs)))),
          fold_left store_quant qbs quantTables).
Proof.
  induction qbs as [| qb qbs IH]; intros fuel r quantTables rest Hok Hnext Hfuel.
  - cbn. rewrite set_index_here. by destruct fuel.
  - apply Forall_cons in Hok as [Hok Hoks].
    cbn [map concat fold_left] in *. rewrite length_app in *.
    rewrite <- app_assoc in Hnext.
    assert (0 < length (quant_bytes qb))%nat as Hpos
      by (destruct qb; cbn; lia).
    destruct fuel as [| fuel]; [lia |]. cbn [parse_quant_tables].
    destruct (Z.gtb_spec (Z.of_nat (length (quant_bytes qb)
                                    + length (concat (map quant_bytes qbs)))) 0);
      [| lia].
    rewrite (parse_quant_table_spec _ _ qb _ Hok Hnext).
    cbn [mbind option_bind].
    apply next_are_skip in Hnext.
    replace (Z.of_nat (length (quant_bytes qb)
                       + length (concat (map quant_bytes qbs)))
             - (Z.of_nat (length (quant_bytes qb)) - 1) - 1)
      with (Z.of_nat (length (concat (map quant_bytes qbs)))) by lia.
    rewrite (IH fuel _ _ rest Hoks Hnext) by lia.
    rewrite set_index_twice. cbn [set_index index]. do 3 f_equal. lia.
Qed.

(** X17: [parseQuantizationTable] on a well-formed DQT segment (the length,
    then tables, each a byte of precision and destination and 64 entries of
    one byte when the precision is 0 and of two bytes, the high one first,
    otherwise) returns, puts the 64 entries of each table, in the order of
    the segment, at its destination, a later table replacing an earlier one,
    and leaves the reader at the end of the segment. *)
Theorem parseQuantizationTable_segment (r : DataViewReader)
  (quantTables : list (option (list cell)))
  (hi lo : Byte.byte) (qbs : list QuantBytes) (rest : list Byte.byte) :
  Forall quant_ok qbs ->
  byte_value hi * 256 + byte_value lo
  = 2 + Z.of_nat (length (concat (map quant_bytes qbs))) ->
  next_are r (hi :: lo :: concat (map quant_bytes qbs) ++ rest) ->
  parseQuantizationTable r quantTables
  = Some (set_index r (index r + (byte_value hi * 256 + byte_value lo)),
          fold_left store_quant qbs quantTables)
  /\ next_are (set_index r (index r + (byte_value hi * 256 + byte_value lo)))
       rest.
Proof.
  intros Hok Hlen Hnext. unfold parseQuantizationTable.
  destruct (nextWord_bytes r hi lo _ Hnext) as [-> Hnext2].
  cbn [mbind option_bind]. rewrite Hlen.
  replace (2 + Z.of_nat (length (concat (map quant_bytes qbs))) - 2)
    with (Z.of_nat (length (concat (map quant_bytes qbs)))) by lia.
  rewrite (parse_quant_tables_spec qbs _ _ _ rest Hok Hnext2) by lia.
  rewrite set_index_twice. cbn [set_index index].
  replace (index r + 2 + Z.of_nat (length (concat (map quant_bytes qbs))))
    with (index r + (2 + Z.of_nat (length (concat (map quant_bytes qbs)))))
    by lia.
  split; [done |].
  apply next_are_skip in Hnext2. rewrite set_index_twice in Hnext2.
  cbn [set_index index] in Hnext2.
  by replace (index r + (2 + Z.of_nat (length (concat (map quant_bytes qbs)))))
    with (index r + 2 + Z.of_nat (length (concat (map quant_bytes qbs))))
    by lia.
Qed.

Lemma parseQuantizationTable_segment_witness :
  parseQuantizationTable
    (newReader (map mkByte ([0; 67; 1] ++ map Z.of_nat (seq 1 64) ++ [255])))
    (replicate 4 (Some (replicate 64 None)))
  = Some (set_index
            (newReader
               (map mkByte ([0; 67; 1] ++ map Z.of_nat (seq 1 64) ++ [255])))
            (index
               (newReader
                  (map mkByte ([0; 67; 1] ++ map Z.of_nat (seq 1 64) ++ [255])))
             + (byte_value (mkByte 0) * 256 + byte_value (mkByte 67))),
          fold_left store_quant
            [(mkByte 1, map mkByte (map Z.of_nat (seq 1 64)))]
            (replicate 4 (Some (replicate 64 None))))
  /\ next_are
       (set_index
          (newReader
             (map mkByte ([0; 67; 1] ++ map Z.of_nat (seq 1 64) ++ [255])))
          (index
             (newReader
                (map mkByte ([0; 67; 1] ++ map Z.of_nat (seq 1 64) ++ [255])))
           + (byte_value (mkByte 0) * 256 + byte_value (mkByte 67))))
       [mkByte 255].
Proof.
  apply (parseQuantizationTable_segment
           (newReader
              (map mkByte ([0; 67; 1] ++ map Z.of_nat (seq 1 64) ++ [255])))
           (replicate 4 (Some (replicate 64 None)))
           (mkByte 0) (mkByte 67)
           [(mkByte 1, map mkByte (map Z.of_nat (seq 1 64)))]
           [mkByte 255]).
  - apply Forall_cons. split; [by vm_compute | apply Forall_nil_2].
  - by vm_compute.
  - split; [by vm_compute |]. exists []. by vm_compute.
Defined.

(** * More of the code: the order of the data units *)






Section Order.
Variable Math_cos : float -> float.
Variable idctType : IdctType.
Variable image : Image.
Variable selectors : list Selector.



End Order.



(** * More of the code: the colour conversion *)




(** * More of the code: a block in the image of its component *)

(** Assignments in a row: a place that is none of theirs is as it was,
    and each place holds what was assigned, when the places differ. *)
Lemma for_each_set_other {A} (l : list A) (idxf : A -> Z) (val : A -> cell) :
  forall buf i,
    (forall a, a ∈ l -> idxf a <> i) ->
    JS.get (for_each l (fun b a => JS.set b (idxf a) (val a)) buf) i
    = JS.get buf i.
Proof.
  induction l as [| a l IH]; intros buf i Hne; [done |].
  rewrite for_each_cons, IH
    by (intros a' Ha'; apply Hne; by apply list_elem_of_further).
  rewrite get_set.
  destruct (Z.eqb_spec i (idxf a)) as [-> | ?]; [| done].
  exfalso. by apply (Hne a); [apply list_elem_of_here |].
Qed.

Lemma for_each_set_here {A} (l : list A) (idxf : A -> Z) (val : A -> cell) :
  forall buf a,
    NoDup (map idxf l) -> a ∈ l -> 0 <= idxf a ->
    JS.get (for_each l (fun b a => JS.set b (idxf a) (val a)) buf) (idxf a)
    = val a.
Proof.
  induction l as [| a0 l IH]; intros buf a Hnd Ha Hpos;
    [by apply elem_of_nil in Ha |].
  cbn [map] in Hnd. apply NoDup_cons in Hnd as [Hnew Hnd].
  rewrite for_each_cons.
  apply elem_of_cons in Ha as [-> | Ha].
  - rewrite for_each_set_other.
    + rewrite get_set, Z.eqb_refl.
      by destruct (Z.leb_spec 0 (idxf a0)); [| lia].
    + intros a' Ha' Heq. apply Hnew. rewrite <- Heq.
      by apply list_elem_of_fmap_2.
  - by apply IH.
Qed.

Lemma for_each_nested {A B St} (l : list A) (m : list B)
  (body : St -> A -> B -> St) : forall st,
  for_each l (fun st a => for_each m (fun st b => body st a b) st) st
  = for_each (flat_map (fun a => map (pair a) m) l)
      (fun st ab => body st ab.1 ab.2) st.
Proof.
  induction l as [| a l IH]; intros st; [done |].
  rewrite for_each_cons, IH. cbn [flat_map]. unfold for_each at 3.
  rewrite fold_left_app. fold (@for_each (A * B) St). f_equal.
  clear. revert st. induction m as [| b m IHm]; intros st; [done |].
  cbn [map]. by rewrite !for_each_cons, IHm.
Qed.

(** X20: the copy loop of [decodeMCU] puts the data unit [(x, y)] of the MCU
    [(hMCU, vMCU)] into its own window of 8 by 8 samples of the image of
    the component, the rows from [(vMCU * v + y) * 8] and the columns from
    [(hMCU * h + x) * 8] on, and changes nothing else, provided the
    window is inside a line of [hSize] samples. *)
Theorem copy_block_window (imgBuff block : list cell)
  (hSize vMCU hMCU v h y x : Z) :
  0 <= vMCU -> 0 <= hMCU -> 0 <= v -> 0 <= h -> 0 <= y -> 0 <= x ->
  (hMCU * h + x) * 8 + 8 <= hSize ->
  let row := (vMCU * v + y) * 8 in
  let col := (hMCU * h + x) * 8 in
  (forall yy xx, 0 <= yy < 8 -> 0 <= xx < 8 ->
     JS.get (copy_block imgBuff hSize vMCU hMCU v h y x block)
       ((row + yy) * hSize + (col + xx))
     = JS.get block (yy * 8 + xx))
  /\ (forall i,
        (forall yy xx, 0 <= yy < 8 -> 0 <= xx < 8 ->
                       i <> (row + yy) * hSize + (col + xx)) ->
        JS.get (copy_block imgBuff hSize vMCU hMCU v h y x block) i
        = JS.get imgBuff i).
Proof.
  intros HvM HhM Hv Hh Hy Hx Hfit row col.
  assert (0 <= row) as Hrow by (unfold row; nia).
  assert (0 <= col) as Hcol by (unfold col; nia).
  unfold copy_block, DATA_UNIT_SIZE.
  rewrite (for_each_nested idx8 idx8
             (fun buf yy xx =>
                JS.set buf
                  (vMCU * v * 8 * hSize + hMCU * h * 8 + y * 8 * hSize + x * 8
                   + yy * hSize + xx)
                  (JS.get block (yy * 8 + xx)))).
  set (cells := flat_map (fun a => map (pair a) idx8) idx8).
  assert (forall yy xx,
            vMCU * v * 8 * hSize + hMCU * h * 8 + y * 8 * hSize + x * 8
            + yy * hSize + xx
            = (row + yy) * hSize + (col + xx)) as Hidx
    by (intros; unfold row, col; ring).
  assert (forall yy xx, (yy, xx) ∈ cells <-> 0 <= yy < 8 /\ 0 <= xx < 8)
    as Hcells.
  { intros yy xx. unfold cells. rewrite list_elem_of_In, in_flat_map.
    split.
    - intros (a & Ha & Hin). apply in_map_iff in Hin as (b & [= <- <-] & Hb).
      apply list_elem_of_In, idx8_elem in Ha, Hb. lia.
    - intros [Hyy Hxx]. exists yy. split.
      + by apply list_elem_of_In, idx8_elem.
      + apply in_map. by apply list_elem_of_In, idx8_elem. }
  assert (forall yy xx yy' xx',
            0 <= yy < 8 -> 0 <= xx < 8 -> 0 <= yy' < 8 -> 0 <= xx' < 8 ->
            (row + yy) * hSize + (col + xx) = (row + yy') * hSize + (col + xx') ->
            yy = yy' /\ xx = xx') as Hinj.
  { intros yy xx yy' xx' Hyy Hxx Hyy' Hxx' Heq.
    assert (yy = yy') as -> by nia. split; [done | lia]. }
  split.
  - intros yy xx Hyy Hxx. rewrite <- Hidx.
    apply (for_each_set_here cells
             (fun ab : Z * Z =>
                vMCU * v * 8 * hSize + hMCU * h * 8 + y * 8 * hSize + x * 8
                + ab.1 * hSize + ab.2)
             (fun ab : Z * Z => JS.get block (ab.1 * 8 + ab.2))
             imgBuff (yy, xx)).
    + apply NoDup_fmap_2_strong.
      2:{ assert (bool_decide (NoDup cells) = true) as Hnd by (by vm_compute).
          by apply bool_decide_eq_true in Hnd. }
      intros [a b] [a' b'] Ha Ha'. cbn [fst snd]. rewrite !Hidx.
      apply Hcells in Ha, Ha'. intros Heq.
      by destruct (Hinj a b a' b') as [-> ->]; [lia | lia | lia | lia | |].
    + by apply Hcells.
    + cbn [fst snd]. rewrite Hidx. nia.
  - intros i Hi.
    apply (for_each_set_other cells
             (fun ab : Z * Z =>
                vMCU * v * 8 * hSize + hMCU * h * 8 + y * 8 * hSize + x * 8
                + ab.1 * hSize + ab.2)
             (fun ab : Z * Z => JS.get block (ab.1 * 8 + ab.2))).
    intros [a b] Hab. cbn [fst snd]. rewrite Hidx. apply Hcells in Hab.
    intros Heq. by apply (Hi a b); [lia | lia |].
Qed.

Lemma copy_block_window_witness :
  (forall yy xx, 0 <= yy < 8 -> 0 <= xx < 8 ->
     JS.get (copy_block (replicate 128 (Some 0)) 16 0 0 1 2 0 1 test_coeffs)
       (((0 * 1 + 0) * 8 + yy) * 16 + ((0 * 2 + 1) * 8 + xx))
     = JS.get test_coeffs (yy * 8 + xx))
  /\ (forall i,
        (forall yy xx, 0 <= yy < 8 -> 0 <= xx < 8 ->
                       i <> ((0 * 1 + 0) * 8 + yy) * 16 + ((0 * 2 + 1) * 8 + xx)) ->
        JS.get (copy_block (replicate 128 (Some 0)) 16 0 0 1 2 0 1 test_coeffs) i
        = JS.get (replicate 128 (Some 0)) i).
Proof.
  apply (copy_block_window (replicate 128 (Some 0)) test_coeffs 16 0 0 1 2 0 1);
    lia.
Defined.

(** * More of the code: [nextBit] at a marker *)

(** A byte is read where the bytes that come next are known. *)
Ltac read_byte Hnext Hnew :=
  lazymatch goal with
  | |- context [nextByte ?r] =>
      lazymatch type of Hnext with
      | next_are _ (?b :: ?bs) =>
          destruct (nextByte_next r b bs Hnext) as [-> Hnew];
          cbn [mbind option_bind set_cnt set_byte set_index byte view index
                 cnt buffer buffSize] in *
      end
  end.

Lemma nextBit_load_rst r img (m x : Byte.byte) rest :
  cnt r = 0 -> next_are r (Byte.xff :: m :: x :: rest) ->
  208 <= byte_value m <= 215 ->
  nextBit_load r img
  = Some (mkReader (view r) (index r + 3) (byte_value x) 1 (buffer r)
            (buffSize r),
          set_dcpred img (JS.fill (dcpred img) 0))
  /\ next_are (set_index r (index r + 3)) rest.
Proof.
  destruct r as [v i b c bf bs]. cbn [cnt view index buffer buffSize].
  intros -> Hnext Hm. unfold nextBit_load. cbn [cnt].
  change (0 =? 0) with true. cbv iota.
  read_byte Hnext Hnext1.
  change (byte_value Byte.xff =? 255) with true. cbv iota.
  read_byte Hnext1 Hnext2.
  destruct (Z.eqb_spec (byte_value m) 0); [lia |].
  destruct (Z.eqb_spec (byte_value m) 220); [lia |].
  destruct (Z.leb_spec 208 (byte_value m)); [| lia].
  destruct (Z.leb_spec (byte_value m) 215); [| lia].
  cbn [negb andb].
  read_byte Hnext2 Hnext3.
  replace (i + 1 + 1 + 1) with (i + 3) in * by lia.
  done.
Qed.

(** X21: [nextBit] at a restart marker in the data (the reader has used up
    its byte, and 0xFF and 0xD0 .. 0xD7 come next): the predictors are
    filled with 0, and of the byte [x] after the marker only the first bit
    is returned; the bits that follow are those of the byte after [x], so
    seven bits of [x] are never read. *)
Theorem nextBit_at_restart_marker (r : DataViewReader) (img : Img)
  (m x y : Byte.byte) (rest : list Byte.byte) :
  cnt r = 0 ->
  next_are r (Byte.xff :: m :: x :: y :: rest) ->
  208 <= byte_value m <= 215 -> y <> Byte.xff ->
  nextBits 9 r img
  = Some (byte_value x / 128 :: reg_bits 8 (byte_value y),
          mkReader (view r) (index r + 4) (reg_rest 8 (byte_value y)) 0
            (buffer r) (buffSize r),
          set_dcpred img (JS.fill (dcpred img) 0)).
Proof.
  intros Hcnt Hnext Hm Hy.
  destruct (nextBit_load_rst r img m x _ Hcnt Hnext Hm) as [Hload Hnext3].
  change (nextBits 9 r img) with
    (match nextBit r img with
     | Some (b, r, img) =>
         match nextBits 8 r img with
         | Some (bs, r, img) => Some (b :: bs, r, img)
         | None => None
         end
     | None => None
     end).
  unfold nextBit at 1. rewrite Hload.
  cbn [mbind option_bind set_cnt set_byte byte cnt view index buffer buffSize].
  pose proof (byte_value_range x) as Hx.
  rewrite sar_byte by lia. change (2 ^ 7) with 128.
  change (1 - 1) with 0.
  set (r4 := mkReader (view r) (index r + 3)
               (JS.and (JS.shl (byte_value x) 1) 255) 0 (buffer r)
               (buffSize r)).
  assert (nextBit_load r4 (set_dcpred img (JS.fill (dcpred img) 0))
          = Some (mkReader (view r) (index r + 4) (byte_value y) 8 (buffer r)
                    (buffSize r),
                  set_dcpred img (JS.fill (dcpred img) 0))) as Hload4.
  { unfold nextBit_load, r4. cbn [cnt]. change (0 =? 0) with true. cbv iota.
    read_byte Hnext3 Hnext4.
    unfold byte_value. rewrite byte_not_ff by done.
    by replace (index r + 3 + 1) with (index r + 4) by lia. }
  match goal with
  | |- context [nextBits 8 ?rr _] => change rr with r4
  end.
  by rewrite (nextBits_loaded _ _ _ _ _ _ _ _ Hload4).
Qed.

Lemma nextBit_at_restart_marker_witness :
  nextBits 9 (newReader (map mkByte [255; 208; 85; 170])) img1
  = Some (byte_value (mkByte 85) / 128
            :: reg_bits 8 (byte_value (mkByte 170)),
          mkReader (view (newReader (map mkByte [255; 208; 85; 170])))
            (index (newReader (map mkByte [255; 208; 85; 170])) + 4)
            (reg_rest 8 (byte_value (mkByte 170))) 0
            (buffer (newReader (map mkByte [255; 208; 85; 170])))
            (buffSize (newReader (map mkByte [255; 208; 85; 170]))),
          set_dcpred img1 (JS.fill (dcpred img1) 0)).
Proof.
  apply (nextBit_at_restart_marker
           (newReader (map mkByte [255; 208; 85; 170])) img1
           (mkByte 208) (mkByte 85) (mkByte 170) []).
  - reflexivity.
  - split; [by vm_compute |]. exists []. by vm_compute.
  - by vm_compute.
  - by vm_compute.
Defined.

(** X22: [nextBit] at a DNL marker in the data (0xFF and 0xDC come next):
    the number of lines of the frame is set from the segment, whose four
    bytes are read, and the 0xFF of the marker is then decoded as eight
    bits 1. *)
Theorem nextBit_at_DNL_marker (r : DataViewReader) (img : Img)
  (l1 l2 y1 y2 : Byte.byte) (rest : list Byte.byte) :
  cnt r = 0 ->
  next_are r (Byte.xff :: Byte.xdc :: l1 :: l2 :: y1 :: y2 :: rest) ->
  nextBits 8 r img
  = Some (replicate 8 1,
          mkReader (view r) (index r + 6) 0 0 (buffer r) (buffSize r),
          set_frameY img (byte_value y1 * 256 + byte_value y2))
  /\ next_are (set_index r (index r + 6)) rest.
Proof.
  intros Hcnt Hnext.
  assert (nextBit_load r img
          = Some (mkReader (view r) (index r + 6) 255 8 (buffer r) (buffSize r),
                  set_frameY img (byte_value y1 * 256 + byte_value y2))
          /\ next_are (set_index r (index r + 6)) rest) as [Hload Hnext6].
  { destruct r as [v i b c bf bs]. cbn [cnt view index buffer buffSize] in *.
    subst c. unfold nextBit_load. cbn [cnt].
    change (0 =? 0) with true. cbv iota.
    read_byte Hnext Hnext1.
    change (byte_value Byte.xff =? 255) with true. cbv iota.
    read_byte Hnext1 Hnext2.
    change (byte_value Byte.xdc) with 220.
    change (negb (220 =? 0)) with true. change (220 =? 220) with true.
    cbv iota. unfold parseDNL.
    destruct (nextWord_bytes _ _ _ _ Hnext2) as [-> Hr4].
    cbn [mbind option_bind set_index index view byte cnt buffer buffSize] in *.
    destruct (nextWord_bytes _ _ _ _ Hr4) as [-> Hr6].
    cbn [mbind option_bind set_index index view byte cnt buffer buffSize] in *.
    replace (i + 1 + 1 + 2 + 2) with (i + 6) in * by lia.
    split; [| exact Hr6].
    change (byte_value Byte.xff) with 255. done. }
  split; [| done].
  by rewrite (nextBits_loaded _ _ _ _ _ _ _ _ Hload).
Qed.

Lemma nextBit_at_DNL_marker_witness :
  nextBits 8 (newReader (map mkByte [255; 220; 0; 4; 1; 44; 18])) img0
  = Some (replicate 8 1,
          mkReader (view (newReader (map mkByte [255; 220; 0; 4; 1; 44; 18])))
            (index (newReader (map mkByte [255; 220; 0; 4; 1; 44; 18])) + 6)
            0 0
            (buffer (newReader (map mkByte [255; 220; 0; 4; 1; 44; 18])))
            (buffSize (newReader (map mkByte [255; 220; 0; 4; 1; 44; 18]))),
          set_frameY img0 (byte_value (mkByte 1) * 256 + byte_value (mkByte 44)))
  /\ next_are
       (set_index (newReader (map mkByte [255; 220; 0; 4; 1; 44; 18]))
          (index (newReader (map mkByte [255; 220; 0; 4; 1; 44; 18])) + 6))
       [mkByte 18].
Proof.
  apply (nextBit_at_DNL_marker
           (newReader (map mkByte [255; 220; 0; 4; 1; 44; 18])) img0
           (mkByte 0) (mkByte 4) (mkByte 1) (mkByte 44) [mkByte 18]).
  - reflexivity.
  - split; [by vm_compute |]. exists []. by vm_compute.
Defined.

(** * More of the code: the header of a scan *)

Lemma read_selectors_spec sbs : forall components r rest,
  next_are r (concat (map selector_bytes sbs) ++ rest) ->
  read_selectors (length sbs) components r
  = Some (components ++ map selector_of sbs,
          set_index r (index r + 2 * Z.of_nat (length sbs)))
  /\ next_are (set_index r (index r + 2 * Z.of_nat (length sbs))) rest.
Proof.
  induction sbs as [| [c t] sbs IH]; intros components r rest Hnext.
  - cbn [length read_selectors map]. rewrite app_nil_r.
    change (2 * Z.of_nat 0) with 0. by rewrite set_index_here.
  - cbn [length read_selectors map concat selector_bytes fst snd app] in *.
    destruct (nextByte_next r _ _ Hnext) as [-> Hnext1].
    cbn [mbind option_bind].
    destruct (nextByte_next _ _ _ Hnext1) as [-> Hnext2].
    cbn [mbind option_bind]. destruct (byte_nibbles t) as [-> ->].
    rewrite set_index_twice in *. cbn [set_index index] in *.
    destruct (IH (components ++ [mkSelector (byte_value c) (byte_value t / 16)
                                   (byte_value t mod 16)]) _ rest Hnext2)
      as [-> Hrest].
    rewrite set_index_twice in *. cbn [set_index index] in *.
    replace (index r + 1 + 1 + 2 * Z.of_nat (length sbs))
      with (index r + 2 * Z.of_nat (S (length sbs))) in * by lia.
    split; [| done]. by rewrite <- app_assoc.
Qed.

(** X23: [parseStartOfSequence] on the header of a scan: it returns the
    selectors of the components in the order of the header, each with the
    destinations of its DC and AC tables from the high and the low half of
    its second byte, then Ss, Se and the two halves of the last byte, and
    leaves the reader after the header, where the data of the scan begin;
    the number of components decides how much is read, the length of the
    header does not. *)
Theorem parseStartOfSequence_header (r : DataViewReader)
  (hi lo n s0 s1 a : Byte.byte) (sbs : list (Byte.byte * Byte.byte))
  (rest : list Byte.byte) :
  byte_value n = Z.of_nat (length sbs) ->
  next_are r (hi :: lo :: n :: concat (map selector_bytes sbs)
                ++ s0 :: s1 :: a :: rest) ->
  parseStartOfSequence r
  = Some (mkScan (byte_value n) (map selector_of sbs) (byte_value s0)
            (byte_value s1) (byte_value a / 16) (byte_value a mod 16),
          set_index r (index r + 6 + 2 * byte_value n))
  /\ next_are (set_index r (index r + 6 + 2 * byte_value n)) rest.
Proof.
  intros Hn Hnext. unfold parseStartOfSequence.
  destruct (nextWord_bytes r _ _ _ Hnext) as [-> Hnext2].
  cbn [mbind option_bind].
  destruct (nextByte_next _ _ _ Hnext2) as [-> Hnext3].
  cbn [mbind option_bind]. rewrite Hn, Nat2Z.id.
  destruct (read_selectors_spec sbs [] _ _ Hnext3) as [-> Hnext4].
  cbn [mbind option_bind app].
  destruct (nextByte_next _ _ _ Hnext4) as [-> Hnext5].
  cbn [mbind option_bind].
  destruct (nextByte_next _ _ _ Hnext5) as [-> Hnext6].
  cbn [mbind option_bind].
  destruct (nextByte_next _ _ _ Hnext6) as [-> Hnext7].
  cbn [mbind option_bind]. destruct (byte_nibbles a) as [-> ->].
  rewrite !set_index_twice in *. cbn [set_index index] in *.
  replace (index r + 2 + 1 + 2 * Z.of_nat (length sbs) + 1 + 1 + 1)
    with (index r + 6 + 2 * Z.of_nat (length sbs)) in * by lia.
  done.
Qed.

Lemma parseStartOfSequence_header_witness :
  parseStartOfSequence
    (newReader (map mkByte [0; 99; 2; 1; 0; 2; 17; 0; 63; 0; 254]))
  = Some (mkScan (byte_value (mkByte 2))
            (map selector_of [(mkByte 1, mkByte 0); (mkByte 2, mkByte 17)])
            (byte_value (mkByte 0)) (byte_value (mkByte 63))
            (byte_value (mkByte 0) / 16) (byte_value (mkByte 0) mod 16),
          set_index
            (newReader (map mkByte [0; 99; 2; 1; 0; 2; 17; 0; 63; 0; 254]))
            (index
               (newReader (map mkByte [0; 99; 2; 1; 0; 2; 17; 0; 63; 0; 254]))
             + 6 + 2 * byte_value (mkByte 2)))
  /\ next_are
       (set_index
          (newReader (map mkByte [0; 99; 2; 1; 0; 2; 17; 0; 63; 0; 254]))
          (index
             (newReader (map mkByte [0; 99; 2; 1; 0; 2; 17; 0; 63; 0; 254]))
           + 6 + 2 * byte_value (mkByte 2)))
       [mkByte 254].
Proof.
  apply (parseStartOfSequence_header
           (newReader (map mkByte [0; 99; 2; 1; 0; 2; 17; 0; 63; 0; 254]))
           (mkByte 0) (mkByte 99) (mkByte 2) (mkByte 0) (mkByte 63) (mkByte 0)
           [(mkByte 1, mkByte 0); (mkByte 2, mkByte 17)] [mkByte 254]).
  - by vm_compute.
  - split; [by vm_compute |]. exists []. by vm_compute.
Defined.

(** * More of the code: the application segments *)

Lemma read_chars_spec bs : forall str r rest,
  next_are r (bs ++ rest) ->
  read_chars (length bs) str r
  = Some (str ++ map byte_value bs,
          set_index r (index r + Z.of_nat (length bs)))
  /\ next_are (set_index r (index r + Z.of_nat (length bs))) rest.
Proof.
  induction bs as [| b bs IH]; intros str r rest Hnext.
  - cbn [length read_chars map]. rewrite app_nil_r.
    change (Z.of_nat 0) with 0. by rewrite set_index_here.
  - cbn [length read_chars map app] in *.
    destruct (nextByte_next r _ _ Hnext) as [-> Hnext1].
    cbn [mbind option_bind].
    destruct (IH (str ++ [byte_value b]) _ rest Hnext1) as [-> Hrest].
    rewrite set_index_twice in *. cbn [set_index index] in *.
    replace (index r + 1 + Z.of_nat (length bs))
      with (index r + Z.of_nat (S (length bs))) in * by lia.
    split; [| done]. by rewrite <- app_assoc.
Qed.

(** X24: where [parseAppSegment] leaves the reader. The number it returns
    is always the index of the last byte of the segment. For a segment
    other than APP0 the reader is there too. For APP0 it is only when the
    segment is a JFIF header whose length is 16 plus the three bytes for
    every pixel of the thumbnail: an APP0 segment of 16 bytes or more that
    does not begin with JFIF and a 0 is left after five bytes of its
    content, and one of less than 16 bytes after its length. *)
Theorem parseAppSegment_position (r : DataViewReader) (hi lo : Byte.byte)
  (body rest : list Byte.byte) :
  let length := byte_value hi * 256 + byte_value lo in
  next_are r (hi :: lo :: body ++ rest) ->
  (Z.of_nat (Datatypes.length body) = length - 2 ->
   parseAppSegment false r
   = Some (index r + length, set_index r (index r + length)))
  /\ (length < 16 ->
      parseAppSegment true r = Some (index r + length, set_index r (index r + 2)))
  /\ (16 <= length -> (5 <= Datatypes.length body)%nat ->
      map byte_value (take 5 body) <> JFIF ->
      parseAppSegment true r = Some (index r + length, set_index r (index r + 7)))
  /\ (forall major minor units x1 x2 y1 y2 xthumb ythumb thumb,
        16 <= length ->
        body = map mkByte JFIF
               ++ [major; minor; units; x1; x2; y1; y2; xthumb; ythumb]
               ++ thumb ->
        parseAppSegment true r
        = Some (index r + length,
                set_index r
                  (index r + 16 + byte_value xthumb * byte_value ythumb * 3))).
Proof.
  intros len Hnext.
  destruct (nextWord_bytes r _ _ _ Hnext) as [Hword Hnext2].
  fold len in Hword.
  split; [| split; [| split]].
  - intros Hlen. unfold parseAppSegment. rewrite Hword.
    cbn [mbind option_bind]. rewrite <- Hlen, Nat2Z.id.
    destruct (read_chars_spec body [] _ rest Hnext2) as [-> _].
    cbn [mbind option_bind currentIndex set_index index].
    rewrite set_index_twice. cbn [set_index index].
    do 2 f_equal; [lia |]. f_equal. lia.
  - intros Hlen. unfold parseAppSegment. rewrite Hword.
    cbn [mbind option_bind].
    destruct (Z.geb_spec len 16); [lia |].
    cbn [mbind option_bind currentIndex set_index index].
    do 2 f_equal. lia.
  - intros Hlen Hbody Hid. unfold parseAppSegment. rewrite Hword.
    cbn [mbind option_bind].
    destruct (Z.geb_spec len 16); [| lia].
    rewrite <- (take_drop 5 body), <- app_assoc in Hnext2.
    pose proof (read_chars_spec (take 5 body) [] _ _ Hnext2) as [Hread _].
    rewrite length_take, Nat.min_l in Hread by lia. rewrite Hread.
    cbn [mbind option_bind app].
    rewrite bool_decide_eq_false_2 by done.
    cbn [mbind option_bind currentIndex set_index index].
    rewrite set_index_twice. cbn [set_index index].
    do 2 f_equal; [lia |]. f_equal. lia.
  - intros major minor units x1 x2 y1 y2 xthumb ythumb thumb Hlen ->.
    unfold parseAppSegment. rewrite Hword. cbn [mbind option_bind].
    destruct (Z.geb_spec len 16); [| lia].
    rewrite <- app_assoc in Hnext2.
    pose proof (read_chars_spec (map mkByte JFIF) [] _ _ Hnext2)
      as [Hread Hnext3].
    change (Datatypes.length (map mkByte JFIF)) with 5%nat in Hread, Hnext3.
    rewrite Hread. cbn [mbind option_bind app].
    change (map byte_value (map mkByte JFIF)) with JFIF.
    rewrite bool_decide_eq_true_2 by done.
    rewrite set_index_twice in *. cbn [set_index index] in *.
    rewrite <- app_assoc in Hnext3. cbn [app] in Hnext3.
    read_byte Hnext3 Hn1. read_byte Hn1 Hn2. read_byte Hn2 Hn3.
    destruct (nextWord_bytes _ _ _ _ Hn3) as [-> Hn5].
    cbn [mbind option_bind set_index index] in *.
    destruct (nextWord_bytes _ _ _ _ Hn5) as [-> Hn7].
    cbn [mbind option_bind set_index index] in *.
    read_byte Hn7 Hn8. read_byte Hn8 Hn9.
    unfold skip, currentIndex. cbn [set_index index].
    do 2 f_equal; [lia |]. f_equal. lia.
Qed.

Lemma parseAppSegment_position_witness :
  (Z.of_nat (Datatypes.length jfxx_body)
   = byte_value (mkByte 0) * 256 + byte_value (mkByte 16) - 2 ->
   parseAppSegment false jfxx_reader
   = Some (index jfxx_reader
           + (byte_value (mkByte 0) * 256 + byte_value (mkByte 16)),
           set_index jfxx_reader
             (index jfxx_reader
              + (byte_value (mkByte 0) * 256 + byte_value (mkByte 16)))))
  /\ (byte_value (mkByte 0) * 256 + byte_value (mkByte 16) < 16 ->
      parseAppSegment true jfxx_reader
      = Some (index jfxx_reader
              + (byte_value (mkByte 0) * 256 + byte_value (mkByte 16)),
              set_index jfxx_reader (index jfxx_reader + 2)))
  /\ (16 <= byte_value (mkByte 0) * 256 + byte_value (mkByte 16) ->
      (5 <= Datatypes.length jfxx_body)%nat ->
      map byte_value (take 5 jfxx_body) <> JFIF ->
      parseAppSegment true jfxx_reader
      = Some (index jfxx_reader
              + (byte_value (mkByte 0) * 256 + byte_value (mkByte 16)),
              set_index jfxx_reader (index jfxx_reader + 7)))
  /\ (forall major minor units x1 x2 y1 y2 xthumb ythumb thumb,
        16 <= byte_value (mkByte 0) * 256 + byte_value (mkByte 16) ->
        jfxx_body = map mkByte JFIF
               ++ [major; minor; units; x1; x2; y1; y2; xthumb; ythumb]
               ++ thumb ->
        parseAppSegment true jfxx_reader
        = Some (index jfxx_reader
                + (byte_value (mkByte 0) * 256 + byte_value (mkByte 16)),
                set_index jfxx_reader
                  (index jfxx_reader + 16
                   + byte_value xthumb * byte_value ythumb * 3))).
Proof.
  apply (parseAppSegment_position jfxx_reader (mkByte 0) (mkByte 16) jfxx_body
           [mkByte 255]).
  split; [by vm_compute |]. exists []. by vm_compute.
Defined.
